(** * augur align: reference-relative post-processing of an alignment

    A shallow embedding of [augur/align.py]: the functions that trim an
    alignment to the columns of a reference row, catalogue the insertions
    relative to it, normalise the aligner's output, scan collections for
    duplicate strain names and prune the sequences already aligned.

    Python objects are references.  The rows of an alignment are
    [SeqRecord] objects that several containers can hold at once, and the
    code assigns to their fields, so records live in a store and the
    containers hold locations. *)

From Stdlib Require Import ZArith Ascii String List Lia.
From stdpp Require Import base tactics option list functions gmap strings pretty.

Local Open Scope string_scope.
Local Open Scope Z_scope.
Local Open Scope list_scope.

(** ** Characters and strings *)

Definition dquote : string := String "034"%char EmptyString.
Definition tab : string := String "009"%char EmptyString.
Definition gap : ascii := "-"%char.

(** [str.join]: the pieces separated by [sep]. *)
Fixpoint join (sep : string) (l : list string) : string :=
  match l with
  | [] => EmptyString
  | [x] => x
  | x :: rest => x +:+ sep +:+ join sep rest
  end.

(** [str.startswith]. *)
Fixpoint startswith (s p : string) : bool :=
  match p, s with
  | EmptyString, _ => true
  | String c p', String d s' => if decide (c = d) then startswith s' p' else false
  | String _ _, EmptyString => false
  end.

(** The slice [s[n:]]. *)
Fixpoint drop_str (n : nat) (s : string) : string :=
  match n, s with
  | O, _ => s
  | S n', String _ s' => drop_str n' s'
  | S _, EmptyString => EmptyString
  end.

(** [str.upper] on ASCII text: the letters a to z move to A to Z.  Text
    beyond ASCII is not modelled: there [str.upper] can change the length
    of a text, and statements that rest on the length ask for [isascii]. *)
Definition upper_char (c : ascii) : ascii :=
  let n := nat_of_ascii c in
  if (Nat.leb 97 n && Nat.leb n 122)%bool then ascii_of_nat (n - 32) else c.

Fixpoint upper (s : string) : string :=
  match s with
  | EmptyString => EmptyString
  | String c s' => String (upper_char c) (upper s')
  end.

(** [Seq.ungap(c)]: the text with every occurrence of [c] removed. *)
Fixpoint ungap (c : ascii) (s : string) : string :=
  match s with
  | EmptyString => EmptyString
  | String d s' => if decide (d = c) then ungap c s' else String d (ungap c s')
  end.

(** The slice [s[a:b]] for [0 <= a <= b]. *)
Definition slice (a b : nat) (s : string) : string := substring a (b - a) s.

(** [enumerate]. *)
Definition enumerate {A} (l : list A) : list (nat * A) := zip (seq 0 (length l)) l.

(** ** Records, the store and the world *)

(** A Biopython [SeqRecord]: the fields this module reads and writes. *)
Record SeqRecord := mkSeqRecord {
  id : string;
  name : string;
  description : string;
  seq : string
}.

Definition set_seq (r : SeqRecord) (s : string) : SeqRecord :=
  {| id := id r; name := name r; description := description r; seq := s |}.
Definition set_id (r : SeqRecord) (s : string) : SeqRecord :=
  {| id := s; name := name r; description := description r; seq := seq r |}.
Definition set_name (r : SeqRecord) (s : string) : SeqRecord :=
  {| id := id r; name := s; description := description r; seq := seq r |}.
Definition set_description (r : SeqRecord) (s : string) : SeqRecord :=
  {| id := id r; name := name r; description := s; seq := seq r |}.

(** A reference to a record.  None of the functions below creates a
    record, so the store is a total assignment of records to locations. *)
Definition loc := nat.
#[global] Instance loc_eq_dec : EqDecision loc := Nat.eq_dec.

(** A [MultipleSeqAlignment]: its list of records, by reference.  The
    class takes rows of one length only, but a record can be assigned
    new residues afterwards; [rectangular] below says that the rows are
    of one length. *)
Abbreviation alignment := (list loc).

(** An insertion-ordered [dict] with string keys. *)
Abbreviation dict V := (list (string * V)).

Record world := mkWorld {
  heap : loc → SeqRecord;          (* the records *)
  stdout : list string;            (* the lines printed so far *)
  fs : gmap string (list string);  (* the files written, as lines *)
  writable : string → bool         (* the paths that can be opened for writing *)
}.

(** The exceptions that leave these functions: the module's own
    [AlignmentError], [TypeError], the [OSError] of an [open] that fails
    (a [FileNotFoundError] for a missing directory, say), and the error
    with which numpy refuses to index a matrix whose rows are not all as
    long as the index (an [IndexError] or a [ValueError], by its version). *)
Inductive exn :=
  | AlignmentError (msg : string)
  | TypeError
  | OSError
  | ArrayError.

Inductive result (A : Type) :=
  | Ret (a : A)
  | Raise (e : exn).
Arguments Ret {A} a.
Arguments Raise {A} e.

(** A computation reads and updates the world and returns or raises; what
    it did to the world before raising stays done. *)
Definition M (A : Type) : Type := world → result A * world.

Definition pure {A} (a : A) : M A := fun w => (Ret a, w).
Definition raise {A} (e : exn) : M A := fun w => (Raise e, w).
Definition bind {A B} (m : M A) (k : A → M B) : M B :=
  fun w => match m w with
           | (Ret a, w') => k a w'
           | (Raise e, w') => (Raise e, w')
           end.

Declare Scope py_scope.
Delimit Scope py_scope with py.
Notation "x <- m ;; k" := (bind m (fun x => k))
  (at level 100, m at next level, right associativity) : py_scope.
Notation "m ;;; k" := (bind m (fun _ => k))
  (at level 100, right associativity) : py_scope.
Local Open Scope py_scope.

(** Reading a record through a reference. *)
Definition get_record (l : loc) : M SeqRecord := fun w => (Ret (heap w l), w).
(** Reading any number of records, as a comprehension over a container does. *)
Definition gets {A} (f : (loc → SeqRecord) → A) : M A := fun w => (Ret (f (heap w)), w).
(** An attribute assignment [rec.field = v] on the record at [l]. *)
Definition assign (l : loc) (setter : SeqRecord → string → SeqRecord) (v : string) : M unit :=
  fun w => (Ret tt, {| heap := <[l := setter (heap w l) v]> (heap w);
                       stdout := stdout w; fs := fs w; writable := writable w |}).
Definition print (line : string) : M unit :=
  fun w => (Ret tt, {| heap := heap w; stdout := stdout w ++ [line]; fs := fs w;
                       writable := writable w |}).
(** Whether [open(path, 'w')] succeeds: never on the empty path, and
    otherwise as the file system allows. *)
Definition can_open (w : world) (path : string) : bool :=
  match path with
  | EmptyString => false
  | String _ _ => writable w path
  end.
(** [with open(path, 'w') as fh] and the lines printed to [fh]: the file
    then holds these lines, unless [open] raises, which leaves the file
    system as it was. *)
Definition write_file (path : string) (lines : list string) : M unit :=
  fun w => if can_open w path
           then (Ret tt, {| heap := heap w; stdout := stdout w;
                            fs := <[path := lines]> (fs w); writable := writable w |})
           else (Raise OSError, w).

(** A [for] loop whose body only has effects. *)
Fixpoint for_each {A} (l : list A) (body : A → M unit) : M unit :=
  match l with
  | [] => pure tt
  | x :: rest => body x ;;; for_each rest body
  end.

(** A [for] loop that carries local variables from one pass to the next. *)
Fixpoint for_fold {A S} (l : list A) (body : S → A → M S) (s : S) : M S :=
  match l with
  | [] => pure s
  | x :: rest => s' <- body s x ;; for_fold rest body s'
  end.

(** The names of the rows of an alignment, in row order. *)
Definition row_names (h : loc → SeqRecord) (aln : alignment) : list string :=
  map (fun l => name (h l)) aln.

(** ** [analyse_insertions] *)

(** An entry [[_open_idx, i, _ref_idx]] of [insertion_coords]. *)
Definition coord : Type := nat * nat * Z.
Definition run_start (c : coord) : nat := c.1.1.
Definition run_stop (c : coord) : nat := c.1.2.
Definition run_ref (c : coord) : Z := c.2.

(** The local variables of the scan; [_open_idx] is [None] where the
    source holds [False] (the source tests it with [is], so a run opened
    at column 0 is not taken for [False]). *)
Record scan_state := mkScan {
  insertion_coords : list coord;
  _open_idx : option nat;
  _ref_idx : Z
}.

(** One pass of the loop over [enumerate(ungapped)]. *)
Definition scan_body (st : scan_state) (p : nat * bool) : scan_state :=
  let '(i, in_ref) := p in
  let st1 :=
    match in_ref, _open_idx st with
    | false, None => mkScan (insertion_coords st) (Some i) (_ref_idx st)
    | true, Some o => mkScan (insertion_coords st ++ [(o, i, _ref_idx st)]) None (_ref_idx st)
    | _, _ => st
    end in
  if in_ref then mkScan (insertion_coords st1) (_open_idx st1) (_ref_idx st1 + 1) else st1.

(** [insertion_coords] as it stands after the loop and the closing test. *)
Definition scan_runs (ungapped : list bool) : list coord :=
  let st := fold_left scan_body (enumerate ungapped) (mkScan [] None (-1)) in
  match _open_idx st with
  | Some o => insertion_coords st ++ [(o, length ungapped, _ref_idx st)]
  | None => insertion_coords st
  end.

(** [d[k].append(v)] on a [defaultdict(list)]. *)
Fixpoint dd_append (d : dict (list string)) (k v : string) : dict (list string) :=
  match d with
  | [] => [(k, [v])]
  | (k', vs) :: rest =>
      if decide (k' = k) then (k', vs ++ [v]) :: rest else (k', vs) :: dd_append rest k v
  end.

(** [d[k][idx] = v] on a [defaultdict] whose default is [n] empty strings. *)
Fixpoint dd_set_cell (n : nat) (d : dict (list string)) (k : string) (idx : nat) (v : string)
  : dict (list string) :=
  match d with
  | [] => [(k, <[idx := v]> (replicate n EmptyString))]
  | (k', cells) :: rest =>
      if decide (k' = k) then (k', <[idx := v]> cells) :: rest
      else (k', cells) :: dd_set_cell n rest k idx v
  end.

(** The inserted material of a row within a run, placeholders removed. *)
Definition inserted (c : coord) (rec : SeqRecord) : string :=
  ungap "?"%char (ungap "N"%char (ungap gap (slice (run_start c) (run_stop c) (seq rec)))).

(** The second loop: per run, the rows grouped by what they insert. *)
Definition collect_insertions (h : loc → SeqRecord) (aln : alignment) (coords : list coord)
  : list (dict (list string)) :=
  fold_left (fun insertions '(idx, insertion_coord) =>
    fold_left (fun insertions l =>
      let s := inserted insertion_coord (h l) in
      if decide (String.length s = 0%nat) then insertions
      else alter (fun d => dd_append d s (name (h l))) idx insertions)
      aln insertions)
    (enumerate coords) (map (fun _ => []) coords).

Definition summary_line (ic : coord) : string :=
  pretty (Z.of_nat (run_stop ic) - Z.of_nat (run_start ic)) +:+ "bp insertion at ref position "
  +:+ pretty (run_ref ic + 1).

Definition header_cell (ic : coord) : string :=
  "insertion: " +:+ pretty (Z.of_nat (run_stop ic) - Z.of_nat (run_start ic))
  +:+ "bp @ ref pos " +:+ pretty (run_ref ic + 1).

Definition artifact_warning : string :=
  tab +:+ "WARNING: this insertion was caused due to 'N's or '?'s in provided sequences".

(** The table of the report: per strain, its inserted string in each run. *)
Definition build_strain_data (n : nat) (insertions : list (dict (list string)))
  : dict (list string) :=
  fold_left (fun strain_data '(idx, i_data) =>
    fold_left (fun strain_data '(insertion_seq, strains) =>
      fold_left (fun strain_data strain => dd_set_cell n strain_data strain idx insertion_seq)
        strains strain_data)
      i_data strain_data)
    (enumerate insertions) [].

Definition analyse_insertions (aln : alignment) (ungapped : list bool) (insertion_csv : string)
  : M unit :=
  let insertion_coords := scan_runs ungapped in
  insertions <- gets (fun h => collect_insertions h aln insertion_coords) ;;
  for_each (zip insertion_coords insertions) (fun '(insertion_coord, data) =>
    print (summary_line insertion_coord) ;;;
    for_each data (fun '(k, v) => print (tab +:+ k +:+ ": " +:+ join ", " v)) ;;;
    if decide (length data = 0%nat) then print artifact_warning else pure tt) ;;;
  let header := "strain" :: map header_cell insertion_coords in
  let strain_data := build_strain_data (length insertion_coords) insertions in
  write_file insertion_csv
    (join "," header :: map (fun '(strain, cells) => strain +:+ "," +:+ join "," cells) strain_data).

(** ** [strip_non_reference] *)

(** The [dict] [{s.name: s for s in aln}]: a later row replaces an earlier
    one of the same name.  It is only looked up, never iterated. *)
Definition name_index (h : loc → SeqRecord) (aln : alignment) : gmap string loc :=
  fold_left (fun seqs s => <[name (h s) := s]> seqs) aln ∅.

(** [np.array(rec)]: the residues as an array of characters. *)
Definition to_array (rec : SeqRecord) : list ascii := list_ascii_of_string (seq rec).

(** [row[mask]] for a row as long as the mask: the entries of [row] at
    the true positions of [mask]. *)
Fixpoint select_columns (mask : list bool) (row : list ascii) : list ascii :=
  match mask, row with
  | b :: mask', c :: row' => if b then c :: select_columns mask' row' else select_columns mask' row'
  | _, _ => []
  end.

(** Every row is as long as the mask. *)
Definition rows_fit (h : loc → SeqRecord) (aln : alignment) (mask : list bool) : bool :=
  forallb (fun s => Nat.eqb (length (to_array (h s))) (length mask)) aln.

(** [np.array(aln)[:,mask]]: numpy makes a matrix of rows of one length
    only and takes a boolean index as long as the rows; on anything else
    it raises. *)
Definition index_columns (aln : alignment) (mask : list bool) : M (list (list ascii)) :=
  fun w => if rows_fit (heap w) aln mask
           then (Ret (map (fun s => select_columns mask (to_array (heap w s))) aln), w)
           else (Raise ArrayError, w).

(** The truth value of the [insertion_csv] argument: a path, or nothing. *)
Definition csv_path (insertion_csv : option string) : option string :=
  match insertion_csv with
  | Some (String c p) => Some (String c p)
  | _ => None
  end.

Definition not_found_msg (reference : string) : string :=
  "ERROR: reference " +:+ reference +:+ " not found in alignment".

Definition strip_non_reference (aln : alignment) (reference : string)
    (insertion_csv : option string) : M (list loc) :=
  seqs <- gets (fun h => name_index h aln) ;;
  match seqs !! reference with
  | Some ref =>
      ref_array <- gets (fun h => to_array (h ref)) ;;
      (if decide (gap ∈ ref_array) then pure tt
       else print ("No gaps in alignment to trim (with respect to the reference, "
                   +:+ reference +:+ ")")) ;;;
      let ungapped := map (fun c => negb (Ascii.eqb c gap)) ref_array in
      ref_aln_array <- index_columns aln ungapped ;;
      (match decide (false ∈ ungapped), csv_path insertion_csv with
       | left _, Some path => analyse_insertions aln ungapped path
       | _, _ => pure tt
       end) ;;;
      out_seqs <- for_fold (zip aln ref_aln_array) (fun out_seqs '(seq, seq_array) =>
        assign seq set_seq (string_of_list_ascii seq_array) ;;;
        pure (out_seqs ++ [seq])) [] ;;
      print ("Trimmed gaps in " +:+ reference +:+ " from the alignment") ;;;
      pure out_seqs
  | None => raise (AlignmentError (not_found_msg reference))
  end.

(** ** [prettify_alignment] *)

Definition rc_marker : string := "_R_".

Definition prettify_alignment (aln : alignment) : M unit :=
  for_each aln (fun seq_ =>
    rec <- get_record seq_ ;;
    assign seq_ set_seq (upper (seq rec)) ;;;
    rec <- get_record seq_ ;;
    (if startswith (id rec) rc_marker then
       assign seq_ set_id (drop_str 3 (id rec)) ;;;
       rec <- get_record seq_ ;;
       print ("Sequence " +:+ dquote +:+ id rec +:+ dquote
              +:+ " was reverse-complemented by the alignment program.")
     else pure tt) ;;;
    rec <- get_record seq_ ;;
    (if startswith (name rec) rc_marker then assign seq_ set_name (drop_str 3 (name rec))
     else pure tt) ;;;
    rec <- get_record seq_ ;;
    (if startswith (description rec) rc_marker
     then assign seq_ set_description (drop_str 3 (description rec))
     else pure tt)).

(** ** [check_duplicates] *)

(** The values the scan can be handed: the three kinds it accepts and
    some it does not. *)
Inductive pyvalue :=
  | PyNone
  | PyBool (b : bool)
  | PyStr (s : string)
  | PyDict (d : dict loc)
  | PyAlignment (aln : alignment)
  | PyList (l : list loc).

(** Python's truth value. *)
Definition truthy (v : pyvalue) : bool :=
  match v with
  | PyNone => false
  | PyBool b => b
  | PyStr s => negb (String.eqb s EmptyString)
  | PyDict d => negb (Nat.eqb (length d) 0)
  | PyAlignment aln => negb (Nat.eqb (length aln) 0)
  | PyList l => negb (Nat.eqb (length l) 0)
  end.

Definition duplicate_msg (name : string) : string :=
  "Duplicate strains of " +:+ dquote +:+ name +:+ dquote +:+ " detected".

(** The closure [add], with the set [names] it updates passed through. *)
Definition add (names : gset string) (name : string) : M (gset string) :=
  if decide (name ∈ names) then raise (AlignmentError (duplicate_msg name))
  else pure ({[name]} ∪ names).

Definition check_sample (names : gset string) (sample : pyvalue) : M (gset string) :=
  if negb (truthy sample) then pure names
  else match sample with
       | PyDict d => for_fold (map fst d) add names
       | PyAlignment aln =>
           for_fold aln (fun names s => rec <- get_record s ;; add names (name rec)) names
       | PyStr s => add names s
       | _ => raise TypeError
       end.

Definition check_duplicates (values : list pyvalue) : M unit :=
  for_fold values check_sample ∅ ;;; pure tt.

(** ** [prune_seqs_matching_alignment] *)

(** [d[k] = v]: replace in place, or add at the end. *)
Fixpoint dict_set {V} (d : dict V) (k : string) (v : V) : dict V :=
  match d with
  | [] => [(k, v)]
  | (k', v') :: rest =>
      if decide (k' = k) then (k', v) :: rest else (k', v') :: dict_set rest k v
  end.

(** [d.get(k)]. *)
Fixpoint dict_get {V} (d : dict V) (k : string) : option V :=
  match d with
  | [] => None
  | (k', v) :: rest => if decide (k' = k) then Some v else dict_get rest k
  end.

Definition prune_seqs_matching_alignment (seqs : dict loc) (aln : alignment) : M (dict loc) :=
  exclude_names <- gets (fun h => list_to_set (row_names h aln) : gset string) ;;
  for_fold seqs (fun ret '(name, seq) =>
    if decide (name ∈ exclude_names) then
      print ("Excluding " +:+ name +:+ " as it is already present in the alignment") ;;;
      pure ret
    else pure (dict_set ret name seq)) [].

(** ** Worked inputs *)

Definition rec_of (n s : string) : SeqRecord :=
  {| id := n; name := n; description := n; seq := s |}.

(** A store holding the rows [ref = AC-GT] and [x = ACTGT] at locations 0
    and 1 (every other location holds an empty record). *)
Definition basic_heap : loc → SeqRecord :=
  <[0%nat := rec_of "ref" "AC-GT"]> (<[1%nat := rec_of "x" "ACTGT"]>
    (fun _ => rec_of EmptyString EmptyString)).
Definition basic_world : world :=
  {| heap := basic_heap; stdout := []; fs := ∅; writable := fun _ => true |}.
Definition basic_aln : alignment := [0%nat; 1%nat].

(** ** Vocabulary of the statements *)

(** The number of true entries of a mask. *)
Fixpoint count_true (m : list bool) : nat :=
  match m with
  | [] => 0%nat
  | b :: m' => ((if b then 1 else 0) + count_true m')%nat
  end.

(** Column [j] lies in the span of the run [c]. *)
Definition in_run (j : nat) (c : coord) : Prop :=
  (run_start c ≤ j ∧ j < run_stop c)%nat.

(** [c] spans a maximal block of false entries of [m]: it is not empty,
    false throughout, and bordered on each side by a true entry or by an
    end of the mask. *)
Definition maximal_gap_span (m : list bool) (c : coord) : Prop :=
  (run_start c < run_stop c ∧ run_stop c ≤ length m)%nat ∧
  (∀ j, in_run j c → m !! j = Some false) ∧
  (run_start c = 0%nat ∨ m !! (run_start c - 1)%nat = Some true) ∧
  (run_stop c = length m ∨ m !! run_stop c = Some true).

(** A run the scan has closed while reading the prefix [p]. *)
Definition closed_run (p : list bool) (c : coord) : Prop :=
  (run_start c < run_stop c ∧ run_stop c < length p)%nat ∧
  (∀ j, in_run j c → p !! j = Some false) ∧
  (run_start c = 0%nat ∨ p !! (run_start c - 1)%nat = Some true) ∧
  p !! run_stop c = Some true ∧
  run_ref c = Z.of_nat (count_true (take (run_start c) p)) - 1.

(** Runs in column order, each ending before the next starts. *)
Definition ordered (coords : list coord) : Prop :=
  ∀ i1 i2 c1 c2, (i1 < i2)%nat → coords !! i1 = Some c1 → coords !! i2 = Some c2 →
    (run_stop c1 < run_start c2)%nat.

(** What holds of the scan's variables after it has read the prefix [p]. *)
Definition scan_inv (p : list bool) (st : scan_state) : Prop :=
  _ref_idx st = Z.of_nat (count_true p) - 1 ∧
  (∀ c, c ∈ insertion_coords st → closed_run p c) ∧
  ordered (insertion_coords st) ∧
  match _open_idx st with
  | Some o =>
      (o < length p)%nat ∧
      (∀ j, (o ≤ j ∧ j < length p)%nat → p !! j = Some false) ∧
      (o = 0%nat ∨ p !! (o - 1)%nat = Some true) ∧
      (∀ j, (j < o)%nat → p !! j = Some false → ∃ c, c ∈ insertion_coords st ∧ in_run j c)
  | None =>
      (p = [] ∨ p !! (length p - 1)%nat = Some true) ∧
      (∀ j, p !! j = Some false → ∃ c, c ∈ insertion_coords st ∧ in_run j c)
  end.

(** Printing the lines [ls], one after the other. *)
Definition emit (ls : list string) : M unit :=
  fun w => (Ret tt, {| heap := heap w; stdout := stdout w ++ ls; fs := fs w;
                       writable := writable w |}).

(** The lines of the textual summary for one run: its length and
    position, the rows behind each inserted string, and the warning when
    no row inserts anything. *)
Definition data_line (kv : string * list string) : string :=
  tab +:+ kv.1 +:+ ": " +:+ join ", " kv.2.
Definition summary_block (p : coord * dict (list string)) : list string :=
  summary_line p.1 :: map data_line p.2
  ++ (if decide (length p.2 = 0%nat) then [artifact_warning] else []).

(** The number of reference residues to the left of a run. *)
Definition residues_before (m : list bool) (c : coord) : Z :=
  Z.of_nat (count_true (take (run_start c) m)).

(** The reference column mask of a row: true at its non-gap residues. *)
Definition reference_mask (rec : SeqRecord) : list bool :=
  map (fun c => negb (Ascii.eqb c gap)) (to_array rec).

(** A residue string projected onto the true columns of a mask. *)
Definition project (mask : list bool) (s : string) : string :=
  string_of_list_ascii (select_columns mask (list_ascii_of_string s)).

(** The number of non-gap characters of a residue string. *)
Fixpoint count_non_gap (s : string) : nat :=
  match s with
  | EmptyString => 0%nat
  | String c s' => ((if decide (c = gap) then 0 else 1) + count_non_gap s')%nat
  end.

(** The invariant of [MultipleSeqAlignment]: all rows have one length. *)
Definition rectangular (h : loc → SeqRecord) (aln : alignment) : Prop :=
  ∀ l l', l ∈ aln → l' ∈ aln → String.length (seq (h l)) = String.length (seq (h l')).

(** The path given for the report, if one is given, can be opened for
    writing. *)
Definition report_writable (w : world) (insertion_csv : option string) : Prop :=
  ∀ path, csv_path insertion_csv = Some path → can_open w path = true.

(** Row [i] is the last row of the alignment named [n]: the row that the
    [dict] built from the alignment keeps under that name. *)
Definition last_row_named (h : loc → SeqRecord) (aln : alignment) (n : string)
    (i : nat) (l : loc) : Prop :=
  aln !! i = Some l ∧ name (h l) = n ∧
  ∀ j l', (i < j)%nat → aln !! j = Some l' → name (h l') ≠ n.

(** The heap the last loop leaves: each pass overwrites the residues of
    the row it visits. *)
Definition assign_rows (A : loc → string) (aln : alignment) (h : loc → SeqRecord)
  : loc → SeqRecord :=
  fold_left (fun h l => <[l := set_seq (h l) (A l)]> h) aln h.

(** What one visit of [prettify_alignment] makes of a field that may
    carry the reverse-complement marker. *)
Definition strip_marker (s : string) : string :=
  if startswith s rc_marker then drop_str 3 s else s.

(** What one visit of [prettify_alignment] makes of a record. *)
Definition pretty_record (r : SeqRecord) : SeqRecord :=
  {| id := strip_marker (id r); name := strip_marker (name r);
     description := strip_marker (description r); seq := upper (seq r) |}.

(** The field does not start with the marker twice over. *)
Definition marked_once (s : string) : Prop := startswith s "_R__R_" = false.

(** How many rows of the alignment are the record at [l]. *)
Fixpoint occurrences (l : loc) (aln : alignment) : nat :=
  match aln with
  | [] => 0%nat
  | l' :: rest => ((if decide (l' = l) then 1 else 0) + occurrences l rest)%nat
  end.

(** A store with a row whose fields carry the marker twice. *)
Definition marked_world : world :=
  {| heap := <[0%nat := rec_of "_R__R_a" "acgt"]> (fun _ => rec_of EmptyString EmptyString);
     stdout := []; fs := ∅; writable := fun _ => true |}.

(** A store with an ordinary reverse-complemented row. *)
Definition rc_world : world :=
  {| heap := <[0%nat := rec_of "_R_a" "acgt"]> (fun _ => rec_of EmptyString EmptyString);
     stdout := []; fs := ∅; writable := fun _ => true |}.

(** The kinds of argument [check_duplicates] takes names from. *)
Definition accepted (v : pyvalue) : bool :=
  match v with
  | PyStr _ | PyDict _ | PyAlignment _ => true
  | _ => false
  end.

(** The names a collection bears: the keys of a [dict], the names of the
    rows of an alignment, a string itself. *)
Definition names_of (h : loc → SeqRecord) (v : pyvalue) : list string :=
  match v with
  | PyStr s => [s]
  | PyDict d => map fst d
  | PyAlignment aln => row_names h aln
  | _ => []
  end.

(** The names the scan takes from an argument: none from a falsy one,
    which it skips (an empty collection, and the empty string too). *)
Definition scanned_names (h : loc → SeqRecord) (v : pyvalue) : list string :=
  if truthy v then names_of h v else [].

(** The call ends in the duplicate-strain error. *)
Definition raises_duplicate {A} (r : result A) : Prop :=
  ∃ n, r = Raise (AlignmentError (duplicate_msg n)).

(** Feeding names to [add] one by one: the first name already seen, or
    the set of names once all are in. *)
Fixpoint scan_names (names : gset string) (ns : list string) : string + gset string :=
  match ns with
  | [] => inr names
  | n :: rest => if decide (n ∈ names) then inl n else scan_names ({[n]} ∪ names) rest
  end.

(** What the scan does with one argument, as a function of the store. *)
Definition sample_step (names : gset string) (v : pyvalue) (h : loc → SeqRecord)
  : result (gset string) :=
  if truthy v then
    if accepted v then
      match scan_names names (names_of h v) with
      | inl n => Raise (AlignmentError (duplicate_msg n))
      | inr s => Ret s
      end
    else Raise TypeError
  else Ret names.

(** A store with two rows named [x]. *)
Definition twin_world : world :=
  {| heap := <[0%nat := rec_of "x" "ACGT"]> (<[1%nat := rec_of "x" "ACGA"]>
               (fun _ => rec_of EmptyString EmptyString));
     stdout := []; fs := ∅; writable := fun _ => true |}.

(** ** [remove_reference_sequence] *)

Definition remove_reference_sequence (seqs : list loc) (reference_name : string)
  : M (list loc) :=
  gets (fun h => filter (fun s => name (h s) ≠ reference_name) seqs).

(** ** [make_gaps_ambiguous] *)

(** [str.replace(old, new)] for one character replaced by one character. *)
Fixpoint replace_char (old new : ascii) (s : string) : string :=
  match s with
  | EmptyString => EmptyString
  | String c s' => String (if decide (c = old) then new else c) (replace_char old new s')
  end.

Definition make_gaps_ambiguous (aln : list loc) : M unit :=
  for_each aln (fun seq_ =>
    rec <- get_record seq_ ;;
    let _seq := replace_char gap "N"%char (seq rec) in
    assign seq_ set_seq _seq).

(** ** [check_arguments] *)

(** The fields of the command-line namespace that the checks read. *)
Record arguments := mkArguments {
  reference_name : option string;
  reference_sequence : option string;
  remove_reference : bool
}.

(** The truth value of an optional string argument. *)
Definition given (o : option string) : bool :=
  match o with
  | Some (String _ _) => true
  | _ => false
  end.

Definition both_references_msg : string :=
  "ERROR: You cannot provide both --reference-name and --reference-sequence".
Definition no_reference_msg : string :=
  "ERROR: You've asked to remove the reference but haven't specified one!".

Definition check_arguments (args : arguments) : M unit :=
  (if (given (reference_name args) && given (reference_sequence args))%bool
   then raise (AlignmentError both_references_msg) else pure tt) ;;;
  (if (remove_reference args
       && negb (given (reference_name args) || given (reference_sequence args)))%bool
   then raise (AlignmentError no_reference_msg) else pure tt).

(** ** [ensure_reference_strain_present] *)

(** The truth value of the existing alignment: [None], or an alignment,
    which is falsy when it has no row. *)
Definition truthy_alignment (a : option alignment) : bool :=
  match a with
  | Some (_ :: _) => true
  | _ => false
  end.

Definition not_in_alignment_msg (ref_name : string) : string :=
  "ERROR: Specified reference name " +:+ ref_name
  +:+ " (via --reference-name) is not in the supplied alignment.".
Definition not_in_sample_msg (ref_name : string) : string :=
  "ERROR: Specified reference name " +:+ ref_name
  +:+ " (via --reference-name) is not in the sequence sample.".

Definition ensure_reference_strain_present (ref_name : string)
    (existing_alignment : option alignment) (seqs : dict loc) : M unit :=
  if truthy_alignment existing_alignment then
    names <- gets (fun h =>
      list_to_set (row_names h (default [] existing_alignment)) : gset string) ;;
    if decide (ref_name ∉ names) then raise (AlignmentError (not_in_alignment_msg ref_name))
    else pure tt
  else
    if decide (ref_name ∉ map fst seqs) then raise (AlignmentError (not_in_sample_msg ref_name))
    else pure tt.

(** The existing alignment as [run] hands it to [check_duplicates]. *)
Definition py_alignment (a : option alignment) : pyvalue :=
  match a with
  | Some aln => PyAlignment aln
  | None => PyNone
  end.

(** ** [read_sequences] *)

(** How the iteration over [SeqIO.parse(fname, 'fasta')] can break off. *)
Inductive parse_failure :=
  | FileNotFoundError
  | ValueError (msg : string).

(** What the parser gives for a file: the records it yields, and the
    failure that ends the iteration if there is one. *)
Definition parse_result : Type := list loc * option parse_failure.

Definition newline : string := String "010"%char EmptyString.

Definition conflict_msg (n : string) : string :=
  "Detected duplicate input strains " +:+ dquote +:+ n +:+ dquote
  +:+ " but the sequences are different.".
Definition cannot_read_msg (fname : string) : string :=
  newline +:+ "Cannot read sequences -- make sure the file " +:+ fname
  +:+ " exists and contains sequences in fasta format".
Definition problem_reading_msg (fname error : string) : string :=
  newline +:+ "ERROR: Problem reading in " +:+ fname +:+ ": " +:+ error.

(** One pass of the inner loop. *)
Definition read_record (seqs : dict loc) (record : loc) : M (dict loc) :=
  rec <- get_record record ;;
  match dict_get seqs (name rec) with
  | Some old =>
      old_rec <- get_record old ;;
      if decide (seq rec ≠ seq old_rec) then raise (AlignmentError (conflict_msg (name rec)))
      else pure (dict_set seqs (name rec) record)
  | None => pure (dict_set seqs (name rec) record)
  end.

Definition read_sequences (parse : string → parse_result) (fnames : list string)
  : M (dict loc) :=
  for_fold fnames (fun seqs fname =>
    seqs <- for_fold (parse fname).1 read_record seqs ;;
    match (parse fname).2 with
    | None => pure seqs
    | Some FileNotFoundError => raise (AlignmentError (cannot_read_msg fname))
    | Some (ValueError error) => raise (AlignmentError (problem_reading_msg fname error))
    end) [].

(** ** Vocabulary of the further statements *)

(** The number of columns that the runs span, all together. *)
Definition span_total (coords : list coord) : nat :=
  sum_list_with (fun c => run_stop c - run_start c)%nat coords.

(** The columns of the run still open, if there is one, among the first
    [width] columns. *)
Definition open_span (st : scan_state) (width : nat) : nat :=
  match _open_idx st with
  | Some o => (width - o)%nat
  | None => 0%nat
  end.

(** One row taken into the grouping of a run: recorded under what it
    inserts, unless that is nothing. *)
Definition group_step (h : loc → SeqRecord) (c : coord) (d : dict (list string)) (l : loc)
  : dict (list string) :=
  let s := inserted c (h l) in
  if decide (String.length s = 0%nat) then d else dd_append d s (name (h l)).

(** The rows of an alignment grouped by what they insert in a run. *)
Definition group_rows (h : loc → SeqRecord) (aln : alignment) (c : coord)
  : dict (list string) :=
  fold_left (group_step h c) aln [].

(** The names of the rows that insert [s] in the run [c], in row order. *)
Definition contributors (h : loc → SeqRecord) (aln : alignment) (c : coord) (s : string)
  : list string :=
  map (fun l => name (h l)) (filter (fun l => inserted c (h l) = s) aln).

(** Where [strip_non_reference] writes its report: the path given, if
    the mask has a false entry and the path is not empty. *)
Definition report_due (mask : list bool) (insertion_csv : option string) : option string :=
  match decide (false ∈ mask), csv_path insertion_csv with
  | left _, Some path => Some path
  | _, _ => None
  end.

(** [str.isascii]: every character of the text is below 128.  On such
    text [upper] is [str.upper]; beyond it [str.upper] can change the
    length of a text, which [upper] never does. *)
Definition isascii (s : string) : bool :=
  forallb (fun c => Nat.ltb (nat_of_ascii c) 128) (list_ascii_of_string s).

(** The rows [ref = AC-GT] and [x = ACTGT] again, where no file can be
    opened for writing. *)
Definition locked_world : world :=
  {| heap := basic_heap; stdout := []; fs := ∅; writable := fun _ => false |}.

(** The lines of the report for the runs of a mask. *)
Definition report_lines (h : loc → SeqRecord) (aln : alignment) (mask : list bool)
  : list string :=
  let runs := scan_runs mask in
  join "," ("strain" :: map header_cell runs)
  :: map (fun '(strain, cells) => strain +:+ "," +:+ join "," cells)
       (build_strain_data (length runs) (collect_insertions h aln runs)).

(** The notes of [strip_non_reference]: the one it prints for a reference
    row without a gap, and the one it ends on. *)
Definition no_gaps_notice (reference : string) (rec : SeqRecord) : list string :=
  if decide (gap ∈ to_array rec) then []
  else ["No gaps in alignment to trim (with respect to the reference, " +:+ reference +:+ ")"].
Definition trimmed_notice (reference : string) : string :=
  "Trimmed gaps in " +:+ reference +:+ " from the alignment".

(** What one visit of [make_gaps_ambiguous] makes of a record. *)
Definition fill_record (r : SeqRecord) : SeqRecord :=
  set_seq r (replace_char gap "N"%char (seq r)).

(** A store with three aligned rows, one of them reverse-complemented. *)
Definition pipeline_world : world :=
  {| heap := <[0%nat := rec_of "ref" "ac-gt"]> (<[1%nat := rec_of "_R_x" "actg-"]>
               (<[2%nat := rec_of "y" "a--gt"]> (fun _ => rec_of EmptyString EmptyString)));
     stdout := []; fs := ∅; writable := fun _ => true |}.

(** All the names the scan takes from its arguments, in order. *)
Definition all_scanned (h : loc → SeqRecord) (values : list pyvalue) : list string :=
  concat (map (scanned_names h) values).

(** The argument is of a kind the scan takes, or is skipped as falsy. *)
Definition scannable (v : pyvalue) : Prop := truthy v = true → accepted v = true.

(** Records that bear one name hold one sequence. *)
Definition consistent (h : loc → SeqRecord) (records : list loc) : Prop :=
  ∀ l l', l ∈ records → l' ∈ records → name (h l) = name (h l') → seq (h l) = seq (h l').

(** All the records the parser yields for the files, in order. *)
Definition parsed (parse : string → parse_result) (fnames : list string) : list loc :=
  concat (map (fun fname => (parse fname).1) fnames).

(** What holds of [seqs] once the records [processed] have been read. *)
Definition read_inv (h : loc → SeqRecord) (processed : list loc) (seqs : dict loc) : Prop :=
  NoDup (map fst seqs) ∧
  (∀ k, dict_get seqs k = name_index h processed !! k) ∧
  consistent h processed.

(** A parser for two files: [a.fasta] yields the records at 0 and 1,
    [b.fasta] the record at 1 again, and any other file is missing. *)
Definition two_files (fname : string) : parse_result :=
  if decide (fname = "a.fasta") then ([0%nat; 1%nat], None)
  else if decide (fname = "b.fasta") then ([1%nat], None)
  else ([], Some FileNotFoundError).

(** The error of a file that cannot be read. *)
Definition failure_msg (fname : string) (failure : parse_failure) : string :=
  match failure with
  | FileNotFoundError => cannot_read_msg fname
  | ValueError error => problem_reading_msg fname error
  end.

(** ** The model at work *)

Section Examples.

Example scan_runs_inner :
  scan_runs [true; true; false; true; true] = [(2%nat, 3%nat, 1)].
Proof. reflexivity. Qed.

Example scan_runs_edges :
  scan_runs [false; false; true; false; true; true; false]
  = [(0%nat, 2%nat, -1); (3%nat, 4%nat, 0); (6%nat, 7%nat, 2)].
Proof. reflexivity. Qed.

(** Rows [ref = AC-GT] and [x = ACTGT] trimmed against [ref]: both rows
    become [ACGT], and the report has one run of 1bp at position 2, with
    [T] inserted by [x]. *)
Example strip_basic :
  let r := strip_non_reference basic_aln "ref" (Some "out.csv") basic_world in
  r.1 = Ret [0%nat; 1%nat] ∧
  seq (heap r.2 0%nat) = "ACGT" ∧ seq (heap r.2 1%nat) = "ACGT" ∧
  stdout r.2 = ["1bp insertion at ref position 2"; tab +:+ "T: x";
                "Trimmed gaps in ref from the alignment"] ∧
  fs r.2 !! "out.csv" = Some ["strain,insertion: 1bp @ ref pos 2"; "x,T"].
Proof. vm_compute. repeat split. Qed.

(** The same call where the report cannot be opened: the summary is
    printed, then the call raises, with no file written and no row
    trimmed. *)
Example strip_unwritable :
  let r := strip_non_reference basic_aln "ref" (Some "nodir/out.csv") locked_world in
  r.1 = Raise OSError ∧
  seq (heap r.2 0%nat) = "AC-GT" ∧ seq (heap r.2 1%nat) = "ACTGT" ∧
  stdout r.2 = ["1bp insertion at ref position 2"; tab +:+ "T: x"] ∧
  fs r.2 = ∅.
Proof. vm_compute. repeat split. Qed.

(** Without a path no report is due, and the rows are trimmed all the
    same. *)
Example strip_no_report :
  let r := strip_non_reference basic_aln "ref" None locked_world in
  r.1 = Ret [0%nat; 1%nat] ∧
  seq (heap r.2 0%nat) = "ACGT" ∧ seq (heap r.2 1%nat) = "ACGT" ∧ fs r.2 = ∅.
Proof. vm_compute. repeat split. Qed.

(** Rows of two lengths are refused at the indexing, before any row is
    trimmed. *)
Example strip_ragged :
  let r := strip_non_reference [0%nat; 2%nat] "ref" None basic_world in
  r.1 = Raise ArrayError ∧ seq (heap r.2 0%nat) = "AC-GT".
Proof. vm_compute. repeat split. Qed.

(** [analyse_insertions] cannot open the empty path. *)
Example analyse_insertions_empty_path :
  let r := analyse_insertions basic_aln [true; true; false; true; true] EmptyString
             basic_world in
  r.1 = Raise OSError ∧ fs r.2 = ∅ ∧
  stdout r.2 = ["1bp insertion at ref position 2"; tab +:+ "T: x"].
Proof. vm_compute. repeat split. Qed.

Example strip_missing :
  (strip_non_reference basic_aln "missing" None basic_world).1
  = Raise (AlignmentError "ERROR: reference missing not found in alignment").
Proof. reflexivity. Qed.

Example prettify_marked :
  let r := prettify_alignment [0%nat] rc_world in
  heap r.2 0%nat = rec_of "a" "ACGT" ∧
  stdout r.2 = ["Sequence " +:+ dquote +:+ "a" +:+ dquote
                +:+ " was reverse-complemented by the alignment program."].
Proof. vm_compute. repeat split. Qed.

Example check_duplicates_pipeline :
  (check_duplicates [PyBool false; PyStr "ref"; PyDict [("x", 1%nat)]] basic_world).1 = Ret tt.
Proof. reflexivity. Qed.

(** The empty string is falsy: the scan skips it, so it clashes with no
    key, not even an empty one. *)
Example check_duplicates_empty_string :
  (check_duplicates [PyStr EmptyString; PyDict [(EmptyString, 1%nat)]] basic_world).1 = Ret tt ∧
  (check_duplicates [PyDict [(EmptyString, 1%nat)]; PyStr EmptyString] basic_world).1 = Ret tt.
Proof. split; reflexivity. Qed.

End Examples.

(** ** The run scan *)

Section RunScan.

Lemma count_true_app (p q : list bool) :
  count_true (p ++ q) = (count_true p + count_true q)%nat.
Proof. induction p as [|b p IH]; simpl; [done | rewrite IH; lia]. Qed.

Lemma count_true_all_false (q : list bool) :
  (∀ j b, q !! j = Some b → b = false) → count_true q = 0%nat.
Proof.
  induction q as [|b q IH]; intros H; simpl; [done|].
  rewrite (H 0%nat b eq_refl). rewrite IH; [done|].
  intros j b' Hj. apply (H (S j)). exact Hj.
Qed.

(** A block of false entries at the end of [p] adds nothing to the count. *)
Lemma count_true_take_gap (p : list bool) (o : nat) :
  (∀ j, (o ≤ j ∧ j < length p)%nat → p !! j = Some false) →
  count_true (take o p) = count_true p.
Proof.
  intros H. rewrite <- (take_drop o p) at 2. rewrite count_true_app.
  rewrite (count_true_all_false (drop o p)); [lia|].
  intros j b Hj. rewrite lookup_drop in Hj.
  assert (o + j < length p)%nat by (eapply lookup_lt_Some; eauto).
  rewrite H in Hj by lia. congruence.
Qed.

Lemma closed_run_snoc (p : list bool) (b : bool) (c : coord) :
  closed_run p c → closed_run (p ++ [b]) c.
Proof.
  intros ((Hlt & Hlen) & Hgap & Hleft & Hstop & Href).
  unfold closed_run. split_and!.
  - lia.
  - rewrite length_app. simpl. lia.
  - intros j Hj. rewrite lookup_app_l; [by apply Hgap | unfold in_run in Hj; lia].
  - destruct Hleft as [?|Hl]; [by left | right].
    rewrite lookup_app_l; [done | lia].
  - rewrite lookup_app_l; [done | lia].
  - rewrite take_app_le by lia. exact Href.
Qed.

Lemma lookup_snoc_last (p : list bool) (b : bool) : (p ++ [b]) !! length p = Some b.
Proof. rewrite lookup_app_r by lia. by rewrite Nat.sub_diag. Qed.

Lemma lookup_snoc_inv (p : list bool) (b b' : bool) (j : nat) :
  (p ++ [b]) !! j = Some b' → (j < length p)%nat ∧ p !! j = Some b' ∨ j = length p ∧ b' = b.
Proof.
  intros H. destruct (decide (j < length p)%nat) as [Hlt|Hge].
  - left. rewrite lookup_app_l in H by done. done.
  - right. assert (j < length (p ++ [b]))%nat by (eapply lookup_lt_Some; eauto).
    rewrite length_app in *. simpl in *. assert (j = length p) by lia. subst j.
    rewrite lookup_snoc_last in H. split; congruence.
Qed.

Lemma ordered_snoc (coords : list coord) (c : coord) :
  ordered coords →
  (∀ c1, c1 ∈ coords → (run_stop c1 < run_start c)%nat) →
  ordered (coords ++ [c]).
Proof.
  intros Hord Hc i1 i2 c1 c2 Hlt H1 H2.
  assert (i2 < length (coords ++ [c]))%nat as Hi2 by (eapply lookup_lt_Some; eauto).
  rewrite length_app in Hi2. simpl in Hi2.
  rewrite lookup_app_l in H1 by lia.
  destruct (decide (i2 < length coords)%nat) as [Hin|Hout].
  - rewrite lookup_app_l in H2 by done. exact (Hord _ _ _ _ Hlt H1 H2).
  - rewrite lookup_app_r in H2 by lia.
    replace (i2 - length coords)%nat with 0%nat in H2 by lia. simpl in H2.
    injection H2 as <-. apply Hc. eapply list_elem_of_lookup_2; eauto.
Qed.

(** One pass of the loop keeps the invariant. *)
Lemma scan_body_inv (p : list bool) (b : bool) (st : scan_state) :
  scan_inv p st → scan_inv (p ++ [b]) (scan_body st (length p, b)).
Proof.
  destruct st as [coords open ref]. unfold scan_inv, scan_body. simpl.
  intros (Href & Hclosed & Hord & Hopen).
  assert (Hlen : length (p ++ [b]) = S (length p)) by (rewrite length_app; simpl; lia).
  destruct b, open as [o|]; simpl.
  - (* a reference column closes the open run *)
    destruct Hopen as (Ho & Hgap & Hleft & Hcov).
    assert (Hnew : closed_run (p ++ [true]) (o, length p, ref)).
    { unfold closed_run, in_run, run_start, run_stop, run_ref. simpl. split_and!.
      - lia.
      - lia.
      - intros j [Hj1 Hj2]. rewrite lookup_app_l by lia. apply Hgap. lia.
      - destruct Hleft as [?|Hl]; [by left | right]. rewrite lookup_app_l by lia. done.
      - apply lookup_snoc_last.
      - rewrite take_app_le by lia.
        rewrite (count_true_take_gap p o Hgap). exact Href. }
    split; [rewrite count_true_app; simpl; lia|].
    split.
    { intros c Hc. apply elem_of_app in Hc as [Hc|Hc].
      - by apply closed_run_snoc, Hclosed.
      - apply list_elem_of_singleton in Hc. by subst c. }
    split.
    { apply ordered_snoc; [done|]. intros c1 Hc1. simpl.
      destruct (Hclosed c1 Hc1) as ((_ & Hs) & _ & _ & Htrue & _).
      unfold run_start. simpl.
      destruct (decide (run_stop c1 < o)%nat) as [|Hge]; [done|].
      rewrite Hgap in Htrue by lia. discriminate. }
    split; [right; rewrite Hlen; simpl; rewrite Nat.sub_0_r; apply lookup_snoc_last|].
    intros j Hj. apply lookup_snoc_inv in Hj as [[Hjlt Hj]|[_ ?]]; [|discriminate].
    destruct (decide (j < o)%nat) as [Hjo|Hjo].
    + destruct (Hcov j Hjo Hj) as (c & Hc & Hin). exists c. split; [|done].
      apply elem_of_app. by left.
    + exists (o, length p, ref). split; [apply elem_of_app; right; apply list_elem_of_singleton; done|].
      unfold in_run, run_start, run_stop. simpl. lia.
  - (* a reference column outside any run *)
    destruct Hopen as (_ & Hcov).
    split; [rewrite count_true_app; simpl; lia|].
    split; [intros c Hc; by apply closed_run_snoc, Hclosed|].
    split; [done|].
    split; [right; rewrite Hlen; simpl; rewrite Nat.sub_0_r; apply lookup_snoc_last|].
    intros j Hj. apply lookup_snoc_inv in Hj as [[_ Hj]|[_ ?]]; [|discriminate].
    by apply Hcov.
  - (* a gap column inside the open run *)
    destruct Hopen as (Ho & Hgap & Hleft & Hcov).
    split; [rewrite count_true_app; simpl; lia|].
    split; [intros c Hc; by apply closed_run_snoc, Hclosed|].
    split; [done|].
    split; [lia|]. split.
    { intros j Hj. destruct (decide (j < length p)%nat).
      - rewrite lookup_app_l by done. apply Hgap. lia.
      - replace j with (length p) by lia. apply lookup_snoc_last. }
    split.
    { destruct Hleft as [?|Hl]; [by left | right]. rewrite lookup_app_l by lia. done. }
    intros j Hjo Hj. apply Hcov; [done|]. rewrite lookup_app_l in Hj by lia. done.
  - (* a gap column opens a run *)
    destruct Hopen as (Hlast & Hcov).
    split; [rewrite count_true_app; simpl; lia|].
    split; [intros c Hc; by apply closed_run_snoc, Hclosed|].
    split; [done|].
    split; [lia|]. split.
    { intros j Hj. replace j with (length p) by lia. apply lookup_snoc_last. }
    split.
    { destruct Hlast as [->|Hl]; [by left | right].
      rewrite lookup_app_l; [done|]. apply lookup_lt_Some in Hl. lia. }
    intros j Hjo Hj. apply Hcov. rewrite lookup_app_l in Hj by lia. done.
Qed.

(** The loop keeps the invariant from any column on. *)
Lemma scan_fold_inv (rest p : list bool) (st : scan_state) :
  scan_inv p st →
  scan_inv (p ++ rest)
    (fold_left scan_body (zip (List.seq (length p) (length rest)) rest) st).
Proof.
  revert p st. induction rest as [|b rest IH]; intros p st Hinv; simpl.
  - by rewrite app_nil_r.
  - replace (p ++ b :: rest) with ((p ++ [b]) ++ rest) by (by rewrite <- app_assoc).
    replace (S (length p)) with (length (p ++ [b])) by (rewrite length_app; simpl; lia).
    apply IH. by apply scan_body_inv.
Qed.

Lemma scan_inv_init : scan_inv [] (mkScan [] None (-1)).
Proof.
  unfold scan_inv. simpl. split; [done|]. split; [intros c Hc; by apply elem_of_nil in Hc|].
  split; [intros i1 i2 c1 c2 _ H; by rewrite lookup_nil in H|].
  split; [by left|]. intros j Hj. by rewrite lookup_nil in Hj.
Qed.

Lemma scan_inv_final (m : list bool) :
  scan_inv m (fold_left scan_body (enumerate m) (mkScan [] None (-1))).
Proof. apply (scan_fold_inv m [] _ scan_inv_init). Qed.

End RunScan.

Section RunScanResults.

Lemma closed_run_maximal (m : list bool) (c : coord) :
  closed_run m c → maximal_gap_span m c.
Proof.
  intros ((Hlt & Hlen) & Hgap & Hleft & Hstop & _).
  unfold maximal_gap_span. split_and!; [lia | lia | done | done | by right].
Qed.

(** What the scan returns, read off the invariant at the end of the mask. *)
Lemma scan_runs_spec (m : list bool) :
  (∀ c, c ∈ scan_runs m →
     maximal_gap_span m c ∧
     run_ref c = Z.of_nat (count_true (take (run_start c) m)) - 1) ∧
  ordered (scan_runs m) ∧
  (∀ j, m !! j = Some false → ∃ c, c ∈ scan_runs m ∧ in_run j c).
Proof.
  unfold scan_runs. pose proof (scan_inv_final m) as Hinv.
  destruct (fold_left scan_body (enumerate m) (mkScan [] None (-1))) as [coords open ref].
  unfold scan_inv in Hinv. simpl in *.
  destruct Hinv as (Href & Hclosed & Hord & Hopen).
  destruct open as [o|].
  - destruct Hopen as (Ho & Hgap & Hleft & Hcov).
    split_and!.
    + intros c Hc. apply elem_of_app in Hc as [Hc|Hc].
      * split; [by apply closed_run_maximal, Hclosed|]. by apply Hclosed.
      * apply list_elem_of_singleton in Hc. subst c.
        unfold maximal_gap_span, in_run, run_start, run_stop, run_ref. simpl.
        split; [split_and!; [lia | lia | intros j ?; apply Hgap; lia | done | by left]|].
        by rewrite (count_true_take_gap m o Hgap).
    + apply ordered_snoc; [done|]. intros c1 Hc1.
      destruct (Hclosed c1 Hc1) as ((_ & Hs) & _ & _ & Htrue & _).
      unfold run_start. simpl.
      destruct (decide (run_stop c1 < o)%nat) as [|Hge]; [done|].
      rewrite Hgap in Htrue by lia. discriminate.
    + intros j Hj. destruct (decide (j < o)%nat) as [Hjo|Hjo].
      * destruct (Hcov j Hjo Hj) as (c & Hc & Hin). exists c.
        split; [apply elem_of_app; by left | done].
      * exists (o, length m, ref).
        split; [apply elem_of_app; right; by apply list_elem_of_singleton|].
        apply lookup_lt_Some in Hj. unfold in_run, run_start, run_stop. simpl. lia.
  - destruct Hopen as (_ & Hcov). split_and!; [|done|done].
    intros c Hc. split; [by apply closed_run_maximal, Hclosed | by apply Hclosed].
Qed.

Lemma ordered_disjoint (coords : list coord) (i1 i2 j : nat) (c1 c2 : coord) :
  ordered coords → coords !! i1 = Some c1 → coords !! i2 = Some c2 →
  in_run j c1 → in_run j c2 → i1 = i2.
Proof.
  intros Hord H1 H2 [Ha Hb] [Hc Hd].
  destruct (Nat.lt_total i1 i2) as [Hlt|[?|Hlt]]; [|done|].
  - pose proof (Hord _ _ _ _ Hlt H1 H2). lia.
  - pose proof (Hord _ _ _ _ Hlt H2 H1). lia.
Qed.

(** C2: the runs found by the scan of [analyse_insertions] are the maximal
    blocks of false entries of the mask.  Each run is a non-empty span of
    false entries bordered by a true entry or an end of the mask; every
    column of the mask is a true entry or lies in a run, and never both;
    no column lies in two runs; and a mask ending in a false entry has its
    last run end at the width. *)
Theorem insertion_run_coverage (ungapped : list bool) :
  (∀ c, c ∈ scan_runs ungapped → maximal_gap_span ungapped c) ∧
  (∀ j, (j < length ungapped)%nat →
     ungapped !! j = Some true ∨ ∃ c, c ∈ scan_runs ungapped ∧ in_run j c) ∧
  (∀ j c, c ∈ scan_runs ungapped → in_run j c →
     (j < length ungapped)%nat ∧ ungapped !! j ≠ Some true) ∧
  (∀ i1 i2 c1 c2 j,
     scan_runs ungapped !! i1 = Some c1 → scan_runs ungapped !! i2 = Some c2 →
     in_run j c1 → in_run j c2 → i1 = i2) ∧
  (last ungapped = Some false →
     ∃ c, last (scan_runs ungapped) = Some c ∧ run_stop c = length ungapped).
Proof.
  destruct (scan_runs_spec ungapped) as (Hruns & Hord & Hcov).
  split_and!.
  - intros c Hc. by apply Hruns.
  - intros j Hj. destruct (lookup_lt_is_Some_2 ungapped j Hj) as [[|] Hb]; [by left | right].
    by apply Hcov.
  - intros j c Hc Hin. destruct (Hruns c Hc) as (((_ & Hlen) & Hgap & _) & _).
    split; [unfold in_run in Hin; lia|]. rewrite (Hgap j Hin). discriminate.
  - intros i1 i2 c1 c2 j H1 H2 Hin1 Hin2. by eapply ordered_disjoint.
  - intros Hlast. rewrite last_lookup in Hlast.
    assert (Hw : (0 < length ungapped)%nat).
    { apply lookup_lt_Some in Hlast. lia. }
    destruct (Hcov _ Hlast) as (c & Hc & Hs & He).
    destruct (Hruns c Hc) as (((_ & Hlen) & _) & _).
    exists c. split; [|lia].
    apply list_elem_of_lookup in Hc as [i Hi].
    rewrite last_lookup.
    destruct (decide (i = pred (length (scan_runs ungapped)))) as [<-|Hne]; [done|].
    exfalso. pose proof (lookup_lt_Some _ _ _ Hi) as Hilt.
    destruct (lookup_lt_is_Some_2 (scan_runs ungapped) (pred (length (scan_runs ungapped))))
      as [c' Hc']; [lia|].
    assert (Hii : (i < pred (length (scan_runs ungapped)))%nat) by lia.
    pose proof (Hord _ _ _ _ Hii Hi Hc') as Hlt.
    destruct (Hruns c' (list_elem_of_lookup_2 _ _ _ Hc')) as (((Hlt' & Hlen') & _) & _).
    lia.
Qed.

End RunScanResults.

(** ** What [analyse_insertions] prints and writes *)

Section Report.

Lemma world_eta (w : world) :
  {| heap := heap w; stdout := stdout w; fs := fs w; writable := writable w |} = w.
Proof. by destruct w. Qed.

Lemma emit_nil (w : world) : emit [] w = (Ret tt, w).
Proof. unfold emit. rewrite app_nil_r. by rewrite world_eta. Qed.

Lemma print_emit (line : string) (w : world) : print line w = emit [line] w.
Proof. done. Qed.

(** A loop whose passes each print some lines prints them all in turn. *)
Lemma for_each_emit {A} (l : list A) (body : A → M unit) (f : A → list string) :
  (∀ x w, body x w = emit (f x) w) →
  ∀ w, for_each l body w = emit (concat (map f l)) w.
Proof.
  intros Hbody. induction l as [|x l IH]; intros w; simpl.
  - by rewrite emit_nil.
  - unfold bind. rewrite Hbody. unfold emit at 1. rewrite IH.
    unfold emit. simpl. by rewrite app_assoc.
Qed.

Lemma summary_block_emit (p : coord * dict (list string)) (w : world) :
  (let '(insertion_coord, data) := p in
   print (summary_line insertion_coord) ;;;
   for_each data (fun '(k, v) => print (tab +:+ k +:+ ": " +:+ join ", " v)) ;;;
   if decide (length data = 0%nat) then print artifact_warning else pure tt) w
  = emit (summary_block p) w.
Proof.
  destruct p as [c data]. unfold summary_block. simpl.
  unfold bind at 1. rewrite print_emit. unfold emit at 1.
  unfold bind. rewrite (for_each_emit data _ (fun kv => [data_line kv])).
  2:{ intros [k v] w'. done. }
  unfold emit at 1. simpl.
  assert (Hlines : concat (map (fun kv => [data_line kv]) data) = map data_line data).
  { induction data as [|kv data' IH]; simpl; [done | by rewrite IH]. }
  rewrite Hlines.
  destruct (decide (length data = 0%nat)); unfold print, pure, emit; simpl;
    rewrite <- ?app_assoc; simpl; rewrite ?app_nil_r; done.
Qed.

(** The whole effect of [analyse_insertions]: it leaves the records
    alone and prints one block per run; then it writes the table under a
    header with one cell per run and returns, or, where the file cannot
    be opened, raises with no file written. *)
Lemma analyse_insertions_effect (aln : alignment) (ungapped : list bool)
    (insertion_csv : string) (w : world) :
  let runs := scan_runs ungapped in
  let insertions := collect_insertions (heap w) aln runs in
  let out := stdout w ++ concat (map summary_block (zip runs insertions)) in
  analyse_insertions aln ungapped insertion_csv w =
    if can_open w insertion_csv
    then (Ret tt,
          {| heap := heap w; stdout := out;
             fs := <[insertion_csv := report_lines (heap w) aln ungapped]> (fs w);
             writable := writable w |})
    else (Raise OSError,
          {| heap := heap w; stdout := out; fs := fs w; writable := writable w |}).
Proof.
  unfold analyse_insertions, bind, gets. simpl.
  rewrite (for_each_emit _ _ summary_block).
  2:{ intros p w'. apply summary_block_emit. }
  unfold emit, write_file, can_open. simpl. by destruct insertion_csv.
Qed.

Lemma fold_left_preserves {A B} (P : A → Prop) (f : A → B → A) (l : list B) (a : A) :
  (∀ a b, P a → P (f a b)) → P a → P (fold_left f l a).
Proof. intros Hf. revert a. induction l as [|b l IH]; simpl; auto. Qed.

Lemma collect_insertions_length (h : loc → SeqRecord) (aln : alignment) (coords : list coord) :
  length (collect_insertions h aln coords) = length coords.
Proof.
  unfold collect_insertions.
  apply (fold_left_preserves (fun ins => length ins = length coords)).
  - intros ins [idx c] Hlen.
    apply (fold_left_preserves (fun ins => length ins = length coords)); [|done].
    intros ins' l Hlen'. destruct (decide _); [done|]. by rewrite length_alter.
  - by rewrite length_map.
Qed.

End Report.

Section RunCoordinates.

Lemma summary_line_printed (runs : list coord) (insertions : list (dict (list string)))
    (c : coord) :
  length insertions = length runs → c ∈ runs →
  summary_line c ∈ concat (map summary_block (zip runs insertions)).
Proof.
  intros Hlen Hc. apply list_elem_of_lookup in Hc as [i Hi].
  destruct (lookup_lt_is_Some_2 insertions i) as [d Hd].
  { rewrite Hlen. eapply lookup_lt_Some; eauto. }
  apply list_elem_of_In, in_concat. exists (summary_block (c, d)). split.
  - apply in_map. apply list_elem_of_In. apply list_elem_of_lookup. exists i.
    rewrite lookup_zip_with. rewrite Hi. simpl. by rewrite Hd.
  - unfold summary_block. simpl. by left.
Qed.

(** A column lies in one maximal block of false entries only. *)
Lemma maximal_gap_span_unique (m : list bool) (c c' : coord) (j : nat) :
  maximal_gap_span m c → maximal_gap_span m c' → in_run j c → in_run j c' →
  run_start c = run_start c' ∧ run_stop c = run_stop c'.
Proof.
  intros ((Hlt & Hlen) & Hgap & Hleft & Hright) ((Hlt' & Hlen') & Hgap' & Hleft' & Hright')
    [Ha Hb] [Ha' Hb'].
  split.
  - destruct (Nat.lt_total (run_start c) (run_start c')) as [Hs|[Hs|Hs]]; [|done|].
    + destruct Hleft' as [H0|Htrue]; [lia|].
      rewrite Hgap in Htrue by (unfold in_run; lia). discriminate.
    + destruct Hleft as [H0|Htrue]; [lia|].
      rewrite Hgap' in Htrue by (unfold in_run; lia). discriminate.
  - destruct (Nat.lt_total (run_stop c) (run_stop c')) as [Hs|[Hs|Hs]]; [|done|].
    + destruct Hright as [Hend|Htrue]; [lia|].
      rewrite Hgap' in Htrue by (unfold in_run; lia). discriminate.
    + destruct Hright' as [Hend|Htrue]; [lia|].
      rewrite Hgap in Htrue by (unfold in_run; lia). discriminate.
Qed.

(** The runs of the scan are the maximal blocks of false entries, each
    with the number of true entries before it, less one. *)
Lemma scan_runs_elem (m : list bool) (c : coord) :
  c ∈ scan_runs m ↔ maximal_gap_span m c ∧ run_ref c = residues_before m c - 1.
Proof.
  destruct (scan_runs_spec m) as (Hruns & _ & Hcov). split; [by apply Hruns|].
  intros [Hmax Href].
  assert (Hin : in_run (run_start c) c).
  { destruct Hmax as ((Hlt & _) & _). unfold in_run. lia. }
  destruct Hmax as (Hspan & Hgap & Hborders).
  destruct (Hcov (run_start c) (Hgap _ Hin)) as (c' & Hc' & Hin').
  destruct (Hruns c' Hc') as (Hmax' & Href').
  destruct (maximal_gap_span_unique m c c' (run_start c)) as [Hstart Hstop];
    [done | done | done | done |].
  replace c with c'; [done|].
  destruct c as [[a b] r], c' as [[a' b'] r'].
  unfold residues_before, run_start, run_stop, run_ref in *. simpl in *. subst a' b'.
  f_equal. lia.
Qed.

(** C6: the runs of a mask are its maximal blocks of false entries, and
    the coordinate stored with each is the number of true mask entries
    before the run, minus one, so a run that starts at column 0 carries
    -1.  [analyse_insertions] prints for each run a summary line whose
    position is that coordinate plus one, and, where it can open the
    file, returns having written a header whose cells give each run's
    coordinate plus one; a leading run is thus reported at position 0. *)
Theorem insertion_run_coordinate (ungapped : list bool) (c : coord) :
  (c ∈ scan_runs ungapped
   ↔ maximal_gap_span ungapped c ∧ run_ref c = residues_before ungapped c - 1) ∧
  (c ∈ scan_runs ungapped → run_start c = 0%nat → run_ref c = -1) ∧
  (c ∈ scan_runs ungapped → ∀ aln insertion_csv w,
     let r := analyse_insertions aln ungapped insertion_csv w in
     (pretty (Z.of_nat (run_stop c) - Z.of_nat (run_start c))
        +:+ "bp insertion at ref position " +:+ pretty (run_ref c + 1)) ∈ stdout r.2 ∧
     (can_open w insertion_csv = true →
        r.1 = Ret tt ∧
        ∃ rows, fs r.2 !! insertion_csv =
          Some (join "," ("strain" ::
                   map (fun ic => "insertion: "
                          +:+ pretty (Z.of_nat (run_stop ic) - Z.of_nat (run_start ic))
                          +:+ "bp @ ref pos " +:+ pretty (run_ref ic + 1))
                       (scan_runs ungapped)) :: rows))) ∧
  (c ∈ scan_runs ungapped → run_start c = 0%nat →
     summary_line c = pretty (Z.of_nat (run_stop c)) +:+ "bp insertion at ref position 0" ∧
     header_cell c = "insertion: " +:+ pretty (Z.of_nat (run_stop c)) +:+ "bp @ ref pos 0").
Proof.
  assert (Hlead : c ∈ scan_runs ungapped → run_start c = 0%nat → run_ref c = -1).
  { intros Hc H0. apply scan_runs_elem in Hc as [_ Href].
    rewrite Href. unfold residues_before. rewrite H0. by rewrite take_0. }
  split_and!.
  - apply scan_runs_elem.
  - exact Hlead.
  - intros Hc aln insertion_csv w. rewrite analyse_insertions_effect.
    assert (Hline : summary_line c ∈
      stdout w ++ concat (map summary_block
        (zip (scan_runs ungapped) (collect_insertions (heap w) aln (scan_runs ungapped))))).
    { apply elem_of_app. right.
      apply summary_line_printed; [apply collect_insertions_length | done]. }
    destruct (can_open w insertion_csv); simpl.
    + split; [exact Hline|]. intros _. split; [done|].
      eexists. unfold report_lines. by rewrite lookup_insert_eq.
    + split; [exact Hline | done].
  - intros Hc H0. unfold summary_line, header_cell.
    rewrite (Hlead Hc H0), H0. simpl. by rewrite Z.sub_0_r.
Qed.

(** A mask with a leading, an inner and a trailing run; the leading one is
    the block of columns 0 and 1, and is reported at position 0. *)
Lemma insertion_run_coordinate_witness :
  (0%nat, 2%nat, -1) ∈ scan_runs [false; false; true; false; true; true; false] ∧
  summary_line (0%nat, 2%nat, -1) = "2bp insertion at ref position 0".
Proof.
  assert (H : (0%nat, 2%nat, -1) ∈ scan_runs [false; false; true; false; true; true; false]).
  { vm_compute. apply list_elem_of_here. }
  split; [exact H|].
  destruct (insertion_run_coordinate [false; false; true; false; true; true; false]
              (0%nat, 2%nat, -1)) as (_ & _ & _ & Hlead).
  destruct (Hlead H eq_refl) as [Hline _]. exact Hline.
Defined.

End RunCoordinates.

(** ** [strip_non_reference] *)

Section Trim.

Lemma name_index_snoc (h : loc → SeqRecord) (aln : alignment) (l : loc) :
  name_index h (aln ++ [l]) = <[name (h l) := l]> (name_index h aln).
Proof. unfold name_index. by rewrite fold_left_app. Qed.

(** The [dict] holds, under each name, the last row of that name. *)
Lemma name_index_lookup (h : loc → SeqRecord) (aln : alignment) (n : string) :
  match name_index h aln !! n with
  | Some l => ∃ i, last_row_named h aln n i l
  | None => n ∉ row_names h aln
  end.
Proof.
  induction aln as [|l aln IH] using rev_ind.
  - unfold name_index. simpl. rewrite lookup_empty. apply not_elem_of_nil.
  - rewrite name_index_snoc. destruct (decide (name (h l) = n)) as [Heq|Hne].
    + rewrite Heq, lookup_insert_eq. exists (length aln).
      unfold last_row_named. split_and!.
      * rewrite lookup_app_r by lia. by rewrite Nat.sub_diag.
      * done.
      * intros j l' Hj Hl'. apply lookup_lt_Some in Hl'.
        rewrite length_app in Hl'. simpl in Hl'. lia.
    + rewrite lookup_insert_ne by done.
      destruct (name_index h aln !! n) as [l0|].
      * destruct IH as (i & Hi & Hn & Hlast). exists i.
        unfold last_row_named. split_and!.
        -- rewrite lookup_app_l; [done | by eapply lookup_lt_Some].
        -- done.
        -- intros j l' Hj Hl'. destruct (decide (j < length aln)%nat).
           ++ rewrite lookup_app_l in Hl' by done. by eapply Hlast.
           ++ rewrite lookup_app_r in Hl' by lia.
              destruct (j - length aln)%nat; simpl in Hl'; [|by rewrite lookup_nil in Hl'].
              by injection Hl' as <-.
      * unfold row_names in *. rewrite map_app. simpl.
        intros Hin. apply elem_of_app in Hin as [Hin|Hin]; [done|].
        apply list_elem_of_singleton in Hin. congruence.
Qed.

Lemma last_row_named_in (h : loc → SeqRecord) (aln : alignment) (n : string)
    (i : nat) (l : loc) :
  last_row_named h aln n i l → n ∈ row_names h aln.
Proof.
  intros (Hi & Hn & _). unfold row_names. rewrite <- Hn.
  apply list_elem_of_In. apply (in_map (fun l => name (h l))).
  apply list_elem_of_In. by eapply list_elem_of_lookup_2.
Qed.

Lemma name_index_is_Some (h : loc → SeqRecord) (aln : alignment) (n : string) :
  is_Some (name_index h aln !! n) ↔ n ∈ row_names h aln.
Proof.
  pose proof (name_index_lookup h aln n) as H.
  destruct (name_index h aln !! n) as [l|].
  - split; [intros _ | by eauto]. destruct H as [i Hi]. by eapply last_row_named_in.
  - split; [by intros [? ?] | done].
Qed.

Lemma set_seq_set_seq (r : SeqRecord) (s t : string) : set_seq (set_seq r s) t = set_seq r t.
Proof. done. Qed.

Lemma assign_rows_lookup (A : loc → string) (aln : alignment) (h : loc → SeqRecord) (l : loc) :
  assign_rows A aln h l = if decide (l ∈ aln) then set_seq (h l) (A l) else h l.
Proof.
  revert h. induction aln as [|l0 aln IH]; intros h; simpl.
  - destruct (decide (l ∈ [])) as [Hin|]; [by apply elem_of_nil in Hin | done].
  - unfold assign_rows in *. simpl. rewrite IH.
    destruct (decide (l0 = l)) as [->|Hne].
    + rewrite fn_lookup_insert, set_seq_set_seq.
      rewrite (decide_True (P := l ∈ l :: aln)) by apply list_elem_of_here.
      by destruct (decide (l ∈ aln)).
    + rewrite fn_lookup_insert_ne by done.
      destruct (decide (l ∈ aln)) as [Hin|Hnin].
      * rewrite decide_True; [done | by apply list_elem_of_further].
      * rewrite decide_False; [done|]. intros [?|?]%elem_of_cons; congruence.
Qed.

(** The last loop of [strip_non_reference], run on the rows paired with
    their projected arrays. *)
Lemma strip_loop_effect (f : loc → list ascii) (aln : alignment) (out : list loc) (w : world) :
  for_fold (zip aln (map f aln))
    (fun out_seqs '(seq, seq_array) =>
       assign seq set_seq (string_of_list_ascii seq_array) ;;; pure (out_seqs ++ [seq]))
    out w
  = (Ret (out ++ aln),
     {| heap := assign_rows (fun l => string_of_list_ascii (f l)) aln (heap w);
        stdout := stdout w; fs := fs w; writable := writable w |}).
Proof.
  revert out w. induction aln as [|l aln IH]; intros out w; simpl.
  - unfold pure, assign_rows. simpl. by rewrite app_nil_r, world_eta.
  - unfold bind at 1. unfold bind at 1. unfold assign at 1. unfold pure at 1.
    rewrite IH. simpl. by rewrite <- app_assoc.
Qed.

Lemma length_string_of_list_ascii (l : list ascii) :
  String.length (string_of_list_ascii l) = length l.
Proof. induction l as [|c l IH]; simpl; [done | by rewrite IH]. Qed.

Lemma length_list_ascii_of_string (s : string) :
  length (list_ascii_of_string s) = String.length s.
Proof. induction s as [|c s IH]; simpl; [done | by rewrite IH]. Qed.

Lemma select_columns_length (mask : list bool) (row : list ascii) :
  length row = length mask → length (select_columns mask row) = count_true mask.
Proof.
  revert row. induction mask as [|b mask IH]; intros [|c row] Hlen; simpl in *; try done.
  destruct b; simpl; rewrite IH by lia; done.
Qed.

Lemma select_columns_all_true (mask : list bool) (row : list ascii) :
  false ∉ mask → length row = length mask → select_columns mask row = row.
Proof.
  revert row. induction mask as [|b mask IH]; intros [|c row] Hall Hlen; simpl in *; try done.
  destruct b.
  - rewrite IH; [done | | lia]. intros Hin. apply Hall. by apply list_elem_of_further.
  - exfalso. apply Hall. apply list_elem_of_here.
Qed.

Lemma length_reference_mask (rec : SeqRecord) :
  length (reference_mask rec) = String.length (seq rec).
Proof. unfold reference_mask, to_array. by rewrite length_map, length_list_ascii_of_string. Qed.

Lemma count_true_reference_mask (rec : SeqRecord) :
  count_true (reference_mask rec) = count_non_gap (seq rec).
Proof.
  unfold reference_mask, to_array. induction (seq rec) as [|c s IH]; simpl; [done|].
  rewrite IH. destruct (Ascii.eqb_spec c gap), (decide (c = gap)); simpl; congruence.
Qed.

(** The width of a projected row. *)
Lemma length_project (mask : list bool) (s : string) :
  String.length s = length mask → String.length (project mask s) = count_true mask.
Proof.
  intros Hlen. unfold project. rewrite length_string_of_list_ascii.
  apply select_columns_length. by rewrite length_list_ascii_of_string.
Qed.

Lemma project_all_true (mask : list bool) (s : string) :
  false ∉ mask → String.length s = length mask → project mask s = s.
Proof.
  intros Hall Hlen. unfold project. rewrite select_columns_all_true.
  - apply string_of_list_ascii_of_string.
  - done.
  - by rewrite length_list_ascii_of_string.
Qed.

Lemma reference_mask_false (rec : SeqRecord) :
  false ∈ reference_mask rec ↔ gap ∈ to_array rec.
Proof.
  unfold reference_mask. induction (to_array rec) as [|c arr IH]; simpl.
  - split; by intros ?%elem_of_nil.
  - rewrite !elem_of_cons, IH. destruct (Ascii.eqb_spec c gap) as [->|Hne]; simpl.
    + split; intros _; by left.
    + split; (intros [?|?]; [congruence | by right]).
Qed.

Lemma rows_fit_spec (h : loc → SeqRecord) (aln : alignment) (mask : list bool) :
  rows_fit h aln mask = true
  ↔ ∀ l, l ∈ aln → String.length (seq (h l)) = length mask.
Proof.
  unfold rows_fit. rewrite forallb_forall. split.
  - intros Hfit l Hl. apply list_elem_of_In, Hfit, Nat.eqb_eq in Hl.
    unfold to_array in Hl. by rewrite length_list_ascii_of_string in Hl.
  - intros Hfit l Hl. apply Nat.eqb_eq. unfold to_array.
    rewrite length_list_ascii_of_string. by apply Hfit, list_elem_of_In.
Qed.

(** The rows of an alignment are as long as the mask of any of them. *)
Lemma rectangular_rows_fit (h : loc → SeqRecord) (aln : alignment) (ref : loc) :
  ref ∈ aln → rectangular h aln ↔ rows_fit h aln (reference_mask (h ref)) = true.
Proof.
  intros Href. rewrite rows_fit_spec. split.
  - intros Hrect l Hl. rewrite length_reference_mask. by apply Hrect.
  - intros Hfit l l' Hl Hl'. by rewrite (Hfit l Hl), (Hfit l' Hl').
Qed.

Lemma last_row_named_elem (h : loc → SeqRecord) (aln : alignment) (n : string)
    (i : nat) (l : loc) :
  last_row_named h aln n i l → l ∈ aln.
Proof. intros (Hi & _). by eapply list_elem_of_lookup_2. Qed.

(** The dict keeps one row under a name: the last row so named. *)
Lemma last_row_named_index (h : loc → SeqRecord) (aln : alignment) (n : string)
    (i : nat) (l : loc) :
  last_row_named h aln n i l → name_index h aln !! n = Some l.
Proof.
  intros (Hi & Hn & Hlast). pose proof (name_index_lookup h aln n) as H.
  destruct (name_index h aln !! n) as [l0|].
  - destruct H as (i0 & Hi0 & Hn0 & Hlast0). f_equal.
    destruct (Nat.lt_total i i0) as [Hlt|[->|Hlt]].
    + by destruct (Hlast i0 l0 Hlt Hi0).
    + congruence.
    + by destruct (Hlast0 i l Hlt Hi).
  - exfalso. apply H. unfold row_names. rewrite <- Hn.
    apply list_elem_of_In. apply (in_map (fun l => name (h l))).
    apply list_elem_of_In. by eapply list_elem_of_lookup_2.
Qed.

(** The whole course of [strip_non_reference] once the reference is
    found.  Rows that do not fit the mask end it at the indexing; a report
    that is due and cannot be opened ends it after the summary is printed,
    with no row trimmed; otherwise it returns the rows it was given, as
    the same objects, each overwritten with its projection onto the mask
    of the reference row. *)
Lemma strip_non_reference_run (w : world) (aln : alignment) (reference : string)
    (insertion_csv : option string) (ref : loc) :
  name_index (heap w) aln !! reference = Some ref →
  let mask := reference_mask (heap w ref) in
  let notice := no_gaps_notice reference (heap w ref) in
  let blocks := concat (map summary_block
                  (zip (scan_runs mask) (collect_insertions (heap w) aln (scan_runs mask)))) in
  let trimmed := assign_rows (fun l => project mask (seq (heap w l))) aln (heap w) in
  strip_non_reference aln reference insertion_csv w =
    if rows_fit (heap w) aln mask then
      match report_due mask insertion_csv with
      | Some path =>
          if can_open w path then
            (Ret aln,
             {| heap := trimmed;
                stdout := stdout w ++ notice ++ blocks ++ [trimmed_notice reference];
                fs := <[path := report_lines (heap w) aln mask]> (fs w);
                writable := writable w |})
          else
            (Raise OSError,
             {| heap := heap w; stdout := stdout w ++ notice ++ blocks; fs := fs w;
                writable := writable w |})
      | None =>
          (Ret aln,
           {| heap := trimmed; stdout := stdout w ++ notice ++ [trimmed_notice reference];
              fs := fs w; writable := writable w |})
      end
    else
      (Raise ArrayError,
       {| heap := heap w; stdout := stdout w ++ notice; fs := fs w; writable := writable w |}).
Proof.
  intros Href mask notice blocks trimmed. unfold strip_non_reference.
  unfold bind at 1. unfold gets at 1. rewrite Href.
  unfold bind at 1. unfold gets at 1.
  change (map (fun c => negb (Ascii.eqb c gap)) (to_array (heap w ref))) with mask.
  unfold bind at 1.
  assert (Hnotice :
    (if decide (gap ∈ to_array (heap w ref)) then pure tt
     else print ("No gaps in alignment to trim (with respect to the reference, "
                 +:+ reference +:+ ")")) w
    = (Ret tt, {| heap := heap w; stdout := stdout w ++ notice; fs := fs w;
                  writable := writable w |})).
  { unfold notice, no_gaps_notice. destruct (decide _); unfold pure, print; simpl;
      [by rewrite app_nil_r, world_eta | done]. }
  rewrite Hnotice. clear Hnotice.
  unfold bind at 1. unfold index_columns at 1. simpl.
  destruct (rows_fit (heap w) aln mask); [|done].
  unfold bind at 1. unfold report_due.
  destruct (decide (false ∈ mask)) as [Hfalse|Hfalse], (csv_path insertion_csv) as [path|].
  1:{ rewrite analyse_insertions_effect. unfold can_open. simpl.
      fold (can_open w path). destruct (can_open w path); [|by rewrite <- app_assoc].
      unfold bind at 1.
      rewrite (strip_loop_effect (fun s => select_columns mask (to_array (heap w s)))).
      simpl. unfold bind, print, pure, trimmed_notice. simpl.
      by rewrite <- !app_assoc. }
  all: unfold pure at 1; unfold bind at 1;
    rewrite (strip_loop_effect (fun s => select_columns mask (to_array (heap w s))));
    simpl; unfold bind, print, pure, trimmed_notice; simpl; by rewrite <- !app_assoc.
Qed.

Lemma report_writable_due (w : world) (insertion_csv : option string) (mask : list bool)
    (path : string) :
  report_writable w insertion_csv → report_due mask insertion_csv = Some path →
  can_open w path = true.
Proof.
  intros Hopen Hdue. apply Hopen. unfold report_due in Hdue.
  destruct (decide _), (csv_path insertion_csv); congruence.
Qed.

(** Where the rows fit and the report can be written if it is due, the
    call returns. *)
Lemma strip_non_reference_found (w : world) (aln : alignment) (reference : string)
    (insertion_csv : option string) (ref : loc) :
  name_index (heap w) aln !! reference = Some ref →
  rows_fit (heap w) aln (reference_mask (heap w ref)) = true →
  (∀ path, report_due (reference_mask (heap w ref)) insertion_csv = Some path →
           can_open w path = true) →
  ∃ w', strip_non_reference aln reference insertion_csv w = (Ret aln, w') ∧
        heap w' = assign_rows (fun l => project (reference_mask (heap w ref)) (seq (heap w l)))
                    aln (heap w) ∧
        fs w' = match report_due (reference_mask (heap w ref)) insertion_csv with
                | Some path =>
                    <[path := report_lines (heap w) aln (reference_mask (heap w ref))]> (fs w)
                | None => fs w
                end ∧
        writable w' = writable w.
Proof.
  intros Href Hfit Hopen.
  rewrite (strip_non_reference_run w aln reference insertion_csv ref Href). rewrite Hfit.
  destruct (report_due (reference_mask (heap w ref)) insertion_csv) as [path|] eqn:Hdue.
  - rewrite (Hopen path eq_refl). eexists. by split_and!.
  - eexists. by split_and!.
Qed.

(** A call that has returned has found rows that fit and has trimmed
    them. *)
Lemma strip_non_reference_returned (w w' : world) (aln out : alignment) (reference : string)
    (insertion_csv : option string) (ref : loc) :
  name_index (heap w) aln !! reference = Some ref →
  strip_non_reference aln reference insertion_csv w = (Ret out, w') →
  out = aln ∧
  heap w' = assign_rows (fun l => project (reference_mask (heap w ref)) (seq (heap w l)))
              aln (heap w).
Proof.
  intros Href. rewrite (strip_non_reference_run w aln reference insertion_csv ref Href).
  destruct (rows_fit _ _ _); [|discriminate].
  destruct (report_due _ _) as [path|]; [destruct (can_open w path); [|discriminate]|];
    intros [= <- <-]; done.
Qed.

Lemma strip_non_reference_missing (w : world) (aln : alignment) (reference : string)
    (insertion_csv : option string) :
  name_index (heap w) aln !! reference = None →
  strip_non_reference aln reference insertion_csv w
  = (Raise (AlignmentError (not_found_msg reference)), w).
Proof.
  intros Href. unfold strip_non_reference, bind, gets. by rewrite Href.
Qed.

End Trim.

Section TrimClaims.

(** The row that bears the reference name for [strip_non_reference]. *)
Lemma reference_row (h : loc → SeqRecord) (aln : alignment) (reference : string) :
  reference ∈ row_names h aln →
  ∃ i ref, last_row_named h aln reference i ref ∧ name_index h aln !! reference = Some ref.
Proof.
  intros Hin. apply name_index_is_Some in Hin as [ref Href].
  pose proof (name_index_lookup h aln reference) as Hlast.
  rewrite Href in Hlast. destruct Hlast as [i Hi]. by exists i, ref.
Qed.

(** The width of the rows after a call that returns. *)
Lemma trimmed_width (w w' : world) (aln : alignment) (ref : loc) :
  rectangular (heap w) aln → ref ∈ aln →
  heap w' = assign_rows (fun l => project (reference_mask (heap w ref)) (seq (heap w l)))
              aln (heap w) →
  ∀ l, l ∈ aln → String.length (seq (heap w' l)) = count_non_gap (seq (heap w ref)).
Proof.
  intros Hrect Href Hheap l Hl. rewrite Hheap, assign_rows_lookup, decide_True by done. simpl.
  rewrite length_project.
  - apply count_true_reference_mask.
  - rewrite length_reference_mask. by apply Hrect.
Qed.

(** C1: for an alignment (all rows of one length) and a reference name
    borne by one of its rows, every row of the matrix that
    [strip_non_reference] returns is as long as the reference row (the
    last row of that name) has non-gap characters; and the call does
    return where the insertions report, if a path is given for it, can be
    opened for writing. *)
Theorem trim_width (w : world) (aln : alignment) (reference : string)
    (insertion_csv : option string) :
  rectangular (heap w) aln →
  reference ∈ row_names (heap w) aln →
  ∃ i ref,
    last_row_named (heap w) aln reference i ref ∧
    (∀ out w', strip_non_reference aln reference insertion_csv w = (Ret out, w') →
       length out = length aln ∧
       ∀ l, l ∈ out → String.length (seq (heap w' l)) = count_non_gap (seq (heap w ref))) ∧
    (report_writable w insertion_csv →
       ∃ out w', strip_non_reference aln reference insertion_csv w = (Ret out, w')).
Proof.
  intros Hrect Hin. destruct (reference_row _ _ _ Hin) as (i & ref & Hi & Href).
  pose proof (last_row_named_elem _ _ _ _ _ Hi) as Hrefin.
  exists i, ref. split_and!; [done | |].
  - intros out w' Hrun.
    destruct (strip_non_reference_returned w w' aln out reference insertion_csv ref Href Hrun)
      as [-> Hheap].
    split; [done|]. by apply trimmed_width.
  - intros Hopen.
    destruct (strip_non_reference_found w aln reference insertion_csv ref Href)
      as (w' & Hrun & _);
      [by apply rectangular_rows_fit | intros path; by apply report_writable_due |].
    by exists aln, w'.
Qed.

Lemma basic_rectangular : rectangular basic_heap basic_aln.
Proof.
  intros l l' Hl Hl'. unfold basic_aln in *.
  repeat (apply elem_of_cons in Hl as [->|Hl]); [| |by apply elem_of_nil in Hl];
    repeat (apply elem_of_cons in Hl' as [->|Hl']); try done;
    by apply elem_of_nil in Hl'.
Qed.

Lemma basic_ref_named : "ref" ∈ row_names basic_heap basic_aln.
Proof. vm_compute. apply list_elem_of_here. Qed.

Lemma basic_report_writable (insertion_csv : option string) :
  report_writable basic_world insertion_csv.
Proof.
  intros path Hpath. destruct insertion_csv as [[|c p]|]; simpl in Hpath; try discriminate.
  by injection Hpath as <-.
Qed.

(** The rows [ref = AC-GT] and [x = ACTGT], trimmed against [ref], with
    the report written to [out.csv]: both rows come back four wide. *)
Lemma trim_width_witness :
  rectangular (heap basic_world) basic_aln ∧
  "ref" ∈ row_names (heap basic_world) basic_aln ∧
  report_writable basic_world (Some "out.csv") ∧
  ∃ out w',
    strip_non_reference basic_aln "ref" (Some "out.csv") basic_world = (Ret out, w') ∧
    length out = 2%nat ∧
    ∀ l, l ∈ out → String.length (seq (heap w' l)) = 4%nat.
Proof.
  split; [exact basic_rectangular|]. split; [exact basic_ref_named|].
  split; [exact (basic_report_writable _)|].
  destruct (trim_width basic_world basic_aln "ref" (Some "out.csv")
              basic_rectangular basic_ref_named) as (i & ref & Hlast & Hwidth & Hreturns).
  destruct (Hreturns (basic_report_writable _)) as (out & w' & Hrun).
  exists out, w'. split; [exact Hrun|].
  destruct (Hwidth out w' Hrun) as [Hlen Hrows]. split; [exact Hlen|].
  intros l Hl. rewrite (Hrows l Hl).
  assert (Href : ref = 0%nat).
  { destruct Hlast as (Hi & Hname & _). unfold basic_aln in Hi.
    destruct i as [|[|i]]; simpl in Hi; [congruence | | done].
    injection Hi as <-. vm_compute in Hname. discriminate. }
  by rewrite Href.
Defined.

(** C7: [strip_non_reference] raises the reference-not-found error exactly
    when no row bears the reference name.  A call that returns has found
    the name among the rows; and when a row bears the name, the call
    returns where the rows are of one length and the insertions report, if
    a path is given for it, can be opened for writing. *)
Theorem reference_not_found_iff (w : world) (aln : alignment) (reference : string)
    (insertion_csv : option string) :
  ((strip_non_reference aln reference insertion_csv w).1
     = Raise (AlignmentError (not_found_msg reference))
   ↔ reference ∉ row_names (heap w) aln) ∧
  ((∃ out, (strip_non_reference aln reference insertion_csv w).1 = Ret out)
   → reference ∈ row_names (heap w) aln) ∧
  (reference ∈ row_names (heap w) aln →
   rectangular (heap w) aln → report_writable w insertion_csv →
   ∃ out, (strip_non_reference aln reference insertion_csv w).1 = Ret out).
Proof.
  pose proof (name_index_is_Some (heap w) aln reference) as Hsome.
  destruct (name_index (heap w) aln !! reference) as [ref|] eqn:Href.
  - assert (Hin : reference ∈ row_names (heap w) aln) by (apply Hsome; eauto).
    split_and!; [split; [|done] | done |].
    + rewrite (strip_non_reference_run w aln reference insertion_csv ref Href).
      destruct (rows_fit _ _ _); [|discriminate].
      destruct (report_due _ _) as [path|]; [destruct (can_open w path)|]; discriminate.
    + intros _ Hrect Hopen. destruct (reference_row _ _ _ Hin) as (i & ref' & Hi & Href').
      assert (ref' = ref) as -> by congruence.
      destruct (strip_non_reference_found w aln reference insertion_csv ref Href)
        as (w' & -> & _); [|intros path; by apply report_writable_due|by eauto].
      apply rectangular_rows_fit; [by eapply last_row_named_elem | done].
  - rewrite (strip_non_reference_missing w aln reference insertion_csv Href). simpl.
    assert (Hnin : reference ∉ row_names (heap w) aln).
    { intros Hin. apply Hsome in Hin as [? ?]. discriminate. }
    split_and!; [done | by intros [? ?] | done].
Qed.

(** C4, as the code has it: [strip_non_reference] works in place.  The
    list it returns holds the rows of the input themselves; after it
    returns, every row of the input holds its former residues projected
    onto the non-gap columns of the reference row, its id, name and
    description as before; no other record changes; and when the mask has
    no false entry every row holds the residues it held. *)
Theorem trim_in_place (w w' : world) (aln : alignment) (reference : string)
    (insertion_csv : option string) (out : list loc) :
  rectangular (heap w) aln →
  strip_non_reference aln reference insertion_csv w = (Ret out, w') →
  ∃ i ref,
    last_row_named (heap w) aln reference i ref ∧
    out = aln ∧
    (∀ l, l ∈ aln →
       seq (heap w' l) = project (reference_mask (heap w ref)) (seq (heap w l)) ∧
       id (heap w' l) = id (heap w l) ∧
       name (heap w' l) = name (heap w l) ∧
       description (heap w' l) = description (heap w l)) ∧
    (∀ l, l ∉ aln → heap w' l = heap w l) ∧
    (false ∉ reference_mask (heap w ref) → ∀ l, seq (heap w' l) = seq (heap w l)).
Proof.
  intros Hrect Hrun.
  pose proof (name_index_lookup (heap w) aln reference) as Hlast.
  destruct (name_index (heap w) aln !! reference) as [ref|] eqn:Href.
  2:{ rewrite (strip_non_reference_missing w aln reference insertion_csv Href) in Hrun.
      discriminate. }
  destruct Hlast as [i Hi].
  destruct (strip_non_reference_returned w w' aln out reference insertion_csv ref Href Hrun)
    as [-> Hheap].
  assert (Hrow : ∀ l, l ∈ aln →
    seq (heap w' l) = project (reference_mask (heap w ref)) (seq (heap w l))).
  { intros l Hl. by rewrite Hheap, assign_rows_lookup, decide_True. }
  exists i, ref. split_and!; [done | done | | |].
  - intros l Hl. split; [by apply Hrow|].
    by rewrite Hheap, assign_rows_lookup, decide_True.
  - intros l Hl. by rewrite Hheap, assign_rows_lookup, decide_False.
  - intros Hall l. destruct (decide (l ∈ aln)) as [Hl|Hl].
    + rewrite (Hrow l Hl). apply project_all_true; [done|].
      rewrite length_reference_mask. apply Hrect; [done|].
      destruct Hi as (Hi & _). by eapply list_elem_of_lookup_2.
    + by rewrite Hheap, assign_rows_lookup, decide_False.
Qed.

Lemma trim_in_place_witness :
  rectangular (heap basic_world) basic_aln ∧
  ∃ out w',
    strip_non_reference basic_aln "ref" None basic_world = (Ret out, w') ∧
    out = basic_aln ∧ seq (heap w' 1%nat) = "ACGT".
Proof.
  split; [exact basic_rectangular|].
  eexists _, _. split; [vm_compute; reflexivity|].
  destruct (trim_in_place basic_world _ basic_aln "ref" None _ basic_rectangular eq_refl)
    as (i & ref & _ & Hout & _).
  split; [exact Hout | reflexivity].
Defined.

(** C4 as stated fails: trimming [ref = AC-GT], [x = ACTGT] against [ref]
    leaves the input row [x] holding [ACGT], not the residues it held. *)
Lemma trim_preserves_input_counterexample :
  ∃ out w',
    strip_non_reference basic_aln "ref" None basic_world = (Ret out, w') ∧
    1%nat ∈ basic_aln ∧
    seq (heap basic_world 1%nat) = "ACTGT" ∧
    seq (heap w' 1%nat) = "ACGT" ∧
    seq (heap w' 1%nat) ≠ seq (heap basic_world 1%nat).
Proof.
  eexists _, _. split; [vm_compute; reflexivity|].
  split; [apply list_elem_of_further, list_elem_of_here|].
  split; [reflexivity|]. split; [reflexivity|]. discriminate.
Qed.

End TrimClaims.

(** ** [prettify_alignment] *)

Section Prettify.

Lemma upper_char_idem (c : ascii) : upper_char (upper_char c) = upper_char c.
Proof. destruct c as [[] [] [] [] [] [] [] []]; reflexivity. Qed.

Lemma upper_idem (s : string) : upper (upper s) = upper s.
Proof. induction s as [|c s IH]; simpl; [done | by rewrite upper_char_idem, IH]. Qed.

Lemma startswith_app (s p q : string) :
  startswith s (p +:+ q) = (startswith s p && startswith (drop_str (String.length p) s) q)%bool.
Proof.
  revert s. induction p as [|c p IH]; intros s; simpl.
  - by destruct q, s.
  - destruct s as [|d s]; simpl.
    + by destruct (p +:+ q).
    + destruct (decide (c = d)); [apply IH | done].
Qed.

Lemma strip_marker_idem (s : string) :
  marked_once s → strip_marker (strip_marker s) = strip_marker s.
Proof.
  unfold marked_once, strip_marker. intros Honce.
  change "_R__R_" with (rc_marker +:+ rc_marker) in Honce.
  rewrite startswith_app in Honce.
  change (String.length rc_marker) with 3%nat in Honce.
  destruct (startswith s rc_marker) eqn:Hs.
  - change (startswith (drop_str 3 s) rc_marker = false) in Honce. by rewrite Honce.
  - by rewrite Hs.
Qed.

Lemma pretty_record_idem (r : SeqRecord) :
  marked_once (id r) → marked_once (name r) → marked_once (description r) →
  pretty_record (pretty_record r) = pretty_record r.
Proof.
  intros Hi Hn Hd. unfold pretty_record. simpl.
  by rewrite !strip_marker_idem, upper_idem.
Qed.

(** One pass of the loop: the record visited is normalised, the others
    are left alone. *)
Lemma prettify_row_effect (l : loc) (w : world) :
  ∃ w', prettify_alignment [l] w = (Ret tt, w') ∧
        ∀ l', heap w' l' = if decide (l' = l) then pretty_record (heap w l) else heap w l'.
Proof.
  unfold prettify_alignment. simpl.
  unfold bind, get_record, assign, pure, print. simpl.
  rewrite !fn_lookup_insert. simpl.
  destruct (startswith (id (heap w l)) rc_marker) eqn:Hid; simpl;
    rewrite ?fn_lookup_insert; simpl;
    (destruct (startswith (name (heap w l)) rc_marker) eqn:Hname; simpl;
     rewrite ?fn_lookup_insert; simpl;
     (destruct (startswith (description (heap w l)) rc_marker) eqn:Hdesc; simpl;
      (eexists; split; [reflexivity|]; intros l'; simpl;
       destruct (decide (l' = l)) as [->|Hne];
       [ rewrite ?fn_lookup_insert; unfold pretty_record, strip_marker;
         rewrite Hid, Hname, Hdesc; reflexivity
       | rewrite ?fn_lookup_insert_ne by done; reflexivity ]))).
Qed.

Lemma prettify_cons (l : loc) (aln : alignment) (w : world) :
  prettify_alignment (l :: aln) w
  = match prettify_alignment [l] w with
    | (Ret _, w') => prettify_alignment aln w'
    | (Raise e, w') => (Raise e, w')
    end.
Proof.
  unfold prettify_alignment. simpl. unfold bind. simpl.
  repeat (destruct (startswith _ _); simpl); reflexivity.
Qed.

Lemma iter_pretty_succ (k : nat) (r : SeqRecord) :
  Nat.iter k pretty_record (pretty_record r) = Nat.iter (S k) pretty_record r.
Proof. induction k as [|k IH]; simpl; [done | by rewrite IH]. Qed.

(** The whole loop: a record is normalised once for every row that is it. *)
Lemma prettify_effect (aln : alignment) (w : world) :
  ∃ w', prettify_alignment aln w = (Ret tt, w') ∧
        ∀ l, heap w' l = Nat.iter (occurrences l aln) pretty_record (heap w l).
Proof.
  revert w. induction aln as [|l0 aln IH]; intros w.
  - exists w. split; [done|]. done.
  - rewrite prettify_cons.
    destruct (prettify_row_effect l0 w) as (w1 & -> & Hw1).
    destruct (IH w1) as (w' & -> & Hw'). exists w'. split; [done|].
    intros l. rewrite Hw', Hw1. simpl occurrences.
    destruct (decide (l = l0)) as [->|Hne].
    + rewrite decide_True by done. apply iter_pretty_succ.
    + rewrite decide_False by done. done.
Qed.

Lemma occurrences_pos (l : loc) (aln : alignment) :
  (0 < occurrences l aln)%nat → l ∈ aln.
Proof.
  induction aln as [|l0 aln IH]; simpl; [lia|].
  destruct (decide (l0 = l)) as [->|Hne]; intros H.
  - apply list_elem_of_here.
  - apply list_elem_of_further, IH. lia.
Qed.

Lemma iter_pretty_seq (k : nat) (r : SeqRecord) :
  seq (Nat.iter k pretty_record r) = if k is O then seq r else upper (seq r).
Proof.
  induction k as [|k IH]; [done|]. simpl. rewrite IH.
  destruct k; [done | apply upper_idem].
Qed.

Lemma iter_pretty_idem (k : nat) (r : SeqRecord) :
  pretty_record (pretty_record r) = pretty_record r →
  Nat.iter k pretty_record r = if k is O then r else pretty_record r.
Proof.
  intros Hidem. induction k as [|k IH]; [done|]. simpl. rewrite IH.
  destruct k; [done | exact Hidem].
Qed.

(** C8, as the code has it: a second run of [prettify_alignment] changes
    no residues, whatever the alignment; it changes no id, name or
    description either when no such field of a row starts with the marker
    twice over.  (Every visit strips one leading marker, so a field that
    starts with two loses the second one on the second run.) *)
Theorem prettify_twice (w : world) (aln : alignment) :
  ∃ w1 w2,
    prettify_alignment aln w = (Ret tt, w1) ∧
    prettify_alignment aln w1 = (Ret tt, w2) ∧
    (∀ l, seq (heap w2 l) = seq (heap w1 l)) ∧
    ((∀ l, l ∈ aln → marked_once (id (heap w l)) ∧ marked_once (name (heap w l)) ∧
                      marked_once (description (heap w l))) →
     ∀ l, heap w2 l = heap w1 l).
Proof.
  destruct (prettify_effect aln w) as (w1 & Hrun1 & Hw1).
  destruct (prettify_effect aln w1) as (w2 & Hrun2 & Hw2).
  exists w1, w2. split_and!; [done | done | |].
  - intros l. rewrite Hw2, iter_pretty_seq, Hw1, iter_pretty_seq.
    destruct (occurrences l aln); [done | apply upper_idem].
  - intros Honce l. rewrite Hw2, Hw1.
    destruct (occurrences l aln) as [|k] eqn:Hk; [done|].
    assert (Hl : l ∈ aln) by (apply occurrences_pos; lia).
    destruct (Honce l Hl) as (Hi & Hn & Hd).
    pose proof (pretty_record_idem _ Hi Hn Hd) as Hidem.
    rewrite (iter_pretty_idem (S k) (heap w l) Hidem).
    rewrite (iter_pretty_idem (S k) (pretty_record (heap w l))) by (by rewrite Hidem).
    exact Hidem.
Qed.

(** A reverse-complemented row [_R_a]: the second run finds it as the
    first left it. *)
Lemma prettify_twice_witness :
  (∀ l, l ∈ [0%nat] → marked_once (id (heap rc_world l)) ∧ marked_once (name (heap rc_world l)) ∧
                       marked_once (description (heap rc_world l))) ∧
  ∃ w1 w2,
    prettify_alignment [0%nat] rc_world = (Ret tt, w1) ∧
    prettify_alignment [0%nat] w1 = (Ret tt, w2) ∧
    heap w2 0%nat = heap w1 0%nat ∧
    heap w1 0%nat = rec_of "a" "ACGT".
Proof.
  assert (Honce : ∀ l, l ∈ [0%nat] →
    marked_once (id (heap rc_world l)) ∧ marked_once (name (heap rc_world l)) ∧
    marked_once (description (heap rc_world l))).
  { intros l Hl. apply list_elem_of_singleton in Hl as ->. by vm_compute. }
  split; [exact Honce|].
  destruct (prettify_twice rc_world [0%nat]) as (w1 & w2 & Hrun1 & Hrun2 & _ & Hsame).
  exists w1, w2. split_and!; [done | done | by apply Hsame |].
  vm_compute in Hrun1. injection Hrun1 as <-. reflexivity.
Defined.

(** C8 as stated fails: a row whose id is [_R__R_a] has id [_R_a] after
    one run and id [a] after two. *)
Lemma prettify_idempotent_counterexample :
  ∃ w1 w2,
    prettify_alignment [0%nat] marked_world = (Ret tt, w1) ∧
    prettify_alignment [0%nat] w1 = (Ret tt, w2) ∧
    id (heap w1 0%nat) = "_R_a" ∧
    id (heap w2 0%nat) = "a" ∧
    id (heap w2 0%nat) ≠ id (heap w1 0%nat).
Proof.
  eexists _, _. split; [vm_compute; reflexivity|].
  split; [vm_compute; reflexivity|].
  split; [reflexivity|]. split; [reflexivity|]. discriminate.
Qed.

End Prettify.

(** ** [check_duplicates] *)

Section Duplicates.

Lemma add_all_run (ns : list string) (names : gset string) (w : world) :
  for_fold ns add names w
  = (match scan_names names ns with
     | inl n => Raise (AlignmentError (duplicate_msg n))
     | inr s => Ret s
     end, w).
Proof.
  revert names. induction ns as [|n ns IH]; intros names; simpl; [done|].
  unfold bind, add. destruct (decide (n ∈ names)); simpl; [done | apply IH].
Qed.

Lemma add_rows_run (aln : alignment) (names : gset string) (w : world) :
  for_fold aln (fun names s => rec <- get_record s ;; add names (name rec)) names w
  = for_fold (row_names (heap w) aln) add names w.
Proof.
  revert names. induction aln as [|l aln IH]; intros names; simpl; [done|].
  unfold bind, get_record, add. simpl.
  destruct (decide (name (heap w l) ∈ names)); simpl; [done | apply IH].
Qed.

(** The scan of one argument never touches the world. *)
Lemma check_sample_run (names : gset string) (v : pyvalue) (w : world) :
  check_sample names v w = (sample_step names v (heap w), w).
Proof.
  unfold check_sample, sample_step.
  destruct (truthy v) eqn:Ht; simpl; [|done].
  destruct v; simpl; try done.
  - unfold add. simpl. by destruct (decide (s ∈ names)).
  - apply add_all_run.
  - rewrite add_rows_run. apply add_all_run.
Qed.

Lemma scan_names_spec (ns : list string) (names : gset string) :
  match scan_names names ns with
  | inl n => n ∈ ns ∧ (NoDup ns → n ∈ names)
  | inr s => NoDup ns ∧ (∀ m, m ∈ ns → m ∉ names) ∧ ∀ m, m ∈ s ↔ m ∈ ns ∨ m ∈ names
  end.
Proof.
  revert names. induction ns as [|n ns IH]; intros names; simpl.
  - split_and!; [constructor | by intros m ?%elem_of_nil |].
    intros m. split; [by right | intros [?%elem_of_nil|?]; done].
  - destruct (decide (n ∈ names)) as [Hin|Hnin].
    + split; [apply list_elem_of_here | done].
    + specialize (IH ({[n]} ∪ names)).
      destruct (scan_names ({[n]} ∪ names) ns) as [m|s].
      * destruct IH as [Hm Hseen]. split; [by apply list_elem_of_further|].
        intros [Hn Hnd]%NoDup_cons.
        apply Hseen in Hnd as [->%elem_of_singleton|?]%elem_of_union; done.
      * destruct IH as (Hnd & Hfresh & Hs). split_and!.
        -- apply NoDup_cons. split; [|done]. intros Hin.
           apply (Hfresh n Hin). apply elem_of_union. left. by apply elem_of_singleton.
        -- intros m [->|Hm]%elem_of_cons; [done|]. intros Hin.
           apply (Hfresh m Hm). apply elem_of_union. by right.
        -- intros m. rewrite Hs, elem_of_union, elem_of_singleton, elem_of_cons. tauto.
Qed.

Lemma names_of_not_accepted (h : loc → SeqRecord) (v : pyvalue) :
  accepted v = false → names_of h v = [].
Proof. by destruct v. Qed.

(** One argument ends the scan with the duplicate error exactly when one
    of its names has been seen, if its own names are distinct. *)
Lemma sample_step_duplicate (names : gset string) (v : pyvalue) (h : loc → SeqRecord) :
  NoDup (names_of h v) →
  raises_duplicate (sample_step names v h) ↔ ∃ n, n ∈ scanned_names h v ∧ n ∈ names.
Proof.
  intros Hnd. unfold sample_step, scanned_names, raises_duplicate.
  destruct (truthy v).
  2:{ split; [by intros [? ?] | by intros (? & ?%elem_of_nil & _)]. }
  destruct (accepted v) eqn:Hacc.
  2:{ rewrite names_of_not_accepted by done.
      split; [by intros [? ?] | by intros (? & ?%elem_of_nil & _)]. }
  pose proof (scan_names_spec (names_of h v) names) as Hspec.
  destruct (scan_names names (names_of h v)) as [n|s].
  - destruct Hspec as [Hn Hseen]. split; [intros _ | by eauto].
    exists n. split; [done | by apply Hseen].
  - destruct Hspec as (_ & Hfresh & _). split; [by intros [? ?]|].
    intros (n & Hn & Hin). by destruct (Hfresh n Hn).
Qed.

Lemma sample_step_names (names s : gset string) (v : pyvalue) (h : loc → SeqRecord) :
  sample_step names v h = Ret s → ∀ m, m ∈ s ↔ m ∈ scanned_names h v ∨ m ∈ names.
Proof.
  unfold sample_step, scanned_names. destruct (truthy v).
  2:{ intros [= <-] m. split; [by right | intros [?%elem_of_nil|?]; done]. }
  destruct (accepted v); [|done].
  pose proof (scan_names_spec (names_of h v) names) as Hspec.
  destruct (scan_names names (names_of h v)) as [n|s']; [done|].
  intros [= <-]. by destruct Hspec as (_ & _ & Hs).
Qed.

(** The two ways the scan of an argument can fail. *)
Lemma sample_step_raise (names : gset string) (v : pyvalue) (h : loc → SeqRecord) (e : exn) :
  sample_step names v h = Raise e →
  e = TypeError ∧ scanned_names h v = [] ∨ raises_duplicate (sample_step names v h).
Proof.
  unfold sample_step, scanned_names, raises_duplicate. destruct (truthy v); [|done].
  destruct (accepted v) eqn:Hacc.
  - destruct (scan_names names (names_of h v)) as [n|s]; [|done].
    intros _. right. by exists n.
  - intros [= <-]. left. by rewrite names_of_not_accepted.
Qed.

(** The scan of two arguments. *)
Lemma check_duplicates_pair (A B : pyvalue) (w : world) :
  (check_duplicates [A; B] w).1
  = match sample_step ∅ A (heap w) with
    | Ret s => match sample_step s B (heap w) with
               | Ret _ => Ret tt
               | Raise e => Raise e
               end
    | Raise e => Raise e
    end.
Proof.
  unfold check_duplicates. simpl. unfold bind. rewrite check_sample_run.
  destruct (sample_step ∅ A (heap w)) as [s|e]; [|done].
  rewrite check_sample_run. by destruct (sample_step s B (heap w)).
Qed.

Lemma raises_duplicate_retype {A B} (e : exn) :
  raises_duplicate (@Raise A e) ↔ raises_duplicate (@Raise B e).
Proof. split; intros [n [= ->]]; by exists n. Qed.

Lemma check_duplicates_pair_shared (A B : pyvalue) (w : world) :
  NoDup (names_of (heap w) A) → NoDup (names_of (heap w) B) →
  raises_duplicate (check_duplicates [A; B] w).1
  ↔ ∃ n, n ∈ scanned_names (heap w) A ∧ n ∈ scanned_names (heap w) B.
Proof.
  intros HA HB. rewrite check_duplicates_pair.
  pose proof (sample_step_duplicate ∅ A (heap w) HA) as HdupA.
  destruct (sample_step ∅ A (heap w)) as [s|e] eqn:HstepA.
  - pose proof (sample_step_names _ _ _ _ HstepA) as Hs.
    pose proof (sample_step_duplicate s B (heap w) HB) as HdupB.
    assert (Hshared : (∃ n, n ∈ scanned_names (heap w) B ∧ n ∈ s)
                      ↔ ∃ n, n ∈ scanned_names (heap w) A ∧ n ∈ scanned_names (heap w) B).
    { split; intros (n & H1 & H2); exists n.
      - apply Hs in H2 as [?|?]; [done | set_solver].
      - split; [done|]. apply Hs. by left. }
    rewrite <- Hshared, <- HdupB.
    destruct (sample_step s B (heap w)) as [s'|e'].
    + split; by intros [? ?].
    + apply raises_duplicate_retype.
  - destruct (sample_step_raise _ _ _ _ HstepA) as [[-> Hnone]|Hdup].
    + rewrite Hnone. split; [by intros [? ?] | by intros (? & ?%elem_of_nil & _)].
    + rewrite HstepA in Hdup. apply HdupA in Hdup as (n & _ & Hn). set_solver.
Qed.

(** C5: for two collections whose own names are distinct, the scan of
    (A, B) ends in the duplicate-strain error exactly when the scan of
    (B, A) does, which is exactly when A and B have a name in common (a
    falsy argument is skipped and brings no name). *)
Theorem check_duplicates_symmetric (w : world) (A B : pyvalue) :
  NoDup (names_of (heap w) A) → NoDup (names_of (heap w) B) →
  (raises_duplicate (check_duplicates [A; B] w).1
   ↔ raises_duplicate (check_duplicates [B; A] w).1) ∧
  (raises_duplicate (check_duplicates [A; B] w).1
   ↔ ∃ n, n ∈ scanned_names (heap w) A ∧ n ∈ scanned_names (heap w) B).
Proof.
  intros HA HB. split; [|by apply check_duplicates_pair_shared].
  rewrite (check_duplicates_pair_shared A B w HA HB).
  rewrite (check_duplicates_pair_shared B A w HB HA).
  split; intros (n & H1 & H2); by exists n.
Qed.

(** The alignment of [ref] and [x] against a [dict] holding [x]: the scan
    fails in either order. *)
Lemma check_duplicates_symmetric_witness :
  NoDup (names_of (heap basic_world) (PyAlignment basic_aln)) ∧
  NoDup (names_of (heap basic_world) (PyDict [("x", 1%nat)])) ∧
  raises_duplicate (check_duplicates [PyAlignment basic_aln; PyDict [("x", 1%nat)]] basic_world).1 ∧
  raises_duplicate (check_duplicates [PyDict [("x", 1%nat)]; PyAlignment basic_aln] basic_world).1.
Proof.
  assert (HA : NoDup (names_of (heap basic_world) (PyAlignment basic_aln))).
  { vm_compute. apply NoDup_cons. split; [|apply NoDup_singleton].
    intros Hin. apply list_elem_of_singleton in Hin. discriminate. }
  assert (HB : NoDup (names_of (heap basic_world) (PyDict [("x", 1%nat)]))).
  { vm_compute. apply NoDup_singleton. }
  assert (Hab : raises_duplicate
    (check_duplicates [PyAlignment basic_aln; PyDict [("x", 1%nat)]] basic_world).1).
  { exists "x". vm_compute. reflexivity. }
  split_and!; [done | done | done |].
  destruct (check_duplicates_symmetric basic_world _ _ HA HB) as [[Hsym _] _].
  by apply Hsym.
Defined.

Lemma for_fold_app {A S} (pre rest : list A) (body : S → A → M S) (s : S) (w : world) :
  for_fold (pre ++ rest) body s w
  = match for_fold pre body s w with
    | (Ret s', w') => for_fold rest body s' w'
    | (Raise e, w') => (Raise e, w')
    end.
Proof.
  revert s w. induction pre as [|x pre IH]; intros s w; simpl; [done|].
  unfold bind. destruct (body s x w) as [[s'|e] w']; [apply IH | done].
Qed.

(** C9: when the scan comes to a truthy argument that is neither a
    [dict], nor an alignment, nor a string, it raises [TypeError], which is
    not an [AlignmentError], whatever the names before and after it. *)
Theorem check_duplicates_type_error (w : world) (pre post : list pyvalue) (v : pyvalue) :
  (check_duplicates pre w).1 = Ret tt →
  truthy v = true → accepted v = false →
  (check_duplicates (pre ++ v :: post) w).1 = Raise TypeError ∧
  ∀ msg, (check_duplicates (pre ++ v :: post) w).1 ≠ Raise (AlignmentError msg).
Proof.
  intros Hpre Ht Hacc.
  assert (Hrun : (check_duplicates (pre ++ v :: post) w).1 = Raise TypeError).
  { unfold check_duplicates, bind in *. rewrite for_fold_app.
    destruct (for_fold pre check_sample ∅ w) as [[s|e] w']; [|done].
    simpl. unfold bind. rewrite check_sample_run. unfold sample_step.
    by rewrite Ht, Hacc. }
  split; [done|]. intros msg. by rewrite Hrun.
Qed.

(** A list of records handed over after a name. *)
Lemma check_duplicates_type_error_witness :
  (check_duplicates [PyStr "ref"] basic_world).1 = Ret tt ∧
  truthy (PyList [0%nat]) = true ∧ accepted (PyList [0%nat]) = false ∧
  (check_duplicates ([PyStr "ref"] ++ PyList [0%nat] :: [PyStr "ref"]) basic_world).1
  = Raise TypeError.
Proof.
  split_and!; [reflexivity | reflexivity | reflexivity |].
  apply (check_duplicates_type_error basic_world [PyStr "ref"] [PyStr "ref"] (PyList [0%nat]));
    reflexivity.
Defined.

Lemma lookup_map {A B} (f : A → B) (l : list A) (i : nat) :
  map f l !! i = f <$> l !! i.
Proof. revert i. induction l as [|x l IH]; intros [|i]; simpl; done. Qed.

(** C10: an alignment passed alone, two of whose rows have one name, makes
    [check_duplicates] raise the duplicate-strain error for a name of the
    alignment. *)
Theorem check_duplicates_within_alignment (w : world) (aln : alignment)
    (i j : nat) (li lj : loc) :
  (i < j)%nat → aln !! i = Some li → aln !! j = Some lj →
  name (heap w li) = name (heap w lj) →
  ∃ n, n ∈ row_names (heap w) aln ∧
       (check_duplicates [PyAlignment aln] w).1 = Raise (AlignmentError (duplicate_msg n)).
Proof.
  intros Hij Hi Hj Hname.
  assert (Hdup : ¬ NoDup (row_names (heap w) aln)).
  { intros Hnd. unfold row_names in Hnd.
    assert (i = j); [|lia].
    apply (NoDup_lookup _ i j (name (heap w li)) Hnd).
    - by rewrite lookup_map, Hi.
    - by rewrite lookup_map, Hj, Hname. }
  unfold check_duplicates. simpl. unfold bind. rewrite check_sample_run.
  unfold sample_step.
  assert (Ht : truthy (PyAlignment aln) = true).
  { destruct aln; [by rewrite lookup_nil in Hi | done]. }
  rewrite Ht. simpl accepted. cbv iota. simpl names_of.
  pose proof (scan_names_spec (row_names (heap w) aln) ∅) as Hspec.
  destruct (scan_names ∅ (row_names (heap w) aln)) as [n|s].
  - exists n. by destruct Hspec.
  - by destruct Hspec as (Hnd & _).
Qed.

(** Two rows, both named [x]. *)
Lemma check_duplicates_within_alignment_witness :
  (0 < 1)%nat ∧
  name (heap twin_world 0%nat) = name (heap twin_world 1%nat) ∧
  ∃ n, n ∈ row_names (heap twin_world) [0%nat; 1%nat] ∧
       (check_duplicates [PyAlignment [0%nat; 1%nat]] twin_world).1
       = Raise (AlignmentError (duplicate_msg n)).
Proof.
  split; [lia|]. split; [reflexivity|].
  apply (check_duplicates_within_alignment twin_world [0%nat; 1%nat] 0 1 0%nat 1%nat);
    [lia | reflexivity | reflexivity | reflexivity].
Defined.

End Duplicates.

(** ** [prune_seqs_matching_alignment] *)

Section Prune.

Lemma dict_set_fresh {V} (d : dict V) (k : string) (v : V) :
  k ∉ map fst d → dict_set d k v = d ++ [(k, v)].
Proof.
  induction d as [|[k' v'] d IH]; simpl; intros Hk; [done|].
  destruct (decide (k' = k)) as [->|Hne].
  - exfalso. apply Hk. apply list_elem_of_here.
  - rewrite IH; [done|]. intros Hin. apply Hk. by apply list_elem_of_further.
Qed.

(** The loop of the function, for any set of names to exclude: it never
    fails, prints a note per excluded entry and touches no record. *)
Lemma prune_loop_run (exclude_names : gset string) (seqs ret : dict loc) (w : world) :
  ∃ notes,
    for_fold seqs (fun ret '(name, seq) =>
      if decide (name ∈ exclude_names) then
        print ("Excluding " +:+ name +:+ " as it is already present in the alignment") ;;;
        pure ret
      else pure (dict_set ret name seq)) ret w
    = (Ret (fold_left (fun ret '(name, seq) =>
              if decide (name ∈ exclude_names) then ret else dict_set ret name seq) seqs ret),
       {| heap := heap w; stdout := stdout w ++ notes; fs := fs w;
          writable := writable w |}).
Proof.
  revert ret w. induction seqs as [|[n l] seqs IH]; intros ret w; simpl.
  - exists []. unfold pure. by rewrite app_nil_r, world_eta.
  - unfold bind at 1. destruct (decide (n ∈ exclude_names)).
    + unfold bind at 1. unfold print at 1. unfold pure at 1.
      destruct (IH ret {| heap := heap w;
                          stdout := stdout w ++ ["Excluding " +:+ n
                            +:+ " as it is already present in the alignment"];
                          fs := fs w; writable := writable w |}) as [notes ->].
      simpl. eexists. by rewrite <- app_assoc.
    + unfold pure at 1. destruct (IH (dict_set ret n l) w) as [notes ->]. by eexists.
Qed.

(** With distinct keys, each entry kept goes to the end of the result. *)
Lemma prune_fold_filter (exclude_names : gset string) (seqs ret : dict loc) :
  NoDup (map fst seqs) → (∀ k, k ∈ map fst seqs → k ∉ map fst ret) →
  fold_left (fun ret '(name, seq) =>
    if decide (name ∈ exclude_names) then ret else dict_set ret name seq) seqs ret
  = ret ++ filter (fun kv => kv.1 ∉ exclude_names) seqs.
Proof.
  revert ret. induction seqs as [|[n l] seqs IH]; intros ret Hnd Hfresh; simpl.
  - by rewrite app_nil_r.
  - apply NoDup_cons in Hnd as [Hn Hnd].
    destruct (decide (n ∈ exclude_names)) as [Hex|Hex].
    + rewrite filter_cons_False by (simpl; tauto).
      apply IH; [done|]. intros k Hk. apply Hfresh. by apply list_elem_of_further.
    + rewrite filter_cons_True by done.
      rewrite dict_set_fresh by (apply Hfresh, list_elem_of_here).
      rewrite IH; [by rewrite <- app_assoc | done |].
      intros k Hk. rewrite map_app. simpl. intros [Hin|Hin]%elem_of_app.
      * apply (Hfresh k); [by apply list_elem_of_further | done].
      * apply list_elem_of_singleton in Hin as ->. done.
Qed.

Lemma dict_get_filter {V} (P : string → Prop) `{∀ k, Decision (P k)} (d : dict V) (k : string) :
  dict_get (filter (fun kv => P kv.1) d) k = if decide (P k) then dict_get d k else None.
Proof.
  induction d as [|[k' v] d IH]; simpl.
  - by destruct (decide (P k)).
  - destruct (decide (P k')) as [Hk'|Hk'].
    + rewrite filter_cons_True by done. simpl.
      destruct (decide (k' = k)) as [->|Hne]; [by rewrite decide_True | done].
    + rewrite filter_cons_False by done. rewrite IH.
      destruct (decide (P k)) as [Hk|Hk]; [|done].
      destruct (decide (k' = k)) as [->|Hne]; done.
Qed.

(** C3: [prune_seqs_matching_alignment] returns the entries of the
    candidates whose key is not the name of a row of the alignment, in
    their order and bound to the records they were bound to; it changes
    no record, of the alignment or of the candidates. *)
Theorem prune_is_set_difference (w : world) (seqs : dict loc) (aln : alignment) :
  NoDup (map fst seqs) →
  ∃ ret w',
    prune_seqs_matching_alignment seqs aln w = (Ret ret, w') ∧
    ret = filter (fun kv => kv.1 ∉ row_names (heap w) aln) seqs ∧
    (∀ name, dict_get ret name
             = if decide (name ∈ row_names (heap w) aln) then None else dict_get seqs name) ∧
    heap w' = heap w.
Proof.
  intros Hnd. unfold prune_seqs_matching_alignment. unfold bind at 1. unfold gets.
  cbv beta iota.
  set (exclude_names := list_to_set (row_names (heap w) aln) : gset string).
  destruct (prune_loop_run exclude_names seqs [] w) as [notes ->].
  rewrite prune_fold_filter; [|done|]. 2:{ intros k _. apply not_elem_of_nil. }
  simpl.
  assert (Hfilter : filter (fun kv : string * loc => kv.1 ∉ exclude_names) seqs
                    = filter (fun kv => kv.1 ∉ row_names (heap w) aln) seqs).
  { apply list_filter_iff. intros [k l]. simpl. unfold exclude_names.
    by rewrite elem_of_list_to_set. }
  rewrite Hfilter. eexists _, _. split_and!; [done | done | | done].
  intros name'.
  pose proof (dict_get_filter (fun k => k ∉ row_names (heap w) aln) seqs name') as Hget.
  simpl in Hget. rewrite Hget.
  destruct (decide (name' ∈ row_names (heap w) aln)).
  - by rewrite decide_False by tauto.
  - by rewrite decide_True.
Qed.

(** Candidates [x] and [y] against the alignment of [ref] and [x]: only
    [y] is kept. *)
Lemma prune_is_set_difference_witness :
  NoDup (map fst [("x", 1%nat); ("y", 5%nat)]) ∧
  ∃ ret w',
    prune_seqs_matching_alignment [("x", 1%nat); ("y", 5%nat)] basic_aln basic_world
    = (Ret ret, w') ∧
    ret = [("y", 5%nat)] ∧ heap w' = heap basic_world.
Proof.
  assert (Hnd : NoDup (map fst [("x", 1%nat); ("y", 5%nat)])).
  { simpl. apply NoDup_cons. split; [|apply NoDup_singleton].
    intros Hin. apply list_elem_of_singleton in Hin. discriminate. }
  split; [exact Hnd|].
  destruct (prune_is_set_difference basic_world _ basic_aln Hnd)
    as (ret & w' & Hrun & Hret & _ & Hheap).
  exists ret, w'. split_and!; [done | | done].
  rewrite Hret. vm_compute. reflexivity.
Defined.

End Prune.

(** * Further properties *)

(** ** More on the run scan *)

Section RunScanMore.

(** X1: no run at all exactly when the mask has no false entry. *)
Theorem scan_runs_nil_iff (ungapped : list bool) :
  scan_runs ungapped = [] ↔ false ∉ ungapped.
Proof.
  destruct (scan_runs_spec ungapped) as (Hruns & _ & Hcov). split.
  - intros Hnil Hin. apply list_elem_of_lookup in Hin as [j Hj].
    destruct (Hcov j Hj) as (c & Hc & _). rewrite Hnil in Hc. by apply elem_of_nil in Hc.
  - intros Hall. destruct (scan_runs ungapped) as [|c runs] eqn:Heq; [done|].
    exfalso. destruct (Hruns c) as (((Hlt & _) & Hgap & _) & _); [apply list_elem_of_here|].
    apply Hall. apply list_elem_of_lookup. exists (run_start c). apply Hgap.
    unfold in_run. lia.
Qed.

(** The columns counted by the scan so far: closed runs, open run and
    reference columns make up the prefix read. *)
Lemma scan_body_total (p : list bool) (b : bool) (st : scan_state) :
  scan_inv p st →
  (span_total (insertion_coords st) + open_span st (length p) + count_true p = length p)%nat →
  let st' := scan_body st (length p, b) in
  (span_total (insertion_coords st') + open_span st' (length (p ++ [b]))
   + count_true (p ++ [b]) = length (p ++ [b]))%nat.
Proof.
  destruct st as [coords open ref]. unfold scan_inv, scan_body, open_span, span_total.
  simpl. intros (_ & _ & _ & Hopen) Hsum.
  rewrite count_true_app, length_app. simpl.
  destruct b, open as [o|]; simpl.
  - destruct Hopen as (Ho & _). rewrite sum_list_with_app. simpl.
    unfold run_stop, run_start in *. simpl in *. lia.
  - lia.
  - destruct Hopen as (Ho & _). lia.
  - lia.
Qed.

Lemma scan_fold_total (rest p : list bool) (st : scan_state) :
  scan_inv p st →
  (span_total (insertion_coords st) + open_span st (length p) + count_true p = length p)%nat →
  let st' := fold_left scan_body (zip (List.seq (length p) (length rest)) rest) st in
  (span_total (insertion_coords st') + open_span st' (length (p ++ rest))
   + count_true (p ++ rest) = length (p ++ rest))%nat.
Proof.
  revert p st. induction rest as [|b rest IH]; intros p st Hinv Hsum; simpl.
  - by rewrite app_nil_r.
  - replace (p ++ b :: rest) with ((p ++ [b]) ++ rest) by (by rewrite <- app_assoc).
    replace (S (length p)) with (length (p ++ [b])) by (rewrite length_app; simpl; lia).
    apply IH; [by apply scan_body_inv | by apply scan_body_total].
Qed.

(** X2: the runs and the reference columns share out the width: the lengths
    of the runs and the number of true entries add up to the length of
    the mask. *)
Theorem scan_runs_total (ungapped : list bool) :
  (span_total (scan_runs ungapped) + count_true ungapped = length ungapped)%nat.
Proof.
  pose proof (scan_fold_total ungapped [] (mkScan [] None (-1)) scan_inv_init eq_refl) as Hsum.
  pose proof (scan_inv_final ungapped) as Hinv.
  unfold scan_runs. unfold enumerate in *. simpl in Hsum.
  destruct (fold_left scan_body (zip (List.seq 0 (length ungapped)) ungapped)
              (mkScan [] None (-1))) as [coords open ref].
  unfold open_span, span_total in *. simpl in *.
  destruct open as [o|]; [|lia].
  rewrite sum_list_with_app. simpl. unfold run_stop, run_start in *. simpl in *. lia.
Qed.

Lemma count_true_take_le (m : list bool) (a b : nat) :
  (a ≤ b)%nat → (count_true (take a m) ≤ count_true (take b m))%nat.
Proof.
  intros Hab. rewrite <- (take_drop a (take b m)), count_true_app, take_take.
  replace (a `min` b)%nat with a by lia. lia.
Qed.

Lemma count_true_take_S (m : list bool) (i : nat) :
  m !! i = Some true → count_true (take (S i) m) = S (count_true (take i m)).
Proof.
  intros Hi. rewrite (take_S_r _ _ _ Hi), count_true_app. simpl. lia.
Qed.

(** X3: the runs come left to right, a reference column at least between one
    and the next, and their coordinates go strictly up: no two runs are
    reported at one position. *)
Theorem scan_runs_increasing (ungapped : list bool) (i1 i2 : nat) (c1 c2 : coord) :
  (i1 < i2)%nat →
  scan_runs ungapped !! i1 = Some c1 → scan_runs ungapped !! i2 = Some c2 →
  (run_stop c1 < run_start c2)%nat ∧ run_ref c1 < run_ref c2.
Proof.
  intros Hlt H1 H2. destruct (scan_runs_spec ungapped) as (Hruns & Hord & _).
  pose proof (Hord _ _ _ _ Hlt H1 H2) as Hsep. split; [done|].
  destruct (Hruns c1 (list_elem_of_lookup_2 _ _ _ H1))
    as (((Hlt1 & Hlen1) & _ & _ & Hstop1) & Href1).
  destruct (Hruns c2 (list_elem_of_lookup_2 _ _ _ H2))
    as (((Hlt2 & Hlen2) & _) & Href2).
  destruct Hstop1 as [Hend|Htrue]; [lia|].
  pose proof (count_true_take_S _ _ Htrue) as Hstep.
  pose proof (count_true_take_le ungapped (run_start c1) (run_stop c1)) as Hle1.
  pose proof (count_true_take_le ungapped (S (run_stop c1)) (run_start c2)) as Hle2.
  rewrite Href1, Href2. lia.
Qed.

Lemma scan_runs_increasing_witness :
  (0 < 1)%nat ∧
  scan_runs [false; true; true; false] !! 0%nat = Some (0%nat, 1%nat, -1) ∧
  scan_runs [false; true; true; false] !! 1%nat = Some (3%nat, 4%nat, 1) ∧
  (run_stop (0%nat, 1%nat, (-1)%Z) < run_start (3%nat, 4%nat, 1%Z))%nat ∧
  run_ref (0%nat, 1%nat, -1) < run_ref (3%nat, 4%nat, 1).
Proof.
  split; [lia|]. split; [reflexivity|]. split; [reflexivity|].
  apply (scan_runs_increasing [false; true; true; false] 0 1); [lia | reflexivity | reflexivity].
Defined.

End RunScanMore.

(** ** More on the report of [analyse_insertions] *)

Section ReportMore.

Context (h : loc → SeqRecord) (aln : alignment).

(** The passes over the rows for the run at [idx] touch entry [idx] only. *)
Lemma collect_rows_lookup (c : coord) (idx j : nat) (insertions : list (dict (list string))) :
  fold_left (fun insertions l =>
      let s := inserted c (h l) in
      if decide (String.length s = 0%nat) then insertions
      else alter (fun d => dd_append d s (name (h l))) idx insertions)
    aln insertions !! j
  = if decide (j = idx) then fold_left (group_step h c) aln <$> insertions !! j
    else insertions !! j.
Proof.
  revert insertions. induction aln as [|l rows IH]; intros insertions; simpl.
  - destruct (decide (j = idx)); [by destruct (insertions !! j) | done].
  - rewrite IH.
    destruct (decide (String.length (inserted c (h l)) = 0%nat)) as [Hz|Hnz].
    + assert (Hstep : ∀ d, group_step h c d l = d).
      { intros d. unfold group_step. by rewrite decide_True. }
      destruct (decide (j = idx)); [|done].
      destruct (insertions !! j) as [d|]; simpl; [by rewrite Hstep | done].
    + assert (Hstep : ∀ d, group_step h c d l = dd_append d (inserted c (h l)) (name (h l))).
      { intros d. unfold group_step. by rewrite decide_False. }
      destruct (decide (j = idx)) as [->|Hne].
      * rewrite list_lookup_alter_eq.
        destruct (insertions !! idx) as [d|]; simpl; [by rewrite Hstep | done].
      * by rewrite list_lookup_alter_ne.
Qed.

Lemma collect_runs_lookup (rest : list coord) (k j : nat)
    (insertions : list (dict (list string))) :
  fold_left (fun insertions '(idx, insertion_coord) =>
      fold_left (fun insertions l =>
        let s := inserted insertion_coord (h l) in
        if decide (String.length s = 0%nat) then insertions
        else alter (fun d => dd_append d s (name (h l))) idx insertions)
        aln insertions)
    (zip (List.seq k (length rest)) rest) insertions !! j
  = match (if decide (k ≤ j)%nat then rest !! (j - k)%nat else None) with
    | Some c => fold_left (group_step h c) aln <$> insertions !! j
    | None => insertions !! j
    end.
Proof.
  revert k insertions. induction rest as [|c rest IH]; intros k insertions; simpl.
  - destruct (decide (k ≤ j)%nat); by rewrite ?lookup_nil.
  - rewrite IH, collect_rows_lookup.
    destruct (decide (S k ≤ j)%nat) as [Hle|Hgt].
    + rewrite decide_False by lia. rewrite decide_True by lia.
      replace (j - k)%nat with (S (j - S k)) by lia. done.
    + destruct (decide (j = k)) as [->|Hne].
      * rewrite decide_True by lia. by rewrite Nat.sub_diag.
      * by rewrite decide_False by lia.
Qed.

(** The entry of a run in [insertions]: the grouping of the rows for it. *)
Lemma collect_insertions_lookup (coords : list coord) (i : nat) (c : coord) :
  coords !! i = Some c →
  collect_insertions h aln coords !! i = Some (group_rows h aln c).
Proof.
  intros Hi. unfold collect_insertions, enumerate.
  rewrite collect_runs_lookup, decide_True by lia.
  rewrite Nat.sub_0_r, Hi.
  assert (Hnil : map (fun _ : coord => @nil (string * list string)) coords !! i = Some []).
  { by rewrite lookup_map, Hi. }
  by rewrite Hnil.
Qed.

Lemma dict_get_dd_append (d : dict (list string)) (k v k' : string) :
  dict_get (dd_append d k v) k'
  = if decide (k = k') then Some (default [] (dict_get d k) ++ [v]) else dict_get d k'.
Proof.
  induction d as [|[k0 vs] d IH]; simpl.
  - destruct (decide (k = k')); done.
  - destruct (decide (k0 = k)) as [->|Hne]; simpl.
    + destruct (decide (k = k')); done.
    + rewrite IH. destruct (decide (k0 = k')) as [->|Hne']; [|done].
      by rewrite decide_False by done.
Qed.

Lemma dd_append_keys (d : dict (list string)) (k v : string) :
  map fst (dd_append d k v) = if decide (k ∈ map fst d) then map fst d else map fst d ++ [k].
Proof.
  induction d as [|[k0 vs] d IH]; simpl.
  - done.
  - destruct (decide (k0 = k)) as [->|Hne]; simpl.
    + by rewrite decide_True by apply list_elem_of_here.
    + rewrite IH. destruct (decide (k ∈ map fst d)) as [Hin|Hnin].
      * by rewrite decide_True by (by apply list_elem_of_further).
      * rewrite decide_False; [done|]. intros [?|?]%elem_of_cons; congruence.
Qed.

Lemma dd_append_NoDup (d : dict (list string)) (k v : string) :
  NoDup (map fst d) → NoDup (map fst (dd_append d k v)).
Proof.
  intros Hnd. rewrite dd_append_keys. destruct (decide (k ∈ map fst d)); [done|].
  apply NoDup_app. split_and!; [done | | apply NoDup_singleton].
  intros x Hx ->%list_elem_of_singleton. done.
Qed.

Lemma group_rows_snoc (rows : alignment) (l : loc) (c : coord) :
  group_rows h (rows ++ [l]) c = group_step h c (group_rows h rows c) l.
Proof. unfold group_rows. by rewrite fold_left_app. Qed.

Lemma contributors_snoc (rows : alignment) (l : loc) (c : coord) (s : string) :
  contributors h (rows ++ [l]) c s
  = contributors h rows c s ++ (if decide (inserted c (h l) = s) then [name (h l)] else []).
Proof.
  unfold contributors. rewrite filter_app, map_app. f_equal.
  destruct (decide (inserted c (h l) = s)) as [Heq|Hne].
  - by rewrite filter_cons_True.
  - by rewrite filter_cons_False.
Qed.

Lemma string_length_zero (s : string) : String.length s = 0%nat ↔ s = EmptyString.
Proof. destruct s; simpl; split; intros; congruence. Qed.

Lemma group_rows_NoDup (rows : alignment) (c : coord) : NoDup (map fst (group_rows h rows c)).
Proof.
  induction rows as [|l rows IH] using rev_ind; [constructor|].
  rewrite group_rows_snoc. unfold group_step.
  destruct (decide _); [done | by apply dd_append_NoDup].
Qed.

(** Under each inserted string, the names of the rows that insert it, in
    row order; nothing under the empty string. *)
Lemma group_rows_get (rows : alignment) (c : coord) (s : string) :
  dict_get (group_rows h rows c) s
  = if decide (s = EmptyString ∨ contributors h rows c s = []) then None
    else Some (contributors h rows c s).
Proof.
  induction rows as [|l rows IH] using rev_ind.
  - simpl. by rewrite decide_True by (by right).
  - rewrite group_rows_snoc, contributors_snoc. unfold group_step.
    destruct (decide (String.length (inserted c (h l)) = 0%nat)) as [Hz|Hnz].
    + apply string_length_zero in Hz. rewrite IH.
      destruct (decide (inserted c (h l) = s)) as [Heq|Hne].
      * rewrite !decide_True; [done | left; congruence | left; congruence].
      * by rewrite app_nil_r.
    + rewrite dict_get_dd_append, IH.
      assert (Hs : inserted c (h l) ≠ EmptyString) by (by rewrite <- string_length_zero).
      destruct (decide (inserted c (h l) = s)) as [Heq|Hne].
      * rewrite <- Heq. rewrite (decide_False (P := _ ∨ _ ++ _ = [])).
        2:{ intros [?|Hnil]; [done|]. by apply app_eq_nil in Hnil as [_ ?]. }
        rewrite <- Heq in IH. rewrite IH.
        destruct (decide _) as [[?|Hnil]|]; [done | by rewrite Hnil | done].
      * by rewrite app_nil_r.
Qed.

(** X4: in the report, the entry of a run holds, under each non-empty
    string that some row inserts there (gaps, N and ? removed), the names
    of the rows inserting it, in row order; it holds each string once and
    nothing else. *)
Theorem insertion_groups (coords : list coord) (i : nat) (c : coord) :
  coords !! i = Some c →
  ∃ data,
    collect_insertions h aln coords !! i = Some data ∧
    NoDup (map fst data) ∧
    ∀ s, dict_get data s
         = if decide (s = EmptyString ∨ contributors h aln c s = []) then None
           else Some (contributors h aln c s).
Proof.
  intros Hi. exists (group_rows h aln c).
  split_and!; [by apply collect_insertions_lookup | apply group_rows_NoDup |].
  apply group_rows_get.
Qed.

Lemma dd_append_not_nil (d : dict (list string)) (k v : string) : dd_append d k v ≠ [].
Proof. destruct d as [|[k0 vs] d]; simpl; [done|]. by destruct (decide (k0 = k)). Qed.

(** A run has an empty entry exactly when no row inserts anything in it. *)
Lemma group_rows_nil_iff (rows : alignment) (c : coord) :
  group_rows h rows c = [] ↔ Forall (fun l => inserted c (h l) = EmptyString) rows.
Proof.
  induction rows as [|l rows IH] using rev_ind; [by split; [constructor|]|].
  rewrite group_rows_snoc, Forall_app, Forall_singleton. unfold group_step.
  destruct (decide (String.length (inserted c (h l)) = 0%nat)) as [Hz|Hnz].
  - apply string_length_zero in Hz. rewrite IH. tauto.
  - split.
    + intros Hnil. by apply dd_append_not_nil in Hnil.
    + intros [_ Hl]. by apply string_length_zero in Hl.
Qed.

End ReportMore.

(** The run of [ref = AC-GT], [x = ACTGT]: [x] inserts [T]. *)
Lemma insertion_groups_witness :
  [(2%nat, 3%nat, 1)] !! 0%nat = Some (2%nat, 3%nat, 1) ∧
  ∃ data,
    collect_insertions basic_heap basic_aln [(2%nat, 3%nat, 1)] !! 0%nat = Some data ∧
    dict_get data "T" = Some ["x"].
Proof.
  split; [reflexivity|].
  destruct (insertion_groups basic_heap basic_aln [(2%nat, 3%nat, 1)] 0 (2%nat, 3%nat, 1)
              eq_refl) as (data & Hdata & _ & Hget).
  exists data. split; [done|]. rewrite Hget. reflexivity.
Defined.

Section ReportTable.

(** X5: the textual summary: one block per run, in run order, made of the
    line giving the run's length and position and then either the
    warning, when no row inserts anything in the run, or one line per
    inserted string. *)
Theorem insertion_summary_blocks (aln : alignment) (ungapped : list bool)
    (insertion_csv : string) (w : world) :
  ∃ blocks,
    stdout (analyse_insertions aln ungapped insertion_csv w).2 = stdout w ++ concat blocks ∧
    length blocks = length (scan_runs ungapped) ∧
    ∀ i c, scan_runs ungapped !! i = Some c →
      blocks !! i
      = Some (summary_line c ::
                if decide (Forall (fun l => inserted c (heap w l) = EmptyString) aln)
                then [artifact_warning]
                else map data_line (group_rows (heap w) aln c)).
Proof.
  rewrite analyse_insertions_effect. set (h := heap w).
  exists (map summary_block (zip (scan_runs ungapped)
            (collect_insertions h aln (scan_runs ungapped)))).
  split_and!; [by destruct (can_open w insertion_csv) | |].
  - rewrite length_map, length_zip_with, collect_insertions_length. lia.
  - intros i c Hi. rewrite lookup_map, lookup_zip_with, Hi. simpl.
    rewrite (collect_insertions_lookup h aln _ _ _ Hi). simpl. unfold summary_block. simpl.
    do 2 f_equal. destruct (decide (Forall _ aln)) as [Hall|Hsome].
    + apply group_rows_nil_iff in Hall. by rewrite Hall.
    + destruct (decide (length (group_rows h aln c) = 0%nat)) as [Hlen|Hlen].
      * exfalso. apply Hsome, group_rows_nil_iff. by destruct (group_rows h aln c).
      * by rewrite app_nil_r.
Qed.


Lemma dd_set_cell_keys (n : nat) (d : dict (list string)) (k : string) (idx : nat) (v : string) :
  map fst (dd_set_cell n d k idx v)
  = if decide (k ∈ map fst d) then map fst d else map fst d ++ [k].
Proof.
  induction d as [|[k0 cells] d IH]; simpl; [done|].
  destruct (decide (k0 = k)) as [->|Hne]; simpl.
  - by rewrite decide_True by apply list_elem_of_here.
  - rewrite IH. destruct (decide (k ∈ map fst d)) as [Hin|Hnin].
    + by rewrite decide_True by (by apply list_elem_of_further).
    + rewrite decide_False; [done|]. intros [?|?]%elem_of_cons; congruence.
Qed.

Lemma dd_set_cell_rows (n : nat) (d : dict (list string)) (k : string) (idx : nat) (v : string) :
  Forall (fun kv => length kv.2 = n) d →
  Forall (fun kv => length kv.2 = n) (dd_set_cell n d k idx v).
Proof.
  induction d as [|[k0 cells] d IH]; simpl; intros Hd.
  - constructor; [|constructor]. simpl. by rewrite length_insert, length_replicate.
  - apply Forall_cons in Hd as [Hcells Hd]. destruct (decide (k0 = k)).
    + constructor; [|done]. simpl in *. by rewrite length_insert.
    + constructor; [done | by apply IH].
Qed.

(** What a loop adds to a collection that only grows. *)
Lemma fold_left_elem {A B} (Q : A → Prop) (K : B → Prop) (f : A → B → A)
    (l : list B) (a : A) :
  (∀ a x, Q (f a x) ↔ Q a ∨ K x) →
  Q (fold_left f l a) ↔ Q a ∨ ∃ x, x ∈ l ∧ K x.
Proof.
  intros Hf. revert a. induction l as [|x l IH]; intros a; simpl.
  - split; [by left | intros [?|(x & ?%elem_of_nil & _)]; done].
  - rewrite IH, Hf. split.
    + intros [[?|?]|(y & Hy & HK)]; [by left | right | right].
      * exists x. split; [apply list_elem_of_here | done].
      * exists y. split; [by apply list_elem_of_further | done].
    + intros [?|(y & [->|Hy]%elem_of_cons & HK)]; [by do 2 left | left; by right | right].
      by exists y.
Qed.

Lemma elem_of_zip_seq {A} (l : list A) (k i : nat) (x : A) :
  (i, x) ∈ zip (List.seq k (length l)) l ↔ (k ≤ i)%nat ∧ l !! (i - k)%nat = Some x.
Proof.
  revert k. induction l as [|y l IH]; intros k; simpl.
  - split; [by intros ?%elem_of_nil | by intros [_ ?]].
  - rewrite elem_of_cons, IH. split.
    + intros [[= -> ->]|[Hle Hx]].
      * split; [lia|]. by rewrite Nat.sub_diag.
      * split; [lia|]. by replace (i - k)%nat with (S (i - S k)) by lia.
    + intros [Hle Hx]. destruct (decide (i = k)) as [->|Hne].
      * left. rewrite Nat.sub_diag in Hx. simpl in Hx. congruence.
      * right. split; [lia|]. by replace (i - k)%nat with (S (i - S k)) in Hx by lia.
Qed.

Lemma elem_of_enumerate {A} (l : list A) (i : nat) (x : A) :
  (i, x) ∈ enumerate l ↔ l !! i = Some x.
Proof.
  unfold enumerate. rewrite elem_of_zip_seq, Nat.sub_0_r. split; [by intros [_ ?]|].
  intros ?. split; [lia | done].
Qed.

Lemma dict_get_elem {V} (d : dict V) (k : string) (v : V) :
  NoDup (map fst d) → (k, v) ∈ d ↔ dict_get d k = Some v.
Proof.
  induction d as [|[k0 v0] d IH]; simpl; intros Hnd.
  - split; [by intros ?%elem_of_nil | done].
  - apply NoDup_cons in Hnd as [Hk0 Hnd]. rewrite elem_of_cons, (IH Hnd).
    destruct (decide (k0 = k)) as [->|Hne].
    + split; [|intros [= ->]; by left].
      intros [[= ->]|Hget]; [done|]. exfalso. apply Hk0.
      apply (IH Hnd) in Hget. apply list_elem_of_In in Hget.
      apply (in_map fst) in Hget. by apply list_elem_of_In.
    + split; [intros [[= ? ?]|?]; done | by right].
Qed.

(** The keys of the table: the names listed in the entries of the runs. *)
Lemma build_strain_data_keys (n : nat) (insertions : list (dict (list string)))
    (strain : string) :
  strain ∈ map fst (build_strain_data n insertions)
  ↔ ∃ idx i_data s strains,
      insertions !! idx = Some i_data ∧ (s, strains) ∈ i_data ∧ strain ∈ strains.
Proof.
  unfold build_strain_data.
  rewrite (fold_left_elem (fun sd => strain ∈ map fst sd)
             (fun p : nat * dict (list string) =>
                ∃ s strains, (s, strains) ∈ p.2 ∧ strain ∈ strains)).
  - split.
    + intros [?%elem_of_nil|([idx i_data] & Hin & s & strains & Hs & Hk)]; [done|].
      apply elem_of_enumerate in Hin. by exists idx, i_data, s, strains.
    + intros (idx & i_data & s & strains & Hin & Hs & Hk). right.
      exists (idx, i_data). split; [by apply elem_of_enumerate|]. by exists s, strains.
  - intros sd [idx i_data]. simpl.
    rewrite (fold_left_elem (fun sd => strain ∈ map fst sd)
               (fun p : string * list string => strain ∈ p.2)).
    + split; (intros [?|Hex]; [by left | right]).
      * destruct Hex as ([s strains] & ? & ?). by exists s, strains.
      * destruct Hex as (s & strains & ? & ?). by exists (s, strains).
    + intros sd' [s strains]. simpl.
      rewrite (fold_left_elem (fun sd => strain ∈ map fst sd) (fun x => strain = x)).
      * split; (intros [?|Hex]; [by left | right]).
        -- by destruct Hex as (x & ? & ->).
        -- by exists strain.
      * intros sd'' x. rewrite dd_set_cell_keys.
        destruct (decide (x ∈ map fst sd'')) as [Hx|Hx].
        -- split; [by left | intros [?| ->]; done].
        -- rewrite elem_of_app, list_elem_of_singleton. done.
Qed.

Lemma build_strain_data_shape (n : nat) (insertions : list (dict (list string))) :
  NoDup (map fst (build_strain_data n insertions)) ∧
  Forall (fun kv => length kv.2 = n) (build_strain_data n insertions).
Proof.
  unfold build_strain_data.
  apply (fold_left_preserves
    (fun sd => NoDup (map fst sd) ∧ Forall (fun kv => length kv.2 = n) sd));
    [|split; constructor].
  intros sd [idx i_data] Hsd.
  apply (fold_left_preserves
    (fun sd => NoDup (map fst sd) ∧ Forall (fun kv => length kv.2 = n) sd)); [|done].
  intros sd' [s strains] Hsd'.
  apply (fold_left_preserves
    (fun sd => NoDup (map fst sd) ∧ Forall (fun kv => length kv.2 = n) sd)); [|done].
  intros sd'' x [Hnd Hrows]. split; [|by apply dd_set_cell_rows].
  rewrite dd_set_cell_keys. destruct (decide (x ∈ map fst sd'')); [done|].
  apply NoDup_app. split_and!; [done | | apply NoDup_singleton].
  intros y Hy ->%list_elem_of_singleton. done.
Qed.

(** X6: the table of the report, where [analyse_insertions] can open the
    file: the call returns, and the file holds, under the header, one row
    per strain, each strain once, each row with one cell per run; the
    strains are the names of the rows that insert something (other than
    gaps, N and ?) in some run, so a strain that contributes to no run has
    no row. *)
Theorem insertion_table (aln : alignment) (ungapped : list bool)
    (insertion_csv : string) (w : world) :
  can_open w insertion_csv = true →
  (analyse_insertions aln ungapped insertion_csv w).1 = Ret tt ∧
  ∃ table,
    fs (analyse_insertions aln ungapped insertion_csv w).2 !! insertion_csv
    = Some (join "," ("strain" :: map header_cell (scan_runs ungapped))
            :: map (fun '(strain, cells) => strain +:+ "," +:+ join "," cells) table) ∧
    NoDup (map fst table) ∧
    (∀ strain cells, (strain, cells) ∈ table → length cells = length (scan_runs ungapped)) ∧
    (∀ strain, strain ∈ map fst table
       ↔ ∃ i c l, scan_runs ungapped !! i = Some c ∧ l ∈ aln ∧
                  name (heap w l) = strain ∧ inserted c (heap w l) ≠ EmptyString).
Proof.
  intros Hopen. rewrite analyse_insertions_effect, Hopen. simpl. split; [done|].
  set (h := heap w). set (runs := scan_runs ungapped).
  exists (build_strain_data (length runs) (collect_insertions h aln runs)).
  destruct (build_strain_data_shape (length runs) (collect_insertions h aln runs))
    as [Hnd Hrows].
  split_and!; [by rewrite lookup_insert_eq | done | |].
  - intros strain cells Hin. rewrite Forall_forall in Hrows. by apply (Hrows (strain, cells)).
  - intros strain. rewrite build_strain_data_keys. split.
    + intros (idx & i_data & s & strains & Hidx & Hs & Hk).
      destruct (lookup_lt_is_Some_2 runs idx) as [c Hc].
      { rewrite <- (collect_insertions_length h aln runs). by eapply lookup_lt_Some. }
      rewrite (collect_insertions_lookup h aln _ _ _ Hc) in Hidx. injection Hidx as <-.
      apply dict_get_elem in Hs; [|apply group_rows_NoDup].
      rewrite group_rows_get in Hs.
      destruct (decide _) as [|Hno]; [done|]. injection Hs as <-.
      unfold contributors in Hk. apply list_elem_of_In, in_map_iff in Hk as (l & <- & Hl).
      apply list_elem_of_In, list_elem_of_filter in Hl as [Hl Hlin].
      exists idx, c, l. split_and!; [done | done | done |]. rewrite Hl. tauto.
    + intros (i & c & l & Hc & Hl & <- & Hins).
      exists i, (group_rows h aln c), (inserted c (h l)), (contributors h aln c (inserted c (h l))).
      assert (Hk : name (h l) ∈ contributors h aln c (inserted c (h l))).
      { unfold contributors. apply list_elem_of_In. apply (in_map (fun l => name (h l))).
        apply list_elem_of_In, list_elem_of_filter. done. }
      split_and!; [by apply collect_insertions_lookup | | done].
      apply dict_get_elem; [apply group_rows_NoDup|]. rewrite group_rows_get.
      rewrite decide_False; [done|]. intros [?|Hnil]; [done|].
      rewrite Hnil in Hk. by apply elem_of_nil in Hk.
Qed.

(** The report for [ref = AC-GT], [x = ACTGT]: one run, and the one row of
    [x], with its one cell. *)
Lemma insertion_table_witness :
  can_open basic_world "out.csv" = true ∧
  (analyse_insertions basic_aln [true; true; false; true; true] "out.csv" basic_world).1
  = Ret tt ∧
  fs (analyse_insertions basic_aln [true; true; false; true; true] "out.csv" basic_world).2
    !! "out.csv" = Some ["strain,insertion: 1bp @ ref pos 2"; "x,T"].
Proof.
  split; [reflexivity|].
  destruct (insertion_table basic_aln [true; true; false; true; true] "out.csv" basic_world
              eq_refl) as [Hret _].
  split; [exact Hret | vm_compute; reflexivity].
Defined.

End ReportTable.

(** ** More on [strip_non_reference] *)

Section TrimMore.

Lemma project_reference_mask (s : string) :
  project (map (fun c => negb (Ascii.eqb c gap)) (list_ascii_of_string s)) s = ungap gap s.
Proof.
  unfold project. induction s as [|c s IH]; simpl; [done|].
  destruct (Ascii.eqb_spec c gap) as [Heq|Hne]; simpl.
  - by rewrite decide_True.
  - by rewrite decide_False, IH.
Qed.

Lemma ungap_free (c : ascii) (s : string) : c ∉ list_ascii_of_string (ungap c s).
Proof.
  induction s as [|d s IH]; simpl; [apply not_elem_of_nil|].
  destruct (decide (d = c)) as [->|Hne]; [done|]. simpl.
  intros [?|?]%elem_of_cons; [congruence | done].
Qed.

Lemma length_ungap_gap (s : string) : String.length (ungap gap s) = count_non_gap s.
Proof.
  induction s as [|d s IH]; simpl; [done|].
  destruct (decide (d = gap)); simpl; by rewrite IH.
Qed.

(** The index of names only reads the names. *)
Lemma name_index_ext (h h' : loc → SeqRecord) (aln : alignment) :
  (∀ l, l ∈ aln → name (h l) = name (h' l)) → name_index h aln = name_index h' aln.
Proof.
  induction aln as [|l aln IH] using rev_ind; intros Hnames; [done|].
  rewrite !name_index_snoc, IH, Hnames; [done | | ].
  - apply elem_of_app. right. by apply list_elem_of_singleton.
  - intros l' Hl'. apply Hnames. apply elem_of_app. by left.
Qed.

(** The reference row after a call that has trimmed the rows. *)
Lemma trimmed_reference (w w' : world) (aln : alignment) (ref : loc) :
  ref ∈ aln →
  heap w' = assign_rows (fun l => project (reference_mask (heap w ref)) (seq (heap w l)))
              aln (heap w) →
  seq (heap w' ref) = ungap gap (seq (heap w ref)).
Proof.
  intros Href Hheap. rewrite Hheap, assign_rows_lookup, decide_True by done. simpl.
  apply project_reference_mask.
Qed.

(** X7: after trimming, the reference row is the reference with its gaps
    taken out.  The call returns for an alignment (all rows of one
    length) whose insertions report, if a path is given for it, can be
    opened for writing. *)
Theorem trim_reference_ungapped (w : world) (aln : alignment) (reference : string)
    (insertion_csv : option string) :
  rectangular (heap w) aln →
  reference ∈ row_names (heap w) aln →
  report_writable w insertion_csv →
  ∃ i ref out w',
    last_row_named (heap w) aln reference i ref ∧
    strip_non_reference aln reference insertion_csv w = (Ret out, w') ∧
    seq (heap w' ref) = ungap gap (seq (heap w ref)) ∧
    gap ∉ to_array (heap w' ref).
Proof.
  intros Hrect Hin Hopen. destruct (reference_row _ _ _ Hin) as (i & ref & Hi & Href).
  pose proof (last_row_named_elem _ _ _ _ _ Hi) as Hrefin.
  destruct (strip_non_reference_found w aln reference insertion_csv ref Href)
    as (w' & Hrun & Hheap & _);
    [by apply rectangular_rows_fit | intros path; by apply report_writable_due |].
  pose proof (trimmed_reference w w' aln ref Hrefin Hheap) as Hseq.
  exists i, ref, aln, w'. split_and!; [done | done | done |].
  unfold to_array. rewrite Hseq. apply ungap_free.
Qed.

Lemma trim_reference_ungapped_witness :
  rectangular (heap basic_world) basic_aln ∧
  "ref" ∈ row_names (heap basic_world) basic_aln ∧
  report_writable basic_world (Some "out.csv") ∧
  ∃ i ref out w',
    last_row_named (heap basic_world) basic_aln "ref" i ref ∧
    strip_non_reference basic_aln "ref" (Some "out.csv") basic_world = (Ret out, w') ∧
    seq (heap w' ref) = ungap gap (seq (heap basic_world ref)) ∧
    gap ∉ to_array (heap w' ref).
Proof.
  split; [exact basic_rectangular|]. split; [exact basic_ref_named|].
  split; [exact (basic_report_writable _)|].
  exact (trim_reference_ungapped basic_world basic_aln "ref" (Some "out.csv")
           basic_rectangular basic_ref_named (basic_report_writable _)).
Defined.



Lemma set_seq_same (r : SeqRecord) : set_seq r (seq r) = r.
Proof. by destruct r. Qed.

(** X9: trimming again against the same reference changes nothing.  Once a
    call has returned for an alignment (all rows of one length), a second
    call on the rows it returned, whatever path it is given, returns the
    same rows, leaves every record as the first call left it, and writes
    no report. *)
Theorem trim_twice (w w1 : world) (aln out : alignment) (reference : string)
    (insertion_csv insertion_csv' : option string) :
  rectangular (heap w) aln →
  strip_non_reference aln reference insertion_csv w = (Ret out, w1) →
  ∃ w2,
    strip_non_reference out reference insertion_csv' w1 = (Ret out, w2) ∧
    (∀ l, heap w2 l = heap w1 l) ∧
    fs w2 = fs w1.
Proof.
  intros Hrect Hrun1.
  destruct (name_index (heap w) aln !! reference) as [ref|] eqn:Href.
  2:{ rewrite (strip_non_reference_missing w aln reference insertion_csv Href) in Hrun1.
      discriminate. }
  pose proof (name_index_lookup (heap w) aln reference) as Hlast.
  rewrite Href in Hlast. destruct Hlast as (i & Hi).
  pose proof (last_row_named_elem _ _ _ _ _ Hi) as Hrefin.
  destruct (strip_non_reference_returned w w1 aln out reference insertion_csv ref Href Hrun1)
    as [-> Hheap1].
  set (mask := reference_mask (heap w ref)) in *.
  assert (Hrow : ∀ l, l ∈ aln → heap w1 l = set_seq (heap w l) (project mask (seq (heap w l)))).
  { intros l Hl. by rewrite Hheap1, assign_rows_lookup, decide_True. }
  assert (Href1 : name_index (heap w1) aln !! reference = Some ref).
  { rewrite (name_index_ext (heap w1) (heap w) aln); [done|].
    intros l Hl. by rewrite (Hrow l Hl). }
  pose proof (trimmed_reference w w1 aln ref Hrefin Hheap1) as Hseq1.
  assert (Hclean : false ∉ reference_mask (heap w1 ref)).
  { rewrite reference_mask_false. unfold to_array. rewrite Hseq1. apply ungap_free. }
  assert (Hlen1 : ∀ l, l ∈ aln →
    String.length (seq (heap w1 l)) = length (reference_mask (heap w1 ref))).
  { intros l Hl. rewrite length_reference_mask, Hseq1, length_ungap_gap.
    by apply (trimmed_width w w1 aln ref). }
  destruct (strip_non_reference_found w1 aln reference insertion_csv' ref Href1)
    as (w2 & Hrun2 & Hheap2 & Hfs2 & _).
  { by apply rows_fit_spec. }
  { intros path Hdue. unfold report_due in Hdue. by rewrite decide_False in Hdue. }
  exists w2. split_and!; [done | |].
  - intros l. rewrite Hheap2, assign_rows_lookup.
    destruct (decide (l ∈ aln)) as [Hl|Hl]; [|done].
    rewrite project_all_true; [apply set_seq_same | done | by apply Hlen1].
  - rewrite Hfs2. unfold report_due. by rewrite decide_False.
Qed.

Lemma trim_twice_witness :
  rectangular (heap basic_world) basic_aln ∧
  ∃ out w1 w2,
    strip_non_reference basic_aln "ref" (Some "out.csv") basic_world = (Ret out, w1) ∧
    strip_non_reference out "ref" (Some "again.csv") w1 = (Ret out, w2) ∧
    (∀ l, heap w2 l = heap w1 l) ∧
    fs w2 = fs w1.
Proof.
  split; [exact basic_rectangular|].
  destruct (strip_non_reference_found basic_world basic_aln "ref" (Some "out.csv") 0%nat)
    as (w1 & Hrun1 & _);
    [vm_compute; reflexivity | vm_compute; reflexivity
     | intros path; apply report_writable_due, basic_report_writable |].
  destruct (trim_twice basic_world w1 basic_aln basic_aln "ref" (Some "out.csv")
              (Some "again.csv") basic_rectangular Hrun1) as (w2 & Hrun2 & Hheap & Hfs).
  exists basic_aln, w1, w2.
  split; [exact Hrun1|]. split; [exact Hrun2|]. split; [exact Hheap | exact Hfs].
Defined.

End TrimMore.

(** ** [make_gaps_ambiguous], [remove_reference_sequence] and the order
    in which [run] applies the steps *)

Section PostProcessing.

(** A loop that applies one and the same idempotent change to the record
    of every row it visits. *)
Lemma for_each_update (g : SeqRecord → SeqRecord) (body : loc → M unit) :
  (∀ l w, ∃ w', body l w = (Ret tt, w') ∧ fs w' = fs w ∧
                ∀ l', heap w' l' = if decide (l' = l) then g (heap w l) else heap w l') →
  (∀ r, g (g r) = g r) →
  ∀ aln w, ∃ w', for_each aln body w = (Ret tt, w') ∧ fs w' = fs w ∧
                 ∀ l, heap w' l = if decide (l ∈ aln) then g (heap w l) else heap w l.
Proof.
  intros Hbody Hidem aln. induction aln as [|l0 aln IH]; intros w; simpl.
  - exists w. split_and!; [done | done |]. intros l.
    by destruct (decide (l ∈ [])) as [?%elem_of_nil|].
  - unfold bind. destruct (Hbody l0 w) as (w1 & -> & Hfs1 & Hw1).
    destruct (IH w1) as (w' & -> & Hfs' & Hw'). exists w'.
    split_and!; [done | congruence |]. intros l. rewrite Hw', Hw1.
    destruct (decide (l = l0)) as [->|Hne].
    + rewrite (decide_True (P := l0 ∈ l0 :: aln)) by apply list_elem_of_here.
      by destruct (decide (l0 ∈ aln)).
    + destruct (decide (l ∈ aln)) as [Hin|Hnin].
      * by rewrite decide_True by (by apply list_elem_of_further).
      * rewrite decide_False; [done|]. intros [?|?]%elem_of_cons; done.
Qed.

Lemma replace_char_free (old new : ascii) (s : string) :
  old ≠ new → old ∉ list_ascii_of_string (replace_char old new s).
Proof.
  intros Hne. induction s as [|c s IH]; simpl; [apply not_elem_of_nil|].
  intros [Heq|?]%elem_of_cons; [|done].
  destruct (decide (c = old)); congruence.
Qed.

Lemma replace_char_idem (old new : ascii) (s : string) :
  old ≠ new → replace_char old new (replace_char old new s) = replace_char old new s.
Proof.
  intros Hne. induction s as [|c s IH]; simpl; [done|]. rewrite IH. f_equal.
  destruct (decide (c = old)) as [->|Hc].
  - by rewrite decide_False by done.
  - by rewrite decide_False.
Qed.

Lemma length_replace_char (old new : ascii) (s : string) :
  String.length (replace_char old new s) = String.length s.
Proof. induction s as [|c s IH]; simpl; [done | by rewrite IH]. Qed.

Lemma fill_record_idem (r : SeqRecord) : fill_record (fill_record r) = fill_record r.
Proof. unfold fill_record, set_seq. simpl. by rewrite replace_char_idem. Qed.

Lemma make_gaps_ambiguous_effect (aln : list loc) (w : world) :
  ∃ w', make_gaps_ambiguous aln w = (Ret tt, w') ∧ fs w' = fs w ∧
        ∀ l, heap w' l = if decide (l ∈ aln) then fill_record (heap w l) else heap w l.
Proof.
  apply (for_each_update fill_record); [|apply fill_record_idem].
  intros l w0. unfold bind, get_record, assign. simpl. eexists. split_and!; [done | done |].
  intros l'. simpl. destruct (decide (l' = l)) as [->|Hne].
  - by rewrite fn_lookup_insert.
  - by rewrite fn_lookup_insert_ne.
Qed.

(** X10: [make_gaps_ambiguous] always returns; afterwards every row it was
    given holds its former residues with each gap turned into N, so no gap
    is left and no length has changed; nothing else changes; and a second
    call changes nothing at all. *)
Theorem fill_gaps_effect (aln : list loc) (w : world) :
  ∃ w1 w2,
    make_gaps_ambiguous aln w = (Ret tt, w1) ∧
    (∀ l, l ∈ aln →
       seq (heap w1 l) = replace_char gap "N"%char (seq (heap w l)) ∧
       (gap ∉ to_array (heap w1 l)) ∧
       String.length (seq (heap w1 l)) = String.length (seq (heap w l)) ∧
       id (heap w1 l) = id (heap w l) ∧ name (heap w1 l) = name (heap w l) ∧
       description (heap w1 l) = description (heap w l)) ∧
    (∀ l, l ∉ aln → heap w1 l = heap w l) ∧
    fs w1 = fs w ∧
    make_gaps_ambiguous aln w1 = (Ret tt, w2) ∧
    (∀ l, heap w2 l = heap w1 l).
Proof.
  destruct (make_gaps_ambiguous_effect aln w) as (w1 & Hrun1 & Hfs1 & Hw1).
  destruct (make_gaps_ambiguous_effect aln w1) as (w2 & Hrun2 & _ & Hw2).
  exists w1, w2. split_and!; [done | | | done | done |].
  - intros l Hl. rewrite Hw1, decide_True by done. unfold fill_record, to_array. simpl.
    split_and!; [done | by apply replace_char_free | apply length_replace_char
                | done | done | done].
  - intros l Hl. by rewrite Hw1, decide_False.
  - intros l. rewrite Hw2, Hw1. destruct (decide (l ∈ aln)); [apply fill_record_idem | done].
Qed.

Lemma filter_filter_same {A} (P : A → Prop) `{∀ x, Decision (P x)} (l : list A) :
  filter P (filter P l) = filter P l.
Proof.
  induction l as [|x l IH]; [done|]. destruct (decide (P x)).
  - rewrite !filter_cons_True by done. by rewrite IH.
  - by rewrite !filter_cons_False by done.
Qed.

Lemma filter_all {A} (P : A → Prop) `{∀ x, Decision (P x)} (l : list A) :
  (∀ x, x ∈ l → P x) → filter P l = l.
Proof.
  induction l as [|x l IH]; intros Hall; [done|].
  rewrite filter_cons_True by (apply Hall, list_elem_of_here).
  rewrite IH; [done|]. intros y Hy. apply Hall. by apply list_elem_of_further.
Qed.

Lemma remove_reference_run (seqs : list loc) (reference_name : string) (w : world) :
  ∃ out,
    remove_reference_sequence seqs reference_name w = (Ret out, w) ∧
    ∀ l, l ∈ out ↔ l ∈ seqs ∧ name (heap w l) ≠ reference_name.
Proof.
  unfold remove_reference_sequence, gets. eexists. split; [done|].
  intros l. rewrite list_elem_of_filter. tauto.
Qed.

(** X11: [remove_reference_sequence] keeps, in their order, the rows not named
    as the reference and only them, and changes nothing in the world;
    where no row bears the name it returns the rows as given, and applied
    to its own result it returns that result. *)
Theorem remove_reference_effect (seqs : list loc) (reference_name : string) (w : world) :
  ∃ out,
    remove_reference_sequence seqs reference_name w = (Ret out, w) ∧
    (∀ l, l ∈ out ↔ l ∈ seqs ∧ name (heap w l) ≠ reference_name) ∧
    (out `sublist_of` seqs) ∧
    (reference_name ∉ row_names (heap w) out) ∧
    (reference_name ∉ row_names (heap w) seqs → out = seqs) ∧
    remove_reference_sequence out reference_name w = (Ret out, w).
Proof.
  unfold remove_reference_sequence, gets.
  exists (filter (fun s => name (heap w s) ≠ reference_name) seqs).
  split_and!; [done | | apply sublist_filter | | |].
  - intros l. rewrite list_elem_of_filter. tauto.
  - unfold row_names. intros Hin. apply list_elem_of_In, in_map_iff in Hin as (l & Hname & Hl).
    apply list_elem_of_In, list_elem_of_filter in Hl as [Hl _]. done.
  - intros Hnone. apply filter_all. intros l Hl Hname. apply Hnone.
    unfold row_names. rewrite <- Hname. apply list_elem_of_In.
    apply (in_map (fun l => name (heap w l))). by apply list_elem_of_In.
  - by rewrite filter_filter_same.
Qed.

Lemma upper_char_gap (c : ascii) : Ascii.eqb (upper_char c) gap = Ascii.eqb c gap.
Proof. destruct c as [[] [] [] [] [] [] [] []]; reflexivity. Qed.

Lemma length_upper (s : string) : String.length (upper s) = String.length s.
Proof. induction s as [|c s IH]; simpl; [done | by rewrite IH]. Qed.

Lemma reference_mask_pretty (r : SeqRecord) :
  reference_mask (pretty_record r) = reference_mask r.
Proof.
  unfold reference_mask, to_array, pretty_record. simpl.
  induction (seq r) as [|c s IH]; simpl; [done | by rewrite IH, upper_char_gap].
Qed.

Lemma reference_mask_iter_pretty (k : nat) (r : SeqRecord) :
  reference_mask (Nat.iter k pretty_record r) = reference_mask r.
Proof. induction k as [|k IH]; simpl; [done | by rewrite reference_mask_pretty]. Qed.

Lemma upper_char_ascii (c : ascii) :
  Nat.ltb (nat_of_ascii (upper_char c)) 128 = Nat.ltb (nat_of_ascii c) 128.
Proof. destruct c as [[] [] [] [] [] [] [] []]; reflexivity. Qed.

Lemma isascii_upper (s : string) : isascii (upper s) = isascii s.
Proof.
  unfold isascii. induction s as [|c s IH]; simpl; [done|].
  by rewrite upper_char_ascii, IH.
Qed.

Lemma isascii_iter_pretty (k : nat) (r : SeqRecord) :
  isascii (seq (Nat.iter k pretty_record r)) = isascii (seq r).
Proof. induction k as [|k IH]; simpl; [done | by rewrite isascii_upper]. Qed.

(** [prettify_alignment] writes no file. *)
Lemma prettify_files (aln : alignment) (w : world) :
  fs (prettify_alignment aln w).2 = fs w ∧
  writable (prettify_alignment aln w).2 = writable w.
Proof.
  revert w. induction aln as [|l aln IH]; intros w; [done|].
  rewrite prettify_cons.
  assert (Hrow : fs (prettify_alignment [l] w).2 = fs w ∧
                 writable (prettify_alignment [l] w).2 = writable w).
  { unfold prettify_alignment. simpl. unfold bind, get_record, assign, pure, print. simpl.
    repeat (destruct (startswith _ _); simpl); done. }
  destruct (prettify_row_effect l w) as (w1 & Hrun & _). rewrite Hrun in *. simpl in Hrow.
  destruct (IH w1) as [Hfs Hwr]. destruct Hrow as [Hfs1 Hwr1]. split; congruence.
Qed.

(** What [prettify_alignment] keeps of the residues of each record. *)
Lemma prettify_columns (aln : alignment) (w : world) :
  ∃ w1,
    prettify_alignment aln w = (Ret tt, w1) ∧
    (∀ l, reference_mask (heap w1 l) = reference_mask (heap w l) ∧
          String.length (seq (heap w1 l)) = String.length (seq (heap w l)) ∧
          isascii (seq (heap w1 l)) = isascii (seq (heap w l))) ∧
    (∀ rows, rectangular (heap w) rows → rectangular (heap w1) rows).
Proof.
  destruct (prettify_effect aln w) as (w1 & Hrun & Hw1). exists w1.
  assert (Hmask : ∀ l, reference_mask (heap w1 l) = reference_mask (heap w l)).
  { intros l. rewrite Hw1. apply reference_mask_iter_pretty. }
  assert (Hlen : ∀ l, String.length (seq (heap w1 l)) = String.length (seq (heap w l))).
  { intros l. by rewrite <- !length_reference_mask, Hmask. }
  split_and!; [done | | ].
  - intros l. split_and!; [done | done |]. rewrite Hw1. apply isascii_iter_pretty.
  - intros rows Hrect l l' Hl Hl'. rewrite !Hlen. by apply Hrect.
Qed.

(** X12: on ASCII residues [prettify_alignment] moves no gap: every record
    has afterwards the mask and the width it had, and residues that are
    ASCII still, so an alignment stays rectangular and its reference
    selects the same columns before and after. *)
Theorem prettify_keeps_columns (aln : alignment) (w : world) :
  (∀ l, l ∈ aln → isascii (seq (heap w l)) = true) →
  ∃ w1,
    prettify_alignment aln w = (Ret tt, w1) ∧
    (∀ l, reference_mask (heap w1 l) = reference_mask (heap w l) ∧
          String.length (seq (heap w1 l)) = String.length (seq (heap w l)) ∧
          isascii (seq (heap w1 l)) = isascii (seq (heap w l))) ∧
    (∀ l, l ∈ aln → isascii (seq (heap w1 l)) = true) ∧
    (∀ rows, rectangular (heap w) rows → rectangular (heap w1) rows).
Proof.
  intros Hascii. destruct (prettify_columns aln w) as (w1 & Hrun & Hcols & Hrect).
  exists w1. split_and!; [done | done | | done].
  intros l Hl. destruct (Hcols l) as (_ & _ & ->). by apply Hascii.
Qed.

Ltac elem_cases H :=
  repeat (apply elem_of_cons in H as [->|H]); [..|by apply elem_of_nil in H].

Lemma pipeline_rectangular : rectangular (heap pipeline_world) [0%nat; 1%nat; 2%nat].
Proof. intros l l' Hl Hl'. elem_cases Hl; elem_cases Hl'; reflexivity. Qed.

Lemma pipeline_ascii (l : loc) :
  l ∈ [0%nat; 1%nat; 2%nat] → isascii (seq (heap pipeline_world l)) = true.
Proof. intros Hl. elem_cases Hl; reflexivity. Qed.

(** Three rows in lower case, one of them reverse-complemented. *)
Lemma prettify_keeps_columns_witness :
  (∀ l, l ∈ [0%nat; 1%nat; 2%nat] → isascii (seq (heap pipeline_world l)) = true) ∧
  ∃ w1,
    prettify_alignment [0%nat; 1%nat; 2%nat] pipeline_world = (Ret tt, w1) ∧
    String.length (seq (heap w1 1%nat)) = 5%nat ∧
    rectangular (heap w1) [0%nat; 1%nat; 2%nat].
Proof.
  split; [exact pipeline_ascii|].
  destruct (prettify_keeps_columns [0%nat; 1%nat; 2%nat] pipeline_world pipeline_ascii)
    as (w1 & Hrun & Hcols & _ & Hrect).
  exists w1. split; [exact Hrun|]. split.
  - destruct (Hcols 1%nat) as (_ & Hlen & _). rewrite Hlen. reflexivity.
  - apply Hrect. exact pipeline_rectangular.
Defined.

(** X13: the steps after the aligner, in the order [run] takes them with a
    reference to remove and gaps to fill: normalise, trim, drop the
    reference, fill the gaps.  For an alignment (all rows of one length)
    of ASCII residues whose insertions report, if a path is given for it,
    can be opened for writing, every step returns, and every row left is
    then as wide as the reference had residues, free of gaps, and not the
    reference. *)
Theorem postprocess_rows (w w1 : world) (aln : alignment) (reference : string)
    (insertion_csv : option string) :
  rectangular (heap w) aln →
  (∀ l, l ∈ aln → isascii (seq (heap w l)) = true) →
  report_writable w insertion_csv →
  prettify_alignment aln w = (Ret tt, w1) →
  reference ∈ row_names (heap w1) aln →
  ∃ i ref trimmed w2 kept w3,
    last_row_named (heap w1) aln reference i ref ∧
    strip_non_reference aln reference insertion_csv w1 = (Ret trimmed, w2) ∧
    remove_reference_sequence trimmed reference w2 = (Ret kept, w2) ∧
    make_gaps_ambiguous kept w2 = (Ret tt, w3) ∧
    ∀ l, l ∈ kept →
      l ∈ aln ∧ name (heap w3 l) ≠ reference ∧
      String.length (seq (heap w3 l)) = count_non_gap (seq (heap w ref)) ∧
      gap ∉ to_array (heap w3 l).
Proof.
  intros Hrect Hascii Hopen Hpretty Hin.
  destruct (prettify_columns aln w) as (w1' & Hpretty' & Hcols & Hrect1).
  rewrite Hpretty in Hpretty'. injection Hpretty' as <-.
  assert (Hopen1 : report_writable w1 insertion_csv).
  { intros path Hpath. rewrite <- (Hopen path Hpath). unfold can_open.
    destruct (prettify_files aln w) as [_ Hwr]. rewrite Hpretty in Hwr. simpl in Hwr.
    by rewrite Hwr. }
  destruct (reference_row _ _ _ Hin) as (i & ref & Hlast & Href).
  pose proof (last_row_named_elem _ _ _ _ _ Hlast) as Hrefin.
  destruct (strip_non_reference_found w1 aln reference insertion_csv ref Href)
    as (w2 & Hstrip & Hheap & _);
    [by apply rectangular_rows_fit, Hrect1
    | intros path; by apply report_writable_due |].
  pose proof (trimmed_width w1 w2 aln ref (Hrect1 aln Hrect) Hrefin Hheap) as Hwidth.
  assert (Hnames : ∀ l, name (heap w2 l) = name (heap w1 l)).
  { intros l. rewrite Hheap, assign_rows_lookup. by destruct (decide (l ∈ aln)). }
  destruct (remove_reference_run aln reference w2) as (kept & Hremove & Hkept).
  destruct (make_gaps_ambiguous_effect kept w2) as (w3 & Hfill & _ & Hw3).
  exists i, ref, aln, w2, kept, w3. split_and!; [done..|].
  intros l Hl. apply Hkept in Hl as Hl'. destruct Hl' as [Hlin Hname].
  rewrite Hw3, decide_True by done. unfold fill_record, to_array. simpl.
  split_and!; [done | done | | by apply replace_char_free].
  rewrite length_replace_char, (Hwidth l Hlin).
  destruct (Hcols ref) as [Hmask _].
  by rewrite <- !count_true_reference_mask, Hmask.
Qed.

Lemma pipeline_report_writable (insertion_csv : option string) :
  report_writable pipeline_world insertion_csv.
Proof.
  intros path Hpath. destruct insertion_csv as [[|c p]|]; simpl in Hpath; try discriminate.
  by injection Hpath as <-.
Qed.

Lemma postprocess_rows_witness :
  rectangular (heap pipeline_world) [0%nat; 1%nat; 2%nat] ∧
  (∀ l, l ∈ [0%nat; 1%nat; 2%nat] → isascii (seq (heap pipeline_world l)) = true) ∧
  report_writable pipeline_world (Some "out.csv") ∧
  ∃ w1 kept w3,
    prettify_alignment [0%nat; 1%nat; 2%nat] pipeline_world = (Ret tt, w1) ∧
    "ref" ∈ row_names (heap w1) [0%nat; 1%nat; 2%nat] ∧
    kept = [1%nat; 2%nat] ∧
    seq (heap w3 1%nat) = "ACGN" ∧ seq (heap w3 2%nat) = "ANGT".
Proof.
  split; [exact pipeline_rectangular|]. split; [exact pipeline_ascii|].
  split; [exact (pipeline_report_writable _)|].
  destruct (prettify_effect [0%nat; 1%nat; 2%nat] pipeline_world) as (w1 & Hpretty & _).
  assert (Hin : "ref" ∈ row_names (heap w1) [0%nat; 1%nat; 2%nat]).
  { vm_compute in Hpretty. injection Hpretty as <-. vm_compute. apply list_elem_of_here. }
  destruct (postprocess_rows pipeline_world w1 [0%nat; 1%nat; 2%nat] "ref" (Some "out.csv")
              pipeline_rectangular pipeline_ascii (pipeline_report_writable _) Hpretty Hin)
    as (i & ref & trimmed & w2 & kept & w3 & _ & Hstrip & Hremove & Hfill & _).
  exists w1, kept, w3. split; [done|]. split; [done|].
  vm_compute in Hpretty. injection Hpretty as <-.
  vm_compute in Hstrip. injection Hstrip as <- <-.
  vm_compute in Hremove. injection Hremove as <-.
  vm_compute in Hfill. injection Hfill as <-.
  split_and!; reflexivity.
Defined.

End PostProcessing.

(** ** More on [check_duplicates], and the checks around it *)

Section DuplicatesMore.

(** One scannable argument: it passes exactly when its names are new and
    distinct, and otherwise ends the scan with the duplicate error. *)
Lemma sample_step_scannable (names : gset string) (v : pyvalue) (h : loc → SeqRecord) :
  scannable v →
  match sample_step names v h with
  | Ret s => NoDup (scanned_names h v) ∧ (∀ n, n ∈ scanned_names h v → n ∉ names) ∧
             ∀ m, m ∈ s ↔ m ∈ scanned_names h v ∨ m ∈ names
  | Raise e => raises_duplicate (@Raise unit e) ∧
               ¬ (NoDup (scanned_names h v) ∧ ∀ n, n ∈ scanned_names h v → n ∉ names)
  end.
Proof.
  intros Hok. unfold sample_step, scanned_names, scannable in *.
  destruct (truthy v).
  - rewrite Hok by done.
    pose proof (scan_names_spec (names_of h v) names) as Hspec.
    destruct (scan_names names (names_of h v)) as [n|s]; [|done].
    destruct Hspec as [Hn Hseen]. split; [by exists n|].
    intros [Hnd Hfresh]. by apply (Hfresh n Hn), Hseen.
  - split_and!; [constructor | by intros n ?%elem_of_nil |].
    intros m. split; [by right | intros [?%elem_of_nil|?]; done].
Qed.

(** The scan of scannable arguments from a set of names seen. *)
Lemma scan_values (values : list pyvalue) (names : gset string) (w : world) :
  Forall scannable values →
  (for_fold values check_sample names w).2 = w ∧
  match (for_fold values check_sample names w).1 with
  | Ret s => NoDup (all_scanned (heap w) values) ∧
             ∀ n, n ∈ all_scanned (heap w) values → n ∉ names
  | Raise e => raises_duplicate (@Raise unit e) ∧
               ¬ (NoDup (all_scanned (heap w) values) ∧
                  ∀ n, n ∈ all_scanned (heap w) values → n ∉ names)
  end.
Proof.
  intros Hok. revert names. induction Hok as [|v values Hv Hok IH]; intros names.
  - simpl. split_and!; [done | constructor | by intros n ?%elem_of_nil].
  - simpl. unfold bind. rewrite check_sample_run.
    pose proof (sample_step_scannable names v (heap w) Hv) as Hstep.
    unfold all_scanned. simpl. fold (all_scanned (heap w) values).
    destruct (sample_step names v (heap w)) as [s|e].
    + destruct Hstep as (Hnd & Hfresh & Hs). destruct (IH s) as [Hw Hrest].
      split; [done|].
      destruct ((for_fold values check_sample s w).1) as [s'|e'].
      * destruct Hrest as [Hnd' Hfresh']. split.
        -- apply NoDup_app. split_and!; [done | | done].
           intros n Hn Hn'. apply (Hfresh' n Hn'), Hs. by left.
        -- intros n [Hn|Hn]%elem_of_app; [by apply Hfresh|].
           intros Hin. apply (Hfresh' n Hn), Hs. by right.
      * destruct Hrest as [Hdup Hbad]. split; [done|].
        intros [Hall Hfresh']. apply NoDup_app in Hall as (_ & Hdisj & Hnd').
        apply Hbad. split; [done|]. intros n Hn [Hin|Hin]%Hs.
        -- by apply (Hdisj n Hin).
        -- apply (Hfresh' n); [|done]. apply elem_of_app. by right.
    + simpl. split; [done|]. destruct Hstep as [Hdup Hbad]. split; [done|].
      intros [Hall Hfresh']. apply NoDup_app in Hall as (Hnd & _ & _).
      apply Hbad. split; [done|]. intros n Hn. apply Hfresh'. apply elem_of_app. by left.
Qed.

(** The scan of scannable arguments returns exactly when their names are
    distinct. *)
Lemma check_duplicates_returns (values : list pyvalue) (w : world) :
  Forall scannable values →
  (check_duplicates values w).1 = Ret tt ↔ NoDup (all_scanned (heap w) values).
Proof.
  intros Hok. destruct (scan_values values ∅ w Hok) as [Hw Hres].
  unfold check_duplicates, bind.
  destruct (for_fold values check_sample ∅ w) as [[s|e] w'] eqn:Hrun; simpl in *.
  - by destruct Hres as [Hnd _].
  - destruct Hres as [[n ->] Hbad].
    split; [done|]. intros Hnd. exfalso. apply Hbad. split; [done|]. set_solver.
Qed.

(** X14: for arguments of the kinds it takes (falsy ones skipped),
    [check_duplicates] returns exactly when the names of all of them,
    taken together, are distinct; otherwise it raises the duplicate-strain
    error.  It never changes the world. *)
Theorem check_duplicates_all (values : list pyvalue) (w : world) :
  Forall scannable values →
  (check_duplicates values w).2 = w ∧
  ((check_duplicates values w).1 = Ret tt ↔ NoDup (all_scanned (heap w) values)) ∧
  (raises_duplicate (check_duplicates values w).1 ↔ ¬ NoDup (all_scanned (heap w) values)).
Proof.
  intros Hok. destruct (scan_values values ∅ w Hok) as [Hw Hres].
  unfold check_duplicates, bind.
  destruct (for_fold values check_sample ∅ w) as [[s|e] w'] eqn:Hrun; simpl in *.
  - destruct Hres as [Hnd _]. split_and!; [done | done |].
    split; [by intros [? ?] | done].
  - destruct Hres as [[n ->] Hbad]. split_and!; [done | |].
    + split; [done|]. intros Hnd. exfalso. apply Hbad. split; [done|]. set_solver.
    + split; [|by exists n]. intros _ Hnd. apply Hbad. split; [done|]. set_solver.
Qed.

Lemma check_duplicates_all_witness :
  Forall scannable [PyNone; PyStr "ref"; PyDict [("x", 1%nat)]] ∧
  (check_duplicates [PyNone; PyStr "ref"; PyDict [("x", 1%nat)]] basic_world).1 = Ret tt ∧
  NoDup (all_scanned (heap basic_world) [PyNone; PyStr "ref"; PyDict [("x", 1%nat)]]).
Proof.
  assert (Hok : Forall scannable [PyNone; PyStr "ref"; PyDict [("x", 1%nat)]]).
  { repeat (apply Forall_cons_2; [by unfold scannable; simpl; intros ?|]). apply Forall_nil_2. }
  split; [exact Hok|]. split; [reflexivity|].
  by apply (check_duplicates_all _ basic_world Hok).
Defined.

(** The result of pruning, with distinct keys. *)
Lemma prune_run (w : world) (seqs : dict loc) (aln : alignment) :
  NoDup (map fst seqs) →
  ∃ w', prune_seqs_matching_alignment seqs aln w
        = (Ret (filter (fun kv => kv.1 ∉ row_names (heap w) aln) seqs), w') ∧
        heap w' = heap w.
Proof.
  intros Hnd. unfold prune_seqs_matching_alignment. unfold bind at 1. unfold gets.
  cbv beta iota.
  set (exclude_names := list_to_set (row_names (heap w) aln) : gset string).
  destruct (prune_loop_run exclude_names seqs [] w) as [notes ->].
  rewrite prune_fold_filter; [|done|]. 2:{ intros k _. apply not_elem_of_nil. }
  simpl.
  assert (Hfilter : filter (fun kv : string * loc => kv.1 ∉ exclude_names) seqs
                    = filter (fun kv => kv.1 ∉ row_names (heap w) aln) seqs).
  { apply list_filter_iff. intros [k l]. simpl. unfold exclude_names.
    by rewrite elem_of_list_to_set. }
  rewrite Hfilter. by eexists.
Qed.

Lemma scanned_names_sub (h : loc → SeqRecord) (v : pyvalue) (n : string) :
  n ∈ scanned_names h v → n ∈ names_of h v.
Proof. unfold scanned_names. destruct (truthy v); [done | by intros ?%elem_of_nil]. Qed.

Lemma scanned_names_NoDup (h : loc → SeqRecord) (v : pyvalue) :
  NoDup (names_of h v) → NoDup (scanned_names h v).
Proof. unfold scanned_names. destruct (truthy v); [done | constructor]. Qed.

Lemma sublist_map {A B} (f : A → B) (l k : list A) :
  l `sublist_of` k → map f l `sublist_of` map f k.
Proof. induction 1; simpl; by constructor. Qed.

(** X15: pruning does what the check afterwards needs: the alignment (its rows
    distinctly named) and the candidates pruned against it pass
    [check_duplicates] together. *)
Theorem prune_then_check (w : world) (seqs : dict loc) (aln : alignment) :
  NoDup (map fst seqs) → NoDup (row_names (heap w) aln) →
  ∃ ret w',
    prune_seqs_matching_alignment seqs aln w = (Ret ret, w') ∧
    (check_duplicates [PyAlignment aln; PyDict ret] w').1 = Ret tt.
Proof.
  intros Hkeys Hrows. destruct (prune_run w seqs aln Hkeys) as (w' & Hrun & Hheap).
  eexists _, w'. split; [exact Hrun|].
  apply check_duplicates_returns.
  { repeat (apply Forall_cons_2; [by unfold scannable; simpl; intros ?|]). apply Forall_nil_2. }
  unfold all_scanned. simpl. rewrite app_nil_r, Hheap.
  apply NoDup_app. split_and!.
  - by apply scanned_names_NoDup.
  - intros n Hn%scanned_names_sub Hn'%scanned_names_sub. simpl in *.
    apply list_elem_of_In, in_map_iff in Hn' as ([k l] & <- & Hkl).
    apply list_elem_of_In, list_elem_of_filter in Hkl as [Hk _]. done.
  - apply scanned_names_NoDup. simpl.
    apply (sublist_NoDup _ (map fst seqs) Hkeys). apply sublist_map, sublist_filter.
Qed.

Lemma basic_names_distinct : NoDup (row_names (heap basic_world) basic_aln).
Proof.
  vm_compute. apply NoDup_cons. split; [|apply NoDup_singleton].
  intros Hin. apply list_elem_of_singleton in Hin. discriminate.
Qed.

Lemma prune_then_check_witness :
  NoDup (map fst [("x", 1%nat); ("y", 5%nat)]) ∧
  NoDup (row_names (heap basic_world) basic_aln) ∧
  ∃ ret w',
    prune_seqs_matching_alignment [("x", 1%nat); ("y", 5%nat)] basic_aln basic_world
    = (Ret ret, w') ∧
    (check_duplicates [PyAlignment basic_aln; PyDict ret] w').1 = Ret tt.
Proof.
  assert (Hnd : NoDup (map fst [("x", 1%nat); ("y", 5%nat)])).
  { simpl. apply NoDup_cons. split; [|apply NoDup_singleton].
    intros Hin. apply list_elem_of_singleton in Hin. discriminate. }
  split; [exact Hnd|]. split; [exact basic_names_distinct|].
  exact (prune_then_check basic_world _ basic_aln Hnd basic_names_distinct).
Defined.

End DuplicatesMore.

(** ** [check_arguments] and [ensure_reference_strain_present] *)

Section ReferenceChecks.

(** X17: [check_arguments] returns exactly when the two ways of giving a
    reference are not used together and a reference to remove has been
    given; an empty string counts as not given; the clash of the two ways
    is reported first; and when removal is accepted, exactly one way is
    used. *)
Theorem check_arguments_accepts (args : arguments) (w : world) :
  let name_given := given (reference_name args) in
  let sequence_given := given (reference_sequence args) in
  (check_arguments args w).2 = w ∧
  ((check_arguments args w).1 = Ret tt
   ↔ (name_given && sequence_given = false)%bool ∧
     (remove_reference args = true → (name_given || sequence_given = true)%bool)) ∧
  ((name_given && sequence_given = true)%bool →
   (check_arguments args w).1 = Raise (AlignmentError both_references_msg)) ∧
  ((check_arguments args w).1 = Ret tt → remove_reference args = true →
   xorb name_given sequence_given = true).
Proof.
  unfold check_arguments, bind, raise, pure.
  destruct (given (reference_name args)), (given (reference_sequence args)),
    (remove_reference args); simpl; split_and!; try done.
  all: split; [done|].
  - by intros [? _].
  - by intros [? _].
  - intros [_ H]. discriminate (H eq_refl).
Qed.

(** When [ensure_reference_strain_present] returns. *)
Lemma ensure_reference_returns (ref_name : string) (existing_alignment : option alignment)
    (seqs : dict loc) (w : world) :
  (ensure_reference_strain_present ref_name existing_alignment seqs w).1 = Ret tt
  ↔ match existing_alignment with
    | Some (l :: aln) => ref_name ∈ row_names (heap w) (l :: aln)
    | _ => ref_name ∈ map fst seqs
    end.
Proof.
  unfold ensure_reference_strain_present.
  destruct existing_alignment as [[|l aln]|]; simpl.
  1,3: destruct (decide (ref_name ∉ map fst seqs)) as [Hno|Hyes]; simpl;
       [ split; [done | intros Hin; by destruct Hno]
       | split; [intros _; by apply dec_stable in Hyes | done] ].
  unfold bind, gets. simpl.
  destruct (decide (ref_name ∉ _)) as [Hno|Hyes]; simpl.
  - split; [done|]. intros Hin. exfalso. apply Hno. set_solver.
  - split; [intros _ | done]. apply dec_stable in Hyes. set_solver.
Qed.

(** X18: [ensure_reference_strain_present] returns exactly when the name is
    that of a row of the existing alignment, if there is one with a row,
    and otherwise when it is a key of the sequences read; an alignment
    without rows counts as none.  It never changes the world. *)
Theorem ensure_reference_accepts (ref_name : string) (existing_alignment : option alignment)
    (seqs : dict loc) (w : world) :
  (ensure_reference_strain_present ref_name existing_alignment seqs w).2 = w ∧
  ((ensure_reference_strain_present ref_name existing_alignment seqs w).1 = Ret tt
   ↔ match existing_alignment with
     | Some (l :: aln) => ref_name ∈ row_names (heap w) (l :: aln)
     | _ => ref_name ∈ map fst seqs
     end) ∧
  ((ensure_reference_strain_present ref_name existing_alignment seqs w).1 ≠ Ret tt →
   (ensure_reference_strain_present ref_name existing_alignment seqs w).1
   = Raise (AlignmentError (if truthy_alignment existing_alignment
                            then not_in_alignment_msg ref_name
                            else not_in_sample_msg ref_name))).
Proof.
  unfold ensure_reference_strain_present.
  destruct existing_alignment as [[|l aln]|]; simpl.
  1,3: destruct (decide (ref_name ∉ map fst seqs)) as [Hno|Hyes]; simpl;
       (split_and!; [done | | done]);
       [ split; [done | intros Hin; by destruct Hno]
       | split; [intros _; by apply dec_stable in Hyes | done] ].
  unfold bind, gets. simpl.
  destruct (decide (ref_name ∉ _)) as [Hno|Hyes]; simpl.
  - split_and!; [done | | done]. split; [done|]. intros Hin. exfalso. apply Hno.
    set_solver.
  - split_and!; [done | | done]. split; [intros _ | done].
    apply dec_stable in Hyes. set_solver.
Qed.

(** X19: a name accepted against an existing alignment is found by the
    trimmer in that alignment: trimming it against the name raises no
    [AlignmentError], the reference-not-found error in particular; and it
    returns where the rows are of one length and the insertions report,
    if a path is given for it, can be opened for writing. *)
Theorem ensure_then_trim (ref_name : string) (aln : alignment) (seqs : dict loc)
    (insertion_csv : option string) (w : world) :
  aln ≠ [] →
  (ensure_reference_strain_present ref_name (Some aln) seqs w).1 = Ret tt →
  (∀ msg, (strip_non_reference aln ref_name insertion_csv w).1 ≠ Raise (AlignmentError msg)) ∧
  (rectangular (heap w) aln → report_writable w insertion_csv →
   ∃ out w', strip_non_reference aln ref_name insertion_csv w = (Ret out, w')).
Proof.
  intros Hne Hok. apply ensure_reference_returns in Hok.
  destruct aln as [|l aln]; [done|].
  destruct (reference_row _ _ _ Hok) as (i & ref & Hi & Href).
  pose proof (last_row_named_elem _ _ _ _ _ Hi) as Hrefin.
  split.
  - intros msg. rewrite (strip_non_reference_run w (l :: aln) ref_name insertion_csv ref Href).
    destruct (rows_fit _ _ _); [|discriminate].
    destruct (report_due _ _) as [path|]; [destruct (can_open w path)|]; discriminate.
  - intros Hrect Hopen.
    destruct (strip_non_reference_found w (l :: aln) ref_name insertion_csv ref Href)
      as (w' & Hrun & _);
      [by apply rectangular_rows_fit | intros path; by apply report_writable_due |].
    by eexists _, _.
Qed.

Lemma ensure_then_trim_witness :
  basic_aln ≠ [] ∧
  (ensure_reference_strain_present "ref" (Some basic_aln) [] basic_world).1 = Ret tt ∧
  ∃ out w', strip_non_reference basic_aln "ref" (Some "out.csv") basic_world = (Ret out, w').
Proof.
  split; [done|]. split; [reflexivity|].
  destruct (ensure_then_trim "ref" basic_aln [] (Some "out.csv") basic_world)
    as [_ Hreturns]; [done | reflexivity |].
  exact (Hreturns basic_rectangular (basic_report_writable _)).
Defined.

Lemma truthy_str (s : string) : s ≠ EmptyString → truthy (PyStr s) = true.
Proof. by destruct s. Qed.

(** The scan of three arguments. *)
Lemma check_duplicates_triple (A B C : pyvalue) (w : world) :
  (check_duplicates [A; B; C] w).1
  = match sample_step ∅ A (heap w) with
    | Ret s =>
        match sample_step s B (heap w) with
        | Ret s' => match sample_step s' C (heap w) with
                    | Ret _ => Ret tt
                    | Raise e => Raise e
                    end
        | Raise e => Raise e
        end
    | Raise e => Raise e
    end.
Proof.
  unfold check_duplicates. simpl. unfold bind. rewrite check_sample_run.
  destruct (sample_step ∅ A (heap w)) as [s|e]; [|done].
  rewrite check_sample_run. destruct (sample_step s B (heap w)) as [s'|e]; [|done].
  rewrite check_sample_run. by destruct (sample_step s' C (heap w)).
Qed.

Lemma sample_step_seen (s : gset string) (n : string) (h : loc → SeqRecord) :
  n ≠ EmptyString → n ∈ s →
  sample_step s (PyStr n) h = Raise (AlignmentError (duplicate_msg n)).
Proof.
  intros Hn Hs. unfold sample_step. rewrite (truthy_str n Hn). simpl.
  by rewrite decide_True.
Qed.

Lemma sample_step_clash (s : gset string) (v : pyvalue) (n : string) (h : loc → SeqRecord) :
  n ∈ scanned_names h v → n ∈ s →
  ∃ e, sample_step s v h = Raise e ∧ raises_duplicate (@Raise unit e).
Proof.
  intros Hn Hs. destruct (sample_step s v h) as [s'|e] eqn:Hstep.
  - exfalso. revert Hstep Hn. unfold sample_step, scanned_names.
    destruct (truthy v); [|by intros _ ?%elem_of_nil].
    destruct (accepted v); [|done].
    pose proof (scan_names_spec (names_of h v) s) as Hspec.
    destruct (scan_names s (names_of h v)) as [m|s'']; [done|].
    intros _ Hn. destruct Hspec as (_ & Hfresh & _). by apply (Hfresh n Hn).
  - exists e. split; [done|].
    destruct (sample_step_raise _ _ _ _ Hstep) as [[_ Hnone]|Hdup].
    + rewrite Hnone in Hn. by apply elem_of_nil in Hn.
    + rewrite Hstep in Hdup. by apply (raises_duplicate_retype (A := gset string) e).
Qed.

(** X16: a reference given by name makes the scan fail.  Once
    [ensure_reference_strain_present] has accepted a name, the call
    [check_duplicates(existing_aln, ref_name, seqs)] of [run] meets the
    name twice, as a row of the alignment (or, without one, as a key of
    the sequences) and as the reference name, and raises the
    duplicate-strain error; with an alignment this holds whatever the
    sequences are, pruned or not. *)
Theorem reference_name_then_duplicate (ref_name : string)
    (existing_alignment : option alignment) (seqs seqs' : dict loc) (w : world) :
  ref_name ≠ EmptyString →
  (ensure_reference_strain_present ref_name existing_alignment seqs w).1 = Ret tt →
  (truthy_alignment existing_alignment = false → seqs' = seqs) →
  raises_duplicate
    (check_duplicates [py_alignment existing_alignment; PyStr ref_name; PyDict seqs'] w).1.
Proof.
  intros Hname Hok Hseqs.
  apply ensure_reference_returns in Hok. rewrite check_duplicates_triple.
  assert (Hrows : ∀ l aln, existing_alignment = Some (l :: aln) →
    raises_duplicate
      (match sample_step ∅ (PyAlignment (l :: aln)) (heap w) with
       | Ret s =>
           match sample_step s (PyStr ref_name) (heap w) with
           | Ret s' => match sample_step s' (PyDict seqs') (heap w) with
                       | Ret _ => Ret tt
                       | Raise e => Raise e
                       end
           | Raise e => Raise e
           end
       | Raise e => Raise e
       end)).
  { intros l aln ->.
    destruct (sample_step ∅ (PyAlignment (l :: aln)) (heap w)) as [s|e] eqn:Hstep.
    - rewrite (sample_step_seen s ref_name); [by exists ref_name | done |].
      apply (sample_step_names _ _ _ _ Hstep). by left.
    - destruct (sample_step_raise _ _ _ _ Hstep) as [[_ Hnone]|Hdup]; [done|].
      rewrite Hstep in Hdup. by apply (raises_duplicate_retype (A := gset string) e). }
  assert (Hnone : truthy_alignment existing_alignment = false →
    sample_step ∅ (py_alignment existing_alignment) (heap w) = Ret ∅ →
    ref_name ∈ map fst seqs →
    raises_duplicate
      (match sample_step ∅ (py_alignment existing_alignment) (heap w) with
       | Ret s =>
           match sample_step s (PyStr ref_name) (heap w) with
           | Ret s' => match sample_step s' (PyDict seqs') (heap w) with
                       | Ret _ => Ret tt
                       | Raise e => Raise e
                       end
           | Raise e => Raise e
           end
       | Raise e => Raise e
       end)).
  { intros Hfalsy -> Hkey. rewrite (Hseqs Hfalsy).
    assert (Hstr : sample_step ∅ (PyStr ref_name) (heap w) = Ret ({[ref_name]} ∪ ∅)).
    { unfold sample_step. rewrite (truthy_str ref_name Hname). simpl.
      by rewrite decide_False by set_solver. }
    rewrite Hstr.
    destruct (sample_step_clash ({[ref_name]} ∪ ∅) (PyDict seqs) ref_name (heap w))
      as (e & -> & Hdup).
    - unfold scanned_names. destruct seqs; [by apply elem_of_nil in Hkey | done].
    - apply elem_of_union. left. by apply elem_of_singleton.
    - exact Hdup. }
  destruct existing_alignment as [[|l aln]|].
  - by apply Hnone.
  - by apply (Hrows l aln).
  - by apply Hnone.
Qed.

(** The reference [ref], a row of the existing alignment, against
    candidates that do not hold it. *)
Lemma reference_name_then_duplicate_witness :
  "ref" ≠ EmptyString ∧
  (ensure_reference_strain_present "ref" (Some basic_aln) [("y", 5%nat)] basic_world).1
  = Ret tt ∧
  (check_duplicates [py_alignment (Some basic_aln); PyStr "ref"; PyDict [("y", 5%nat)]]
     basic_world).1
  = Raise (AlignmentError (duplicate_msg "ref")).
Proof.
  split; [done|]. split; [reflexivity|].
  pose proof (reference_name_then_duplicate "ref" (Some basic_aln)
                [("y", 5%nat)] [("y", 5%nat)] basic_world) as Hdup.
  destruct Hdup as [n Hn]; [done | reflexivity | done |].
  reflexivity.
Defined.

End ReferenceChecks.

(** ** [read_sequences] *)

Section ReadSequences.

Lemma dict_get_dict_set {V} (d : dict V) (k k' : string) (v : V) :
  dict_get (dict_set d k v) k' = if decide (k = k') then Some v else dict_get d k'.
Proof.
  induction d as [|[k0 v0] d IH]; simpl.
  - by destruct (decide (k = k')).
  - destruct (decide (k0 = k)) as [->|Hne]; simpl.
    + by destruct (decide (k = k')).
    + rewrite IH. destruct (decide (k0 = k')) as [->|Hne']; [|done].
      by rewrite decide_False by done.
Qed.

Lemma dict_set_keys {V} (d : dict V) (k : string) (v : V) :
  map fst (dict_set d k v) = if decide (k ∈ map fst d) then map fst d else map fst d ++ [k].
Proof.
  induction d as [|[k0 v0] d IH]; simpl; [done|].
  destruct (decide (k0 = k)) as [->|Hne]; simpl.
  - by rewrite decide_True by apply list_elem_of_here.
  - rewrite IH. destruct (decide (k ∈ map fst d)) as [Hin|Hnin].
    + by rewrite decide_True by (by apply list_elem_of_further).
    + rewrite decide_False; [done|]. intros [?|?]%elem_of_cons; congruence.
Qed.

Lemma dict_set_NoDup {V} (d : dict V) (k : string) (v : V) :
  NoDup (map fst d) → NoDup (map fst (dict_set d k v)).
Proof.
  intros Hnd. rewrite dict_set_keys. destruct (decide (k ∈ map fst d)); [done|].
  apply NoDup_app. split_and!; [done | | apply NoDup_singleton].
  intros x Hx ->%list_elem_of_singleton. done.
Qed.

Lemma consistent_snoc (h : loc → SeqRecord) (processed : list loc) (r : loc) :
  consistent h processed →
  (∀ l, l ∈ processed → name (h l) = name (h r) → seq (h l) = seq (h r)) →
  consistent h (processed ++ [r]).
Proof.
  intros Hcons Hr l l' [Hl|Hl]%elem_of_app [Hl'|Hl']%elem_of_app Hname;
    try apply list_elem_of_singleton in Hl; try apply list_elem_of_singleton in Hl';
    subst.
  - by apply Hcons.
  - by apply Hr.
  - symmetry. by apply Hr.
  - done.
Qed.

(** One record read: it is taken, or it clashes with the record kept
    under its name. *)
Lemma read_record_step (processed : list loc) (seqs : dict loc) (r : loc) (w : world) :
  read_inv (heap w) processed seqs →
  match read_record seqs r w with
  | (Ret seqs', w') => w' = w ∧ read_inv (heap w) (processed ++ [r]) seqs'
  | (Raise e, w') =>
      w' = w ∧ e = AlignmentError (conflict_msg (name (heap w r))) ∧
      ¬ consistent (heap w) (processed ++ [r])
  end.
Proof.
  intros (Hnd & Hget & Hcons). unfold read_record, bind, get_record. simpl.
  pose proof (name_index_lookup (heap w) processed (name (heap w r))) as Hlast.
  rewrite Hget. 
  assert (Htake : (∀ l, l ∈ processed → name (heap w l) = name (heap w r) →
                        seq (heap w l) = seq (heap w r)) →
                  read_inv (heap w) (processed ++ [r]) (dict_set seqs (name (heap w r)) r)).
  { intros Hsame. split_and!.
    - by apply dict_set_NoDup.
    - intros k. rewrite dict_get_dict_set, name_index_snoc, Hget.
      destruct (decide (name (heap w r) = k)) as [->|Hne].
      + by rewrite lookup_insert_eq.
      + by rewrite lookup_insert_ne.
    - by apply consistent_snoc. }
  destruct (name_index (heap w) processed !! name (heap w r)) as [old|] eqn:Hold.
  - destruct Hlast as (i & Hi & Hname & _).
    assert (Holdin : old ∈ processed) by (by eapply list_elem_of_lookup_2).
    destruct (decide (seq (heap w r) ≠ seq (heap w old))) as [Hdiff|Hsame]; simpl.
    + split_and!; [done | done |]. intros Hbad. apply Hdiff. symmetry.
      apply Hbad; [apply elem_of_app; by left | | done].
      apply elem_of_app. right. by apply list_elem_of_singleton.
    + apply dec_stable in Hsame. split; [done|]. apply Htake.
      intros l Hl Hn. rewrite Hsame. apply Hcons; [done | done | congruence].
  - simpl. split; [done|]. apply Htake.
    intros l Hl Hn. exfalso. apply Hlast. unfold row_names. rewrite <- Hn.
    apply list_elem_of_In. apply (in_map (fun l => name (heap w l))). by apply list_elem_of_In.
Qed.

Lemma consistent_prefix (h : loc → SeqRecord) (processed rest : list loc) :
  consistent h (processed ++ rest) → consistent h processed.
Proof.
  intros Hcons l l' Hl Hl'. apply Hcons; apply elem_of_app; by left.
Qed.

(** The records of a file read one after the other. *)
Lemma read_records_run (records processed : list loc) (seqs : dict loc) (w : world) :
  read_inv (heap w) processed seqs →
  match for_fold records read_record seqs w with
  | (Ret seqs', w') => w' = w ∧ read_inv (heap w) (processed ++ records) seqs'
  | (Raise e, w') =>
      w' = w ∧ (∃ n, e = AlignmentError (conflict_msg n)) ∧
      ¬ consistent (heap w) (processed ++ records)
  end.
Proof.
  revert processed seqs. induction records as [|r records IH]; intros processed seqs Hinv.
  - simpl. by rewrite app_nil_r.
  - simpl. unfold bind. pose proof (read_record_step processed seqs r w Hinv) as Hstep.
    replace (processed ++ r :: records) with ((processed ++ [r]) ++ records)
      by (by rewrite <- app_assoc).
    destruct (read_record seqs r w) as [[seqs'|e] w'].
    + destruct Hstep as [-> Hinv']. by apply IH.
    + destruct Hstep as (-> & -> & Hbad). split_and!; [done | by eexists |].
      intros Hcons. by apply Hbad, (consistent_prefix _ _ records).
Qed.

(** The files read one after the other, as long as they parse. *)
Lemma read_files_run (parse : string → parse_result) (fnames : list string)
    (processed : list loc) (seqs : dict loc) (w : world) :
  Forall (fun fname => (parse fname).2 = None) fnames →
  read_inv (heap w) processed seqs →
  match for_fold fnames (fun seqs fname =>
          seqs <- for_fold (parse fname).1 read_record seqs ;;
          match (parse fname).2 with
          | None => pure seqs
          | Some FileNotFoundError => raise (AlignmentError (cannot_read_msg fname))
          | Some (ValueError error) =>
              raise (AlignmentError (problem_reading_msg fname error))
          end) seqs w with
  | (Ret seqs', w') => w' = w ∧ read_inv (heap w) (processed ++ parsed parse fnames) seqs'
  | (Raise e, w') =>
      w' = w ∧ (∃ n, e = AlignmentError (conflict_msg n)) ∧
      ¬ consistent (heap w) (processed ++ parsed parse fnames)
  end.
Proof.
  intros Hok. revert processed seqs.
  induction Hok as [|fname fnames Hf Hok IH]; intros processed seqs Hinv.
  - simpl. unfold parsed. simpl. by rewrite app_nil_r.
  - simpl. unfold bind at 1. unfold bind at 1.
    pose proof (read_records_run (parse fname).1 processed seqs w Hinv) as Hfile.
    unfold parsed. simpl. fold (parsed parse fnames). rewrite app_assoc.
    destruct (for_fold (parse fname).1 read_record seqs w) as [[seqs'|e] w'].
    + destruct Hfile as [-> Hinv']. rewrite Hf. unfold pure at 1. by apply IH.
    + destruct Hfile as (-> & Hconf & Hbad). split_and!; [done | done |].
      intros Hcons. by apply Hbad, (consistent_prefix _ _ (parsed parse fnames)).
Qed.

Lemma read_inv_init (h : loc → SeqRecord) : read_inv h [] [].
Proof.
  split_and!; [constructor | done |]. intros l l' Hl. by apply elem_of_nil in Hl.
Qed.

(** X20: when every file parses, [read_sequences] returns exactly when the
    records that bear one name hold one sequence, across all the files;
    otherwise it raises the error of conflicting duplicates.  What it
    returns has each name once, bound to the last record of that name.
    It changes nothing in the world. *)
Theorem read_sequences_result (parse : string → parse_result) (fnames : list string)
    (w : world) :
  Forall (fun fname => (parse fname).2 = None) fnames →
  (read_sequences parse fnames w).2 = w ∧
  match (read_sequences parse fnames w).1 with
  | Ret seqs =>
      consistent (heap w) (parsed parse fnames) ∧
      NoDup (map fst seqs) ∧
      (∀ k, dict_get seqs k = name_index (heap w) (parsed parse fnames) !! k) ∧
      (∀ k, k ∈ map fst seqs ↔ k ∈ row_names (heap w) (parsed parse fnames))
  | Raise e =>
      (∃ n, e = AlignmentError (conflict_msg n)) ∧
      ¬ consistent (heap w) (parsed parse fnames)
  end.
Proof.
  intros Hok. unfold read_sequences.
  pose proof (read_files_run parse fnames [] [] w Hok (read_inv_init (heap w))) as Hrun.
  simpl in Hrun.
  destruct (for_fold fnames _ [] w) as [[seqs|e] w']; simpl.
  - destruct Hrun as (-> & Hnd & Hget & Hcons). split_and!; [done..|].
    intros k. rewrite <- name_index_is_Some, <- Hget. split.
    + intros Hk. apply list_elem_of_In, in_map_iff in Hk as ([k' l] & <- & Hkl).
      exists l. apply dict_get_elem; [done|]. by apply list_elem_of_In.
    + intros [l Hl]. apply dict_get_elem in Hl; [|done].
      apply list_elem_of_In in Hl. apply (in_map fst) in Hl. by apply list_elem_of_In.
  - by destruct Hrun as (-> & Hconf & Hbad).
Qed.

Lemma two_files_parse : Forall (fun fname => (two_files fname).2 = None) ["a.fasta"; "b.fasta"].
Proof. repeat (apply Forall_cons_2; [reflexivity|]). apply Forall_nil_2. Qed.

(** Two files that both hold the record [x]: it is read once. *)
Lemma read_sequences_result_witness :
  Forall (fun fname => (two_files fname).2 = None) ["a.fasta"; "b.fasta"] ∧
  (read_sequences two_files ["a.fasta"; "b.fasta"] basic_world).1
  = Ret [("ref", 0%nat); ("x", 1%nat)] ∧
  consistent (heap basic_world) (parsed two_files ["a.fasta"; "b.fasta"]).
Proof.
  split; [exact two_files_parse|]. split; [reflexivity|].
  pose proof (read_sequences_result two_files ["a.fasta"; "b.fasta"] basic_world
                two_files_parse) as [_ Hres].
  change ((read_sequences two_files ["a.fasta"; "b.fasta"] basic_world).1)
    with (@Ret (dict loc) [("ref", 0%nat); ("x", 1%nat)]) in Hres.
  by destruct Hres as (Hcons & _).
Defined.

Lemma read_sequences_failure_run (parse : string → parse_result)
    (pre post : list string) (fname : string) (failure : parse_failure) (w : world) :
  Forall (fun fname => (parse fname).2 = None) pre →
  (parse fname).2 = Some failure →
  ∃ r, read_sequences parse (pre ++ fname :: post) w = (r, w) ∧
       (consistent (heap w) (parsed parse (pre ++ [fname])) →
        r = Raise (AlignmentError (failure_msg fname failure))) ∧
       (¬ consistent (heap w) (parsed parse (pre ++ [fname])) →
        ∃ n, r = Raise (AlignmentError (conflict_msg n))).
Proof.
  intros Hpre Hfail. unfold read_sequences. rewrite for_fold_app.
  pose proof (read_files_run parse pre [] [] w Hpre (read_inv_init (heap w))) as Hrun.
  simpl in Hrun.
  assert (Hparsed : parsed parse (pre ++ [fname]) = parsed parse pre ++ (parse fname).1).
  { unfold parsed. rewrite map_app, concat_app. simpl. by rewrite app_nil_r. }
  rewrite Hparsed.
  destruct (for_fold pre _ [] w) as [[seqs|e] w'].
  - destruct Hrun as [-> Hinv]. simpl. unfold bind.
    pose proof (read_records_run (parse fname).1 (parsed parse pre) seqs w Hinv) as Hfile.
    destruct (for_fold (parse fname).1 read_record seqs w) as [[seqs'|e] w'].
    + destruct Hfile as [-> (_ & _ & Hcons)]. rewrite Hfail.
      exists (Raise (AlignmentError (failure_msg fname failure))).
      split_and!; [by destruct failure | done | intros Hbad; by destruct Hbad].
    + destruct Hfile as (-> & [n ->] & Hbad). eexists.
      split_and!; [done | done | by exists n].
  - destruct Hrun as (-> & [n ->] & Hbad). eexists. split_and!; [done | | by exists n].
    intros Hcons. exfalso. by apply Hbad, (consistent_prefix _ _ (parse fname).1).
Qed.

(** X21: the first file that fails to parse ends the reading: the records read
    up to the failure are checked first, and a conflict among them is what
    is reported; without one, the error names the file.  The files after
    it are never opened, and nothing is returned of what was read. *)
Theorem read_sequences_failure (parse : string → parse_result)
    (pre post : list string) (fname : string) (failure : parse_failure) (w : world) :
  Forall (fun fname => (parse fname).2 = None) pre →
  (parse fname).2 = Some failure →
  (read_sequences parse (pre ++ fname :: post) w).2 = w ∧
  (consistent (heap w) (parsed parse (pre ++ [fname])) →
   (read_sequences parse (pre ++ fname :: post) w).1
   = Raise (AlignmentError (failure_msg fname failure))) ∧
  (¬ consistent (heap w) (parsed parse (pre ++ [fname])) →
   ∃ n, (read_sequences parse (pre ++ fname :: post) w).1
        = Raise (AlignmentError (conflict_msg n))).
Proof.
  intros Hpre Hfail.
  destruct (read_sequences_failure_run parse pre post fname failure w Hpre Hfail)
    as (r & -> & Hmsg & Hconf).
  by split_and!.
Qed.

Lemma read_sequences_failure_witness :
  Forall (fun fname => (two_files fname).2 = None) ["a.fasta"] ∧
  (two_files "c.fasta").2 = Some FileNotFoundError ∧
  (read_sequences two_files (["a.fasta"] ++ "c.fasta" :: ["b.fasta"]) basic_world).1
  = Raise (AlignmentError (cannot_read_msg "c.fasta")).
Proof.
  assert (Hpre : Forall (fun fname => (two_files fname).2 = None) ["a.fasta"]).
  { apply Forall_cons_2; [reflexivity | apply Forall_nil_2]. }
  split; [exact Hpre|]. split; [reflexivity|].
  destruct (read_sequences_failure two_files ["a.fasta"] ["b.fasta"] "c.fasta"
              FileNotFoundError basic_world Hpre eq_refl) as (_ & Hmsg & _).
  reflexivity.
Defined.

End ReadSequences.
